(** * The tablet load balancer of service/tablet_allocator.cc

    A shallow embedding of [load_balancer::make_plan(sstring dc)] and of the
    data it works on, followed by the properties of the planner.

    Conventions of the embedding.
    - [uint64_t] and [size_t] counters are integers in [Z]; every [+= 1] and
      [-= 1] of the source is written with its wrap-around [wrap64].
    - [load_type] is [double] in the source.  It is idealised as an exact
      rational ([Q]); [double(tablets) / shard_count] is the exact quotient,
      and [<], [<=], [==] are the exact comparisons.
    - [std::unordered_map] is a [gmap].  The order in which the scan that
      selects the target meets the nodes is a parameter of the development;
      the other range-based iterations follow [map_to_list], and no theorem
      below depends on their order.
    - [std::unordered_set<global_tablet_id>] is a duplicate-free list;
      which element [begin()] designates is a parameter of the development.
    - [std::make_heap], [std::pop_heap] and [std::push_heap] are parameters
      too.  The planner changes the keys of elements that sit inside its
      heaps, so all that is used about them is that they permute the vector.
    - exceptions, [co_return] from the middle of the function and the end of
      the fuel of the selection loop are the constructors of [flow]. *)

From Stdlib Require Import ZArith QArith Permutation Lia.
From stdpp Require Import gmap strings list fin_maps.

Local Open Scope Z_scope.

(** ** Identifiers and the topology snapshot *)

Abbreviation host_id := N (only parsing).
Abbreviation table_id := N (only parsing).
Abbreviation tablet_id := nat (only parsing).
Abbreviation shard_id := nat (only parsing).
Abbreviation sstring := string (only parsing).

(** [locator::tablet_replica] *)
Record tablet_replica := { host : host_id; shard : shard_id }.

(** [locator::global_tablet_id] *)
Record global_tablet_id := { table : table_id; tablet : tablet_id }.

#[global] Instance tablet_replica_eq_dec : EqDecision tablet_replica.
Proof. solve_decision. Defined.

#[global] Instance global_tablet_id_eq_dec : EqDecision global_tablet_id.
Proof. solve_decision. Defined.

(** [locator::tablet_info]: only the replica list is read by the planner. *)
Record tablet_info := { replicas : list tablet_replica }.

(** [locator::tablet_map]: the tablets, indexed by [tablet_id], and the
    tablets that have a transition in flight. *)
Record tablet_map := {
  tablets : list tablet_info;
  transitions : list tablet_id
}.

(** [locator::node::state] *)
Inductive node_state := joining | normal | leaving | left_cluster.

#[global] Instance node_state_eq_dec : EqDecision node_state.
Proof. solve_decision. Defined.

(** [locator::endpoint_dc_rack] *)
Record endpoint_dc_rack := { dc : sstring; rack : sstring }.

(** [locator::node], as far as the planner reads it. *)
Record node := {
  get_state : node_state;
  dc_rack : endpoint_dc_rack;
  get_shard_count : nat
}.

(** [locator::token_metadata]: the topology (nodes by host id) and the
    tablet metadata (tablet maps by table). *)
Record token_metadata := {
  get_topology : gmap N node;
  all_tables : gmap N tablet_map
}.

(** [service::tablet_migration_info] and [service::migration_plan] *)
Record tablet_migration_info := {
  mig_tablet : global_tablet_id;
  src : tablet_replica;
  dst : tablet_replica
}.

Abbreviation migration_plan := (list tablet_migration_info) (only parsing).

(** ** Machine arithmetic and the load metric *)

Definition wrap64 (z : Z) : Z := z mod 2 ^ 64.

Abbreviation load_type := Q (only parsing).

Definition load_lt (a b : Q) : bool :=
  match Qcompare a b with Lt => true | _ => false end.

Definition load_le (a b : Q) : bool := Qle_bool a b.

Definition load_eq (a b : Q) : bool := Qeq_bool a b.

(** [std::max(a, b)] is [(a < b) ? b : a]. *)
Definition load_max (a b : Q) : Q := if load_lt a b then b else a.

(** ** Control flow of the coroutine *)

Inductive error :=
| shard_count_not_found (h : host_id)
| nonexistent_shard (t : global_tablet_id) (r : tablet_replica)
| node_not_found (h : host_id)
| no_such_table (t : table_id)
| undefined_behaviour.

Inductive flow (A : Type) :=
| Next (a : A)
| Return (p : list tablet_migration_info)
| Throw (e : error)
| OutOfFuel.

Arguments Next {A} a.
Arguments Return {A} p.
Arguments Throw {A} e.
Arguments OutOfFuel {A}.

#[global] Instance flow_ret : MRet flow := fun A a => Next a.

#[global] Instance flow_bind : MBind flow := fun A B k m =>
  match m with
  | Next a => k a
  | Return p => Return p
  | Throw e => Throw e
  | OutOfFuel => OutOfFuel
  end.

(** A range-based [for] whose body may throw or return. *)
Fixpoint for_each {A S : Type} (body : A → S → flow S) (l : list A) (s : S)
  : flow S :=
  match l with
  | [] => Next s
  | a :: l' => s' ← body a s; for_each body l' s'
  end.

(** ** The planner's own structures *)

Module shard_load.
Record t := {
  tablet_count : Z;
  candidates : list global_tablet_id
}.

Definition empty : t := {| tablet_count := 0; candidates := [] |}.

Definition set_tablet_count (c : Z) (s : t) : t :=
  {| tablet_count := c; candidates := candidates s |}.

Definition set_candidates (c : list global_tablet_id) (s : t) : t :=
  {| tablet_count := tablet_count s; candidates := c |}.
End shard_load.

#[global] Instance shard_load_inhabited : Inhabited shard_load.t :=
  populate shard_load.empty.

Module node_load.
Record t := {
  shard_count : nat;
  tablet_count : Z;
  avg_load : Q;
  shards_by_load : list nat;
  shards : list shard_load.t
}.

(** A value-initialised [node_load], what [nodes[host]] creates. *)
Definition empty : t :=
  {| shard_count := 0; tablet_count := 0; avg_load := 0%Q;
     shards_by_load := []; shards := [] |}.

Definition set_shard_count (c : nat) (n : t) : t :=
  {| shard_count := c; tablet_count := tablet_count n;
     avg_load := avg_load n; shards_by_load := shards_by_load n;
     shards := shards n |}.

Definition set_tablet_count (c : Z) (n : t) : t :=
  {| shard_count := shard_count n; tablet_count := c;
     avg_load := avg_load n; shards_by_load := shards_by_load n;
     shards := shards n |}.

Definition set_avg_load (a : Q) (n : t) : t :=
  {| shard_count := shard_count n; tablet_count := tablet_count n;
     avg_load := a; shards_by_load := shards_by_load n;
     shards := shards n |}.

Definition set_shards_by_load (l : list nat) (n : t) : t :=
  {| shard_count := shard_count n; tablet_count := tablet_count n;
     avg_load := avg_load n; shards_by_load := l;
     shards := shards n |}.

Definition set_shards (l : list shard_load.t) (n : t) : t :=
  {| shard_count := shard_count n; tablet_count := tablet_count n;
     avg_load := avg_load n; shards_by_load := shards_by_load n;
     shards := l |}.

(** [double(tablets) / shard_count] *)
Definition get_avg_load (n : t) (tablets : Z) : Q :=
  (inject_Z tablets / inject_Z (Z.of_nat (shard_count n)))%Q.

(** Call when [tablet_count] changes. *)
Definition update (n : t) : t :=
  set_avg_load (get_avg_load n (tablet_count n)) n.

Definition shards_by_load_cmp (n : t) (a b : nat) : bool :=
  bool_decide (shard_load.tablet_count (shards n !!! a)
               < shard_load.tablet_count (shards n !!! b)).

(** [tablet_count += d; update()] for [d] one or minus one. *)
Definition add_tablets (d : Z) (n : t) : t :=
  update (set_tablet_count (wrap64 (tablet_count n + d)) n).

(** [f(shards[s])] for an [f] that writes through the reference. *)
Definition upd_shard (s : nat) (f : shard_load.t → shard_load.t) (n : t) : t :=
  set_shards (<[s := f (shards n !!! s)]> (shards n)) n.

(** [shards_by_load.pop_back()] *)
Definition pop_back_shard (n : t) : t :=
  set_shards_by_load (removelast (shards_by_load n)) n.
End node_load.

#[global] Instance node_load_inhabited : Inhabited node_load.t :=
  populate node_load.empty.

(** [f(nodes[h])] for an [f] that writes through the reference: [operator[]]
    creates a value-initialised entry when [h] has none. *)
Definition upd_node (h : N) (f : node_load.t → node_load.t)
    (nodes : gmap N node_load.t) : gmap N node_load.t :=
  <[h := f (nodes !!! h)]> nodes.

(** [f(nodes[h].shards[s])], for [s] inside the vector. *)
Definition upd_shard (h : N) (s : nat) (f : shard_load.t → shard_load.t)
    (nodes : gmap N node_load.t) : gmap N node_load.t :=
  upd_node h (node_load.upd_shard s f) nodes.

(** [candidates.emplace(t)] *)
Definition emplace (t : global_tablet_id) (c : list global_tablet_id)
  : list global_tablet_id :=
  if decide (t ∈ c) then c else t :: c.

(** [candidates.erase(t)] *)
Definition erase (t : global_tablet_id) (c : list global_tablet_id)
  : list global_tablet_id :=
  filter (fun x => x ≠ t) c.

(** [shard.candidates.erase(t)] *)
Definition erase_candidate (t : global_tablet_id) (s : shard_load.t) : shard_load.t :=
  shard_load.set_candidates (erase t (shard_load.candidates s)) s.

(** [shard.candidates.emplace(t)] *)
Definition emplace_candidate (t : global_tablet_id) (s : shard_load.t) : shard_load.t :=
  shard_load.set_candidates (emplace t (shard_load.candidates s)) s.

(** [shard.tablet_count += d] for [d] one or minus one. *)
Definition add_shard_tablets (d : Z) (s : shard_load.t) : shard_load.t :=
  shard_load.set_tablet_count (wrap64 (shard_load.tablet_count s + d)) s.

(** Modelled from the spec: [tablet_map::for_each_tablet] (locator/tablets.hh,
    not among the sources) yields the tablets with their ids, in order. *)
Definition for_each_tablet (tmap : tablet_map) : list (nat * tablet_info) :=
  imap (fun tid ti => (tid, ti)) (tablets tmap).

(** Modelled from the spec: [topology::get_node(host)] (locator/topology.hh,
    not among the sources) is the lookup of a node, which fails only on
    programmer error.  It returns a reference to a node of the topology;
    with no node of that id it cannot return one, and fails. *)
Definition get_node (topo : gmap N node) (h : N) : flow node :=
  match topo !! h with
  | Some n => Next n
  | None => Throw (node_not_found h)
  end.

(** Modelled from the spec: [tablet_metadata::get_tablet_map(table)]
    (locator/tablets.hh, not among the sources) returns a reference to the
    map of a table; it fails for a table that has none. *)
Definition get_tablet_map (tables : gmap N tablet_map) (t : N) : flow tablet_map :=
  match tables !! t with
  | Some m => Next m
  | None => Throw (no_such_table t)
  end.

(** Modelled from the spec: [tablet_map::get_tablet_info(id)]
    (locator/tablets.hh, not among the sources) indexes the tablets of the
    map; an index outside of it has no defined result. *)
Definition get_tablet_info (tmap : tablet_map) (id : nat) : flow tablet_info :=
  match tablets tmap !! id with
  | Some ti => Next ti
  | None => Throw undefined_behaviour
  end.

(** [std::max_element(first, last, comp)] *)
Definition max_element {A : Type} (comp : A → A → bool) (l : list A) : option A :=
  match l with
  | [] => None
  | x :: l' => Some (foldl (fun largest it => if comp largest it then it else largest) x l')
  end.

(** ** The load sketch of the target node *)

(** Modelled from the spec: [locator::load_sketch] (locator/load_sketch.hh) is
    not among the sources.  It holds the live number of tablets of every
    shard of one node; [next_shard] returns the shard with the lowest count,
    the lowest shard id on ties, and increments the count of that shard. *)
Module load_sketch.
Definition t := list Z.

Definition add_replica (target : N) (r : tablet_replica) (sk : t) : t :=
  if decide (host r = target)
  then <[shard r := wrap64 (sk !!! shard r + 1)]> sk
  else sk.

Definition populate (tm : token_metadata) (target : N) : t :=
  foldl (fun sk tbl =>
           foldl (fun sk ti => foldl (fun sk r => add_replica target r sk) sk (replicas ti))
                 sk (tablets tbl.2))
        (replicate (from_option get_shard_count 0%nat (get_topology tm !! target)) 0)
        (map_to_list (all_tables tm)).

Fixpoint least_loaded (sk : t) (i : nat) (best : nat) (best_load : Z) : nat :=
  match sk with
  | [] => best
  | c :: sk' =>
      if bool_decide (c < best_load)
      then least_loaded sk' (S i) i c
      else least_loaded sk' (S i) best best_load
  end.

Definition next_shard (sk : t) : nat * t :=
  let s := match sk with
           | [] => 0%nat
           | c :: sk' => least_loaded sk' 1 0 c
           end in
  (s, <[s := wrap64 (sk !!! s + 1)]> sk).
End load_sketch.

(** ** The per-DC planner *)

Record imbalance := {
  max_load : Q;
  min_load : Q;
  min_load_node : option N
}.

Record loop_state := {
  nodes : gmap N node_load.t;
  nodes_by_load : list N;
  plan : list tablet_migration_info;
  max_off_candidate_load : Q;
  target_load : load_sketch.t
}.

(** How one pass through the body of the selection loop ends. *)
Inductive iteration :=
| Break (st : loop_state)
| Continue (st : loop_state).

Definition state_of (it : iteration) : loop_state :=
  match it with Break st => st | Continue st => st end.

Section planner.

(** [std::make_heap], [std::pop_heap], [std::push_heap] over a vector. *)
Variables make_heap pop_heap push_heap :
  ∀ A : Type, (A → A → bool) → list A → list A.

(** [*candidates.begin()] of a non-empty candidate set. *)
Variable set_begin : list global_tablet_id → global_tablet_id.

Variable tm : token_metadata.

(** The datacenter under examination, the argument [dc] of [make_plan]. *)
Variable plan_dc : string.

(** The order in which the range-based [for] that computes the imbalance
    meets the keys of [nodes], a [std::unordered_map]. *)
Variable node_order : gmap N node_load.t → list N.

(** *** Select subset of nodes to balance *)

Definition select_node (hn : N * node) (nodes : gmap N node_load.t)
  : flow (gmap N node_load.t) :=
  let node_ptr := hn.2 in
  if decide (get_state node_ptr = normal ∧ dc (dc_rack node_ptr) = plan_dc) then
    let nodes :=
      upd_node hn.1 (fun load =>
        node_load.set_shards
          (resize (get_shard_count node_ptr) shard_load.empty (node_load.shards load))
          (node_load.set_shard_count (get_shard_count node_ptr) load)) nodes in
    if decide (get_shard_count node_ptr = 0%nat)
    then Throw (shard_count_not_found hn.1)
    else Next nodes
  else Next nodes.

(** *** Compute tablet load on nodes *)

Definition count_replica (gtid : global_tablet_id) (replica : tablet_replica)
    (nodes : gmap N node_load.t) : flow (gmap N node_load.t) :=
  if decide (is_Some (nodes !! host replica)) then
    let nodes :=
      upd_node (host replica) (fun n =>
        node_load.set_tablet_count (wrap64 (node_load.tablet_count n + 1)) n)
        nodes in
    if decide (node_load.shard_count (nodes !!! host replica) ≤ shard replica)%nat
    then Throw (nonexistent_shard gtid replica)
    else Next nodes
  else Next nodes.

Definition count_tablet (table : N) (t : nat * tablet_info)
    (nodes : gmap N node_load.t) : flow (gmap N node_load.t) :=
  for_each (count_replica {| table := table; tablet := t.1 |}) (replicas t.2) nodes.

Definition count_table (tbl : N * tablet_map) (nodes : gmap N node_load.t)
  : flow (gmap N node_load.t) :=
  for_each (count_tablet tbl.1) (for_each_tablet tbl.2) nodes.

Definition compute_node_loads : flow (gmap N node_load.t) :=
  nodes ← for_each select_node (map_to_list (get_topology tm)) ∅;
  for_each count_table (map_to_list (all_tables tm)) nodes.

(** *** Compute load imbalance *)

Definition compare_node (acc : gmap N node_load.t * imbalance) (h : N)
  : gmap N node_load.t * imbalance :=
  let nodes := upd_node h node_load.update acc.1 in
  let load := nodes !!! h in
  let i := acc.2 in
  let i :=
    if bool_decide (min_load_node i = None)
       || load_lt (node_load.avg_load load) (min_load i)
    then {| max_load := max_load i; min_load := node_load.avg_load load;
            min_load_node := Some h |}
    else i in
  let i :=
    if load_lt (max_load i) (node_load.avg_load load)
    then {| max_load := node_load.avg_load load; min_load := min_load i;
            min_load_node := min_load_node i |}
    else i in
  (nodes, i).

Definition compute_imbalance (nodes : gmap N node_load.t)
  : gmap N node_load.t * imbalance :=
  foldl compare_node
        (nodes, {| max_load := 0%Q; min_load := 0%Q; min_load_node := None |})
        (node_order nodes).

(** *** Compute per-shard load and candidate tablets *)

(** [shards_by_load.push_back(s)] *)
Definition push_back_shard (s : nat) (n : node_load.t) : node_load.t :=
  node_load.set_shards_by_load (node_load.shards_by_load n ++ [s]) n.

Definition collect_replica (gtid : global_tablet_id) (replica : tablet_replica)
    (nodes : gmap N node_load.t) : flow (gmap N node_load.t) :=
  if decide (is_Some (nodes !! host replica)) then
    match node_load.shards (nodes !!! host replica) !! shard replica with
    | None => Throw undefined_behaviour
    | Some shard_load_info =>
        let nodes :=
          if decide (shard_load.tablet_count shard_load_info = 0)
          then upd_node (host replica) (push_back_shard (shard replica)) nodes
          else nodes in
        let nodes :=
          upd_shard (host replica) (shard replica) (add_shard_tablets 1) nodes in
        Next (upd_shard (host replica) (shard replica) (emplace_candidate gtid) nodes)
    end
  else Next nodes.

Definition collect_tablet (table : N) (t : nat * tablet_info)
    (nodes : gmap N node_load.t) : flow (gmap N node_load.t) :=
  for_each (collect_replica {| table := table; tablet := t.1 |}) (replicas t.2) nodes.

Definition collect_table (tbl : N * tablet_map) (nodes : gmap N node_load.t)
  : flow (gmap N node_load.t) :=
  if decide (transitions tbl.2 ≠ [])
  then Return []
  else for_each (collect_tablet tbl.1) (for_each_tablet tbl.2) nodes.

Definition collect_candidates (nodes : gmap N node_load.t)
  : flow (gmap N node_load.t) :=
  for_each collect_table (map_to_list (all_tables tm)) nodes.

(** *** Prepare candidate nodes and shards for heap-based balancing *)

Definition nodes_cmp (nodes : gmap N node_load.t) (a b : N) : bool :=
  load_lt (node_load.avg_load (nodes !!! a)) (node_load.avg_load (nodes !!! b)).

Definition make_shard_heap (n : node_load.t) : node_load.t :=
  node_load.set_shards_by_load
    (make_heap _ (node_load.shards_by_load_cmp n) (node_load.shards_by_load n)) n.

Definition pop_shard_heap (n : node_load.t) : node_load.t :=
  node_load.set_shards_by_load
    (pop_heap _ (node_load.shards_by_load_cmp n) (node_load.shards_by_load n)) n.

Definition push_shard_heap (n : node_load.t) : node_load.t :=
  node_load.set_shards_by_load
    (push_heap _ (node_load.shards_by_load_cmp n) (node_load.shards_by_load n)) n.

Definition heapify_node (acc : gmap N node_load.t * list N) (h : N)
  : gmap N node_load.t * list N :=
  (upd_node h make_shard_heap acc.1, acc.2 ++ [h]).

Definition prepare_heaps (nodes : gmap N node_load.t)
  : gmap N node_load.t * list N :=
  let r := foldl heapify_node (nodes, []) (map_to_list nodes).*1 in
  (r.1, make_heap _ (nodes_cmp r.1) r.2).

(** *** The selection loop *)

Section selection.

(** [target] is [*min_load_node], [target_node] is [topo.find_node(target)]. *)
Variable target : N.
Variable target_node : node.

Definition batch_size : nat := get_shard_count target_node.

(** The scan of the replica list of the candidate tablet: whether it has
    a replica on the target (the scan stops there), and the number of
    replicas per rack of this DC, built when [same_rack] is false. *)
Fixpoint scan_replicas (same_rack : bool) (rs : list tablet_replica)
    (rack_load : gmap string Z) : flow (bool * gmap string Z) :=
  match rs with
  | [] => Next (false, rack_load)
  | r :: rs' =>
      if decide (host r = target) then Next (true, rack_load)
      else if same_rack then scan_replicas same_rack rs' rack_load
      else
        n ← get_node (get_topology tm) (host r);
        scan_replicas same_rack rs'
          (if decide (dc (dc_rack n) = plan_dc)
           then <[rack (dc_rack n) := default 0 (rack_load !! rack (dc_rack n)) + 1]> rack_load
           else rack_load)
  end.

(** Make sure we don't increase level of duplication of racks in the
    replica list: [true] when the candidate has to be skipped. *)
Definition rack_load_exceeded (rack_load : gmap string Z) : flow bool :=
  match max_element (fun a b : string * Z => bool_decide (a.2 < b.2))
                    (map_to_list rack_load) with
  | None => Throw undefined_behaviour
  | Some m =>
      let max_rack_load := m.2 in
      let new_rack_load :=
        default 0 (rack_load !! rack (dc_rack target_node)) + 1 in
      Next (bool_decide (max_rack_load < new_rack_load))
  end.

(** The deferred actions [push_back_shard_candidate] and
    [push_back_node_candidate]. *)
Definition push_back_shard_candidate (src_host : N)
    (ns : gmap N node_load.t) : gmap N node_load.t :=
  upd_node src_host push_shard_heap ns.

Definition push_back_node_candidate (ns : gmap N node_load.t)
    (nbl : list N) : list N :=
  push_heap _ (nodes_cmp ns) nbl.

(** The end of the body once a migration of [source_tablet] from
    [(src_host, src_shard)] is decided: lines 387 to 405, then the two
    deferred actions that were not cancelled. *)
Definition emit_migration (st : loop_state) (ns : gmap N node_load.t)
    (nbl : list N) (src_host : N) (src_shard : nat)
    (source_tablet : global_tablet_id) : loop_state :=
  let next := load_sketch.next_shard (target_load st) in
  let migration :=
    {| mig_tablet := source_tablet;
       src := {| host := src_host; shard := src_shard |};
       dst := {| host := target; shard := next.1 |} |} in
  let ns := upd_node target (node_load.add_tablets 1) ns in
  let ns := upd_shard src_host src_shard (add_shard_tablets (-1)) ns in
  let shard_cancel :=
    bool_decide (shard_load.tablet_count
                   (node_load.shards (ns !!! src_host) !!! src_shard) = 0) in
  let ns :=
    if shard_cancel then upd_node src_host node_load.pop_back_shard ns else ns in
  let ns := upd_node src_host (node_load.add_tablets (-1)) ns in
  let node_cancel := bool_decide (node_load.tablet_count (ns !!! src_host) = 0) in
  let nbl := if node_cancel then removelast nbl else nbl in
  let ns := if shard_cancel then ns else push_back_shard_candidate src_host ns in
  let nbl := if node_cancel then nbl else push_back_node_candidate ns nbl in
  {| nodes := ns; nodes_by_load := nbl; plan := plan st ++ [migration];
     max_off_candidate_load := max_off_candidate_load st;
     target_load := next.2 |}.

(** A candidate that is skipped: both deferred actions run. *)
Definition skip_candidate (st : loop_state) (ns : gmap N node_load.t)
    (nbl : list N) (src_host : N) : loop_state :=
  let ns := push_back_shard_candidate src_host ns in
  {| nodes := ns; nodes_by_load := push_back_node_candidate ns nbl;
     plan := plan st;
     max_off_candidate_load := max_off_candidate_load st;
     target_load := target_load st |}.

(** Check replication strategy constraints for [source_tablet], taken
    from [(src_host, src_shard)], and emit the migration or skip. *)
Definition check_and_migrate (st : loop_state) (ns : gmap N node_load.t)
    (nbl : list N) (src_host : N) (src_shard : nat)
    (source_tablet : global_tablet_id) : flow iteration :=
  src_node ← get_node (get_topology tm) src_host;
  let same_rack :=
    bool_decide (rack (dc_rack target_node) = rack (dc_rack src_node)) in
  tmap ← get_tablet_map (all_tables tm) (table source_tablet);
  ti ← get_tablet_info tmap (tablet source_tablet);
  scan ← scan_replicas same_rack (replicas ti) ∅;
  if scan.1 : bool then Next (Continue (skip_candidate st ns nbl src_host))
  else
    exceeded ← (if same_rack then Next false else rack_load_exceeded scan.2);
    if exceeded : bool then Next (Continue (skip_candidate st ns nbl src_host))
    else Next (Continue (emit_migration st ns nbl src_host src_shard source_tablet)).

(** Pick the most-loaded shard of [src_host] and one of its candidates. *)
Definition pick_candidate (st : loop_state) (nbl : list N) (src_host : N)
  : flow iteration :=
  let ns := upd_node src_host pop_shard_heap (nodes st) in
  match last (node_load.shards_by_load (ns !!! src_host)) with
  | None => Throw undefined_behaviour
  | Some src_shard =>
      match node_load.shards (ns !!! src_host) !! src_shard with
      | None => Throw undefined_behaviour
      | Some src_shard_info =>
          if decide (shard_load.candidates src_shard_info = []) then
            let ns := upd_node src_host node_load.pop_back_shard ns in
            Next (Continue
              {| nodes := ns;
                 nodes_by_load := push_back_node_candidate ns nbl;
                 plan := plan st;
                 max_off_candidate_load := max_off_candidate_load st;
                 target_load := target_load st |})
          else
            let source_tablet := set_begin (shard_load.candidates src_shard_info) in
            let ns :=
              upd_shard src_host src_shard (erase_candidate source_tablet) ns in
            check_and_migrate st ns nbl src_host src_shard source_tablet
      end
  end.

Definition with_nodes_by_load (nbl : list N) (st : loop_state) : loop_state :=
  {| nodes := nodes st; nodes_by_load := nbl; plan := plan st;
     max_off_candidate_load := max_off_candidate_load st;
     target_load := target_load st |}.

(** The body of the [while], lines 287 to 405. *)
Definition loop_body (st : loop_state) : flow iteration :=
  let nbl := pop_heap _ (nodes_cmp (nodes st)) (nodes_by_load st) in
  match last nbl with
  | None => Throw undefined_behaviour
  | Some src_host =>
      let src_node_info := nodes st !!! src_host in
      let target_info := nodes st !!! target in
      if load_eq (load_max (max_off_candidate_load st)
                           (node_load.avg_load src_node_info))
                 (node_load.avg_load target_info)
      then Next (Break (with_nodes_by_load nbl st))
      else if load_le (node_load.avg_load src_node_info)
                      (node_load.avg_load target_info)
      then Next (Break (with_nodes_by_load nbl st))
      else if load_lt
                (node_load.get_avg_load src_node_info
                   (wrap64 (node_load.tablet_count src_node_info - 1)))
                (node_load.get_avg_load target_info
                   (wrap64 (node_load.tablet_count target_info + 1)))
      then Next (Break (with_nodes_by_load nbl st))
      else if decide (node_load.shards_by_load src_node_info = [])
      then Next (Continue
             {| nodes := nodes st; nodes_by_load := removelast nbl;
                plan := plan st;
                max_off_candidate_load :=
                  load_max (max_off_candidate_load st)
                           (node_load.avg_load src_node_info);
                target_load := target_load st |})
      else pick_candidate st nbl src_host
  end.

(** [while (plan.size() < batch_size && !nodes_by_load.empty())] *)
Definition loop_condition (st : loop_state) : Prop :=
  (length (plan st) < batch_size)%nat ∧ nodes_by_load st ≠ [].

#[global] Instance loop_condition_dec st : Decision (loop_condition st).
Proof. unfold loop_condition. apply _. Defined.

Fixpoint selection_loop (fuel : nat) (st : loop_state) : flow loop_state :=
  if decide (loop_condition st) then
    match fuel with
    | O => OutOfFuel
    | S fuel' =>
        it ← loop_body st;
        match it with
        | Break st' => Next st'
        | Continue st' => selection_loop fuel' st'
        end
    end
  else Next st.

End selection.

(** The candidates, candidate shards and candidate nodes that are left: no
    run of the selection loop makes more passes than this. *)
Definition node_weight (n : node_load.t) : nat :=
  length (node_load.shards_by_load n)
  + sum_list ((fun s => length (shard_load.candidates s)) <$> node_load.shards n).

Definition loop_bound (st : loop_state) : nat :=
  length (nodes_by_load st)
  + sum_list ((fun hn : N * node_load.t => node_weight hn.2) <$> map_to_list (nodes st)).

(** Everything up to the selection loop: the target, its node and the
    state in which the loop is entered. *)
Definition prepare : flow (N * node * loop_state) :=
  nodes ← compute_node_loads;
  let ci := compute_imbalance nodes in
  if load_eq (max_load ci.2) (min_load ci.2) then Return []
  else
    match min_load_node ci.2 with
    | None => Throw undefined_behaviour
    | Some target =>
        match get_topology tm !! target with
        | None => Throw undefined_behaviour
        | Some target_node =>
            nodes ← collect_candidates ci.1;
            let heaps := prepare_heaps nodes in
            Next (target, target_node,
                  {| nodes := heaps.1; nodes_by_load := heaps.2; plan := [];
                     max_off_candidate_load := 0%Q;
                     target_load := load_sketch.populate tm target |})
        end
    end.

(** [load_balancer::make_plan(sstring dc)] *)
Definition make_plan : flow Empty_set :=
  p ← prepare;
  st ← selection_loop p.1.1 p.1.2 (S (loop_bound p.2)) p.2;
  Return (plan st).

End planner.

(** ** A reference instance of the parameters

    A vector sorted in descending order is a heap.  [make_heap] and
    [push_heap] sort; [pop_heap] sorts and moves the first element to the
    back.  [begin()] is the head of the list. *)
Module reference.

Fixpoint insert_desc {A : Type} (comp : A → A → bool) (x : A) (l : list A)
  : list A :=
  match l with
  | [] => [x]
  | y :: l' => if comp x y then y :: insert_desc comp x l' else x :: l
  end.

Definition sort_desc {A : Type} (comp : A → A → bool) (l : list A) : list A :=
  foldr (insert_desc comp) [] l.

Definition make_heap (A : Type) (comp : A → A → bool) (l : list A) : list A :=
  sort_desc comp l.

Definition push_heap (A : Type) (comp : A → A → bool) (l : list A) : list A :=
  sort_desc comp l.

Definition pop_heap (A : Type) (comp : A → A → bool) (l : list A) : list A :=
  match sort_desc comp l with
  | [] => []
  | x :: l' => l' ++ [x]
  end.

Definition set_begin (c : list global_tablet_id) : global_tablet_id :=
  match c with
  | [] => {| table := 0%N; tablet := 0%nat |}
  | t :: _ => t
  end.

(** The keys of the map in the order of [map_to_list]. *)
Definition node_order (ns : gmap N node_load.t) : list N := (map_to_list ns).*1.

(** The same keys in the opposite order. *)
Definition reverse_node_order (ns : gmap N node_load.t) : list N :=
  reverse (node_order ns).

Definition make_plan (tm : token_metadata) (d : string) : flow Empty_set :=
  make_plan make_heap pop_heap push_heap set_begin tm d node_order.

End reference.


(** ** Vocabulary of the properties *)

Section vocabulary.

Variables pop_heap push_heap : ∀ A : Type, (A → A → bool) → list A → list A.
Variable set_begin : list global_tablet_id → global_tablet_id.
Variable tm : token_metadata.
Variable plan_dc : string.
Variable target : N.
Variable target_node : node.

(** The pass through the body of the selection loop that starts in [st]
    appends the migration [m] to the plan. *)
Definition emits (st : loop_state) (m : tablet_migration_info) : Prop :=
  ∃ st', loop_body pop_heap push_heap set_begin tm plan_dc target target_node st
           = Next (Continue st')
         ∧ plan st' = plan st ++ [m].

(** In state [st] the loop takes [src_host] from the heap of nodes, passes
    the three termination checks, takes [src_shard] from the heap of shards
    of that node and finds the non-empty candidate set of [info] there. *)
Definition source_selected (st : loop_state) (src_host : N) (src_shard : nat)
    (info : shard_load.t) : Prop :=
  last (pop_heap _ (nodes_cmp (nodes st)) (nodes_by_load st)) = Some src_host
  ∧ load_le (node_load.avg_load (nodes st !!! src_host))
            (node_load.avg_load (nodes st !!! target)) = false
  ∧ load_lt
      (node_load.get_avg_load (nodes st !!! src_host)
         (wrap64 (node_load.tablet_count (nodes st !!! src_host) - 1)))
      (node_load.get_avg_load (nodes st !!! target)
         (wrap64 (node_load.tablet_count (nodes st !!! target) + 1))) = false
  ∧ last (node_load.shards_by_load (pop_shard_heap pop_heap (nodes st !!! src_host)))
    = Some src_shard
  ∧ node_load.shards (nodes st !!! src_host) !! src_shard = Some info
  ∧ shard_load.candidates info ≠ [].

(** Tablet [t], taken from [src_host], passes the replication strategy
    constraints: no replica on the target, and the rack check. *)
Definition constraints_pass (src_host : N) (t : global_tablet_id) : Prop :=
  ∃ src_node tmap ti rl,
    get_topology tm !! src_host = Some src_node
    ∧ all_tables tm !! table t = Some tmap
    ∧ tablets tmap !! tablet t = Some ti
    ∧ scan_replicas tm plan_dc target
        (bool_decide (rack (dc_rack target_node) = rack (dc_rack src_node)))
        (replicas ti) ∅ = Next (false, rl)
    ∧ (rack (dc_rack target_node) = rack (dc_rack src_node)
       ∨ rack_load_exceeded target_node rl = Next false).

(** The vectors and maps the loop works on when it has erased [t] from
    the candidates of [(src_host, src_shard)]. *)
Definition after_erase (st : loop_state) (src_host : N) (src_shard : nat)
    (t : global_tablet_id) : gmap N node_load.t :=
  upd_shard src_host src_shard (erase_candidate t)
    (upd_node src_host (pop_shard_heap pop_heap) (nodes st)).

(** What a pass does to the [node_load] of the source node: when its
    most-loaded shard has no candidate left, when the candidate [t] of
    shard [s] is skipped, and when [t] is moved away from shard [s]. *)
Definition shard_dropped (n : node_load.t) : node_load.t :=
  node_load.pop_back_shard (pop_shard_heap pop_heap n).

Definition candidate_skipped (s : nat) (t : global_tablet_id) (n : node_load.t)
  : node_load.t :=
  push_shard_heap push_heap
    (node_load.upd_shard s (erase_candidate t) (pop_shard_heap pop_heap n)).

Definition moved_away (s : nat) (t : global_tablet_id) (n : node_load.t)
  : node_load.t :=
  let n1 :=
    node_load.upd_shard s (add_shard_tablets (-1))
      (node_load.upd_shard s (erase_candidate t) (pop_shard_heap pop_heap n)) in
  let cancel :=
    bool_decide (shard_load.tablet_count (node_load.shards n1 !!! s) = 0) in
  let n2 := if cancel then node_load.pop_back_shard n1 else n1 in
  let n3 := node_load.add_tablets (-1) n2 in
  if cancel then n3 else push_shard_heap push_heap n3.

(** The five ways a pass through the body of the loop ends without an
    exception, with what each leaves in the state. *)
Inductive pass (st : loop_state) : iteration → Prop :=
| pass_break :
    pass st (Break (with_nodes_by_load
                      (pop_heap _ (nodes_cmp (nodes st)) (nodes_by_load st)) st))
| pass_drop_node src_host st' :
    last (pop_heap _ (nodes_cmp (nodes st)) (nodes_by_load st)) = Some src_host →
    nodes st' = nodes st →
    nodes_by_load st'
    = removelast (pop_heap _ (nodes_cmp (nodes st)) (nodes_by_load st)) →
    plan st' = plan st →
    pass st (Continue st')
| pass_drop_shard src_host src_shard info st' :
    last (pop_heap _ (nodes_cmp (nodes st)) (nodes_by_load st)) = Some src_host →
    node_load.shards_by_load (nodes st !!! src_host) ≠ [] →
    last (node_load.shards_by_load (pop_shard_heap pop_heap (nodes st !!! src_host)))
    = Some src_shard →
    node_load.shards (nodes st !!! src_host) !! src_shard = Some info →
    shard_load.candidates info = [] →
    nodes st' = upd_node src_host shard_dropped (nodes st) →
    nodes_by_load st' ≡ₚ nodes_by_load st →
    plan st' = plan st →
    pass st (Continue st')
| pass_skip src_host src_shard info st' :
    source_selected st src_host src_shard info →
    nodes st'
    = upd_node src_host
        (candidate_skipped src_shard (set_begin (shard_load.candidates info)))
        (nodes st) →
    nodes_by_load st' ≡ₚ nodes_by_load st →
    plan st' = plan st →
    pass st (Continue st')
| pass_emit src_host src_shard info st' :
    source_selected st src_host src_shard info →
    constraints_pass src_host (set_begin (shard_load.candidates info)) →
    src_host ≠ target →
    nodes st'
    = upd_node src_host
        (moved_away src_shard (set_begin (shard_load.candidates info)))
        (upd_node target (node_load.add_tablets 1) (nodes st)) →
    nodes_by_load st' ⊆+ nodes_by_load st →
    plan st'
    = plan st
      ++ [{| mig_tablet := set_begin (shard_load.candidates info);
             src := {| host := src_host; shard := src_shard |};
             dst := {| host := target;
                       shard := (load_sketch.next_shard (target_load st)).1 |} |}] →
    pass st (Continue st').

(** The states of a run of the selection loop entered in [st0]: [st0] and
    the state after every pass through the body. *)
Inductive loop_reaches (st0 : loop_state) : loop_state → Prop :=
| reaches_entry : loop_reaches st0 st0
| reaches_pass st it :
    loop_reaches st0 st →
    loop_condition target_node st →
    loop_body pop_heap push_heap set_begin tm plan_dc target target_node st = Next it →
    loop_reaches st0 (state_of it).

End vocabulary.

(** The replicas of tablet [t] in the snapshot. *)
Definition replicas_of (tm : token_metadata) (t : global_tablet_id)
  : list tablet_replica :=
  match all_tables tm !! table t with
  | Some tmap => from_option replicas [] (tablets tmap !! tablet t)
  | None => []
  end.

(** The replica [r] is on a node of datacenter [d] and rack [rk]. *)
Definition in_rack (tm : token_metadata) (d rk : string) (r : tablet_replica) : bool :=
  match get_topology tm !! host r with
  | Some n => bool_decide (dc (dc_rack n) = d) && bool_decide (rack (dc_rack n) = rk)
  | None => false
  end.

(** The number of replicas among [rs] that are in datacenter [d], rack [rk]. *)
Definition rack_count_of (tm : token_metadata) (d rk : string)
    (rs : list tablet_replica) : Z :=
  Z.of_nat (length (filter (fun r => Is_true (in_rack tm d rk r)) rs)).

(** The histogram of the rack check: the replicas of tablet [t] in the snapshot,
    restricted to datacenter [d], counted by rack. *)
Definition rack_count (tm : token_metadata) (d : string) (t : global_tablet_id)
    (rk : string) : Z :=
  rack_count_of tm d rk (replicas_of tm t).

(** The sum over the shards of a node of [shards[s].tablet_count], added up
    in [uint64_t] as the program would. *)
Definition shards_total (n : node_load.t) : Z :=
  foldr (fun s acc => wrap64 (shard_load.tablet_count s + acc)) 0 (node_load.shards n).

(** The same sum in unbounded integers. *)
Definition shards_sum (l : list shard_load.t) : Z :=
  foldr (fun s acc => shard_load.tablet_count s + acc) 0 l.

(** The [(tablet, src)] pairs of a plan. *)
Definition moves (p : list tablet_migration_info)
  : list (global_tablet_id * tablet_replica) :=
  (fun m => (mig_tablet m, src m)) <$> p.

(** The candidate set of shard [s] of host [h]. *)
Definition candidates_at (ns : gmap N node_load.t) (h : N) (s : nat)
  : list global_tablet_id :=
  shard_load.candidates (node_load.shards (ns !!! h) !!! s).

(** Every replica of the snapshot with the tablet it belongs to, in the
    order in which the two scans of the tablet maps meet them. *)
Definition all_replicas (tm : token_metadata)
  : list (global_tablet_id * tablet_replica) :=
  tbl ← map_to_list (all_tables tm);
  t ← for_each_tablet tbl.2;
  (fun r => ({| table := tbl.1; tablet := t.1 |}, r)) <$> replicas t.2.

(** The number of replicas on host [h] in a list of replicas. *)
Definition count_host (h : N) (l : list (global_tablet_id * tablet_replica)) : Z :=
  Z.of_nat (length (filter (fun gr => host gr.2 = h) l)).

(** The two ways a topology is invalid for the planner of datacenter [d]. *)
Definition zero_shard_node (tm : token_metadata) (d : string) : Prop :=
  ∃ h nd, get_topology tm !! h = Some nd
          ∧ get_state nd = normal ∧ dc (dc_rack nd) = d
          ∧ get_shard_count nd = 0%nat.

Definition nonexistent_shard_replica (tm : token_metadata) (d : string) : Prop :=
  ∃ t r nd, r ∈ replicas_of tm t
            ∧ get_topology tm !! host r = Some nd
            ∧ get_state nd = normal ∧ dc (dc_rack nd) = d
            ∧ (get_shard_count nd ≤ shard r)%nat.

(** Every replica is on a host that the topology knows. *)
Definition replica_hosts_known (tm : token_metadata) : Prop :=
  ∀ t r, r ∈ replicas_of tm t → is_Some (get_topology tm !! host r).

(** Some tablet map has pending transitions. *)
Definition pending_transitions (tm : token_metadata) : Prop :=
  ∃ t tmap, all_tables tm !! t = Some tmap ∧ transitions tmap ≠ [].

(** The average load of node [h] of the snapshot: the replicas on the node,
    counted in [uint64_t], by the shards of the node. *)
Definition snapshot_load (tm : token_metadata) (h : N) (nd : node) : Q :=
  (inject_Z (wrap64 (count_host h (all_replicas tm)))
   / inject_Z (Z.of_nat (get_shard_count nd)))%Q.

(** ** The plan of all datacenters *)

(** [co_await] of a coroutine that returns a plan, in its caller: the plan
    that the coroutine returns is the value of the expression, and its
    exception goes on in the caller. *)
Definition co_await (m : flow Empty_set) : flow (list tablet_migration_info) :=
  match m with
  | Next x => match x with end
  | Return p => Next p
  | Throw e => Throw e
  | OutOfFuel => OutOfFuel
  end.

Section all_datacenters.

Variables make_heap pop_heap push_heap :
  ∀ A : Type, (A → A → bool) → list A → list A.
Variable set_begin : list global_tablet_id → global_tablet_id.

(** Modelled from the spec: [topology::get_datacenters()]
    (locator/topology.hh, not among the sources) gives the set of the
    datacenters to plan over.  The names it holds and the order in which
    the range-based [for] meets them are a parameter. *)
Variable get_datacenters : gmap N node → list sstring.

Variable tm : token_metadata.

(** The order in which the planner of a datacenter meets its nodes. *)
Variable node_order : gmap N node_load.t → list N.

(** The body of the loop over the datacenters:
    [std::move(dc_plan.begin(), dc_plan.end(), std::back_inserter(plan))]. *)
Definition plan_datacenter (dc : sstring) (plan : list tablet_migration_info)
  : flow (list tablet_migration_info) :=
  dc_plan ← co_await (make_plan make_heap pop_heap push_heap set_begin tm dc node_order);
  Next (plan ++ dc_plan).

(** [load_balancer::make_plan()], the overload without an argument. *)
Definition make_plan_all : flow Empty_set :=
  plan ← for_each plan_datacenter (get_datacenters (get_topology tm)) [];
  Return plan.

(** [balance_tablets(tm)] *)
Definition balance_tablets : flow Empty_set :=
  plan ← co_await make_plan_all;
  Return plan.

End all_datacenters.

(** ** Vocabulary of the further properties *)

(** [h] is a node of the topology, in state normal and in datacenter [d]:
    the nodes that the planner of [d] balances. *)
Definition normal_node_in (tm : token_metadata) (d : string) (h : N) : Prop :=
  ∃ nd, get_topology tm !! h = Some nd
        ∧ get_state nd = normal ∧ dc (dc_rack nd) = d.

(** What [std::make_heap], [std::pop_heap] and [std::push_heap] require of
    their comparison: a strict weak ordering. *)
Definition strict_weak_ordering {A : Type} (comp : A → A → bool) : Prop :=
  (∀ a, comp a a = false)
  ∧ (∀ a b c, comp a b = true → comp b c = true → comp a c = true)
  ∧ (∀ a b c, comp a b = false → comp b a = false →
              comp b c = false → comp c b = false →
              comp a c = false ∧ comp c a = false).

(** The [avg_load] of a [node_load] is the one of its [tablet_count]. *)
Definition load_up_to_date (n : node_load.t) : Prop :=
  node_load.avg_load n = node_load.get_avg_load n (node_load.tablet_count n).

(** The number of replicas on shard [s] of host [h] in a list of replicas. *)
Definition count_shard (h : N) (s : nat)
    (l : list (global_tablet_id * tablet_replica)) : Z :=
  Z.of_nat (length (filter (fun gr => host gr.2 = h ∧ shard gr.2 = s) l)).

(** The exceptions of an invalid topology, each with what it reports. *)
Definition reports_invalid_topology (tm : token_metadata) (d : string) (e : error)
  : Prop :=
  match e with
  | shard_count_not_found h =>
      ∃ nd, get_topology tm !! h = Some nd
            ∧ get_state nd = normal ∧ dc (dc_rack nd) = d
            ∧ get_shard_count nd = 0%nat
  | nonexistent_shard t r =>
      ∃ nd, r ∈ replicas_of tm t
            ∧ get_topology tm !! host r = Some nd
            ∧ get_state nd = normal ∧ dc (dc_rack nd) = d
            ∧ (get_shard_count nd ≤ shard r)%nat
  | node_not_found h =>
      get_topology tm !! h = None ∧ ∃ t r, r ∈ replicas_of tm t ∧ host r = h
  | no_such_table _ | undefined_behaviour => False
  end.
(** ** Snapshots for the examples *)

Module scenarios.

Definition mk_node (d r : string) (c : nat) : node :=
  {| get_state := normal; dc_rack := {| dc := d; rack := r |};
     get_shard_count := c |}.

Definition rep (h : N) (s : nat) : tablet_replica := {| host := h; shard := s |}.

Definition tab (l : list tablet_replica) : tablet_info := {| replicas := l |}.

Definition tid (t : N) (i : nat) : global_tablet_id := {| table := t; tablet := i |}.

(** Two nodes of two shards; four tablets of one replica, all on node 1. *)
Definition simple_move : token_metadata :=
  {| get_topology :=
       list_to_map [(1%N, mk_node "dc1" "r1" 2); (2%N, mk_node "dc1" "r1" 2)];
     all_tables :=
       list_to_map
         [(7%N, {| tablets := [tab [rep 1 0]; tab [rep 1 0];
                               tab [rep 1 1]; tab [rep 1 1]];
                   transitions := [] |})] |}.

(** Two nodes of one shard; two tablets with a replica on each node. *)
Definition balanced : token_metadata :=
  {| get_topology :=
       list_to_map [(1%N, mk_node "dc1" "r1" 1); (2%N, mk_node "dc1" "r1" 1)];
     all_tables :=
       list_to_map
         [(7%N, {| tablets := [tab [rep 1 0; rep 2 0]; tab [rep 1 0; rep 2 0]];
                   transitions := [] |})] |}.

(** The snapshot of [simple_move] with a transition pending on tablet 0. *)
Definition pending : token_metadata :=
  {| get_topology := get_topology simple_move;
     all_tables :=
       list_to_map
         [(7%N, {| tablets := [tab [rep 1 0]; tab [rep 1 0];
                               tab [rep 1 1]; tab [rep 1 1]];
                   transitions := [0%nat] |})] |}.

(** Node 2 has no shard, and a transition is pending. *)
Definition zero_shards_pending : token_metadata :=
  {| get_topology :=
       list_to_map [(1%N, mk_node "dc1" "r1" 2); (2%N, mk_node "dc1" "r1" 0)];
     all_tables := all_tables pending |}.


(** Nodes 1 and 2 in racks r1 and r2; both tablets have a second replica
    on host 9, which the topology does not know. *)
Definition unknown_host : token_metadata :=
  {| get_topology :=
       list_to_map [(1%N, mk_node "dc1" "r1" 1); (2%N, mk_node "dc1" "r2" 1)];
     all_tables :=
       list_to_map
         [(7%N, {| tablets := [tab [rep 1 0; rep 9 0]; tab [rep 1 0; rep 9 0]];
                   transitions := [] |})] |}.

(** Racks r1, r2 and r3, with nodes 3 and 4 in r3.  Tablet 0 has replicas
    in r1 and r2, tablet 1 in all three racks; node 4 is empty. *)
Definition rack_block : token_metadata :=
  {| get_topology :=
       list_to_map [(1%N, mk_node "dc1" "r1" 1); (2%N, mk_node "dc1" "r2" 1);
                    (3%N, mk_node "dc1" "r3" 1); (4%N, mk_node "dc1" "r3" 2)];
     all_tables :=
       list_to_map
         [(7%N, {| tablets := [tab [rep 1 0; rep 2 0];
                               tab [rep 1 0; rep 2 0; rep 3 0]];
                   transitions := [] |})] |}.

(** Two nodes of one shard with one replica each of one tablet, the one
    on node 2 on shard 3, which node 2 does not have. *)
Definition balanced_invalid : token_metadata :=
  {| get_topology :=
       list_to_map [(1%N, mk_node "dc1" "r1" 1); (2%N, mk_node "dc1" "r1" 1)];
     all_tables :=
       list_to_map
         [(7%N, {| tablets := [tab [rep 1 0; rep 2 3]]; transitions := [] |})] |}.

(** The snapshot of [simple_move] with node 2 without shards. *)
Definition zero_shards : token_metadata :=
  {| get_topology :=
       list_to_map [(1%N, mk_node "dc1" "r1" 2); (2%N, mk_node "dc1" "r1" 0)];
     all_tables := all_tables simple_move |}.

(** Node 1, of one shard, holds six tablets; node 2, of one shard, and
    node 3, of four, hold none and tie for the least load. *)
Definition tied_targets : token_metadata :=
  {| get_topology :=
       list_to_map [(1%N, mk_node "dc1" "r1" 1); (2%N, mk_node "dc1" "r1" 1);
                    (3%N, mk_node "dc1" "r1" 4)];
     all_tables :=
       list_to_map
         [(7%N, {| tablets := [tab [rep 1 0]; tab [rep 1 0]; tab [rep 1 0];
                               tab [rep 1 0]; tab [rep 1 0]; tab [rep 1 0]];
                   transitions := [] |})] |}.

Definition node1 : node := mk_node "dc1" "r1" 1.
Definition node2 : node := mk_node "dc1" "r1" 2.
Definition node4 : node := mk_node "dc1" "r3" 2.

Definition move (t : global_tablet_id) (s d : tablet_replica)
  : tablet_migration_info :=
  {| mig_tablet := t; src := s; dst := d |}.

Definition no_state : loop_state :=
  {| nodes := ∅; nodes_by_load := []; plan := [];
     max_off_candidate_load := 0%Q; target_load := [] |}.

(** The nodes after the first scan of the reference planner, and after
    its second scan. *)
Definition loads (tm : token_metadata) (d : string) : gmap N node_load.t :=
  match compute_node_loads tm d with
  | Next ns => ns
  | _ => ∅
  end.

Definition collected (tm : token_metadata) (d : string) : gmap N node_load.t :=
  match collect_candidates tm (compute_imbalance reference.node_order (loads tm d)).1 with
  | Next ns => ns
  | _ => ∅
  end.

(** The state in which the reference planner enters the selection loop. *)
Definition entry (tm : token_metadata) (d : string) : loop_state :=
  match prepare reference.make_heap tm d reference.node_order with
  | Next x => x.2
  | _ => no_state
  end.

(** The state after one pass of the reference planner through the body. *)
Definition pass_from (tm : token_metadata) (d : string) (target : N)
    (target_node : node) (st : loop_state) : loop_state :=
  match loop_body reference.pop_heap reference.push_heap reference.set_begin
          tm d target target_node st with
  | Next it => state_of it
  | _ => no_state
  end.

End scenarios.

(** ** Snapshots of several datacenters *)

Module rounds.

Import scenarios.

(** An instance of [get_datacenters]: the datacenters of the nodes of the
    topology, each once. *)
Definition get_datacenters (topo : gmap N node) : list string :=
  remove_dups ((fun hn : N * node => dc (dc_rack hn.2)) <$> map_to_list topo).

Definition balance_tablets (tm : token_metadata) : flow Empty_set :=
  balance_tablets reference.make_heap reference.pop_heap reference.push_heap
    reference.set_begin get_datacenters tm reference.node_order.

(** Nodes 1 and 2, of two shards, in dc1, and nodes 3 and 4, of one
    shard, in dc2.  The four tablets of table 7 are on node 1, the two
    tablets of table 8 on node 3. *)
Definition two_datacenters : token_metadata :=
  {| get_topology :=
       list_to_map [(1%N, mk_node "dc1" "r1" 2); (2%N, mk_node "dc1" "r1" 2);
                    (3%N, mk_node "dc2" "r1" 1); (4%N, mk_node "dc2" "r1" 1)];
     all_tables :=
       list_to_map
         [(7%N, {| tablets := [tab [rep 1 0]; tab [rep 1 0];
                               tab [rep 1 1]; tab [rep 1 1]];
                   transitions := [] |});
          (8%N, {| tablets := [tab [rep 3 0]; tab [rep 3 0]];
                   transitions := [] |})] |}.

(** The same with node 4 without shards. *)
Definition no_shards_in_dc2 : token_metadata :=
  {| get_topology :=
       list_to_map [(1%N, mk_node "dc1" "r1" 2); (2%N, mk_node "dc1" "r1" 2);
                    (3%N, mk_node "dc2" "r1" 1); (4%N, mk_node "dc2" "r1" 0)];
     all_tables := all_tables two_datacenters |}.

End rounds.
(** * Properties *)

(** ** The control-flow monad *)

Lemma bind_Next {A B : Type} (m : flow A) (k : A → flow B) (b : B) :
  m ≫= k = Next b → ∃ a, m = Next a ∧ k a = Next b.
Proof. destruct m; cbn; intros; first [discriminate | by eexists]. Qed.

Lemma bind_Return {A B : Type} (m : flow A) (k : A → flow B) p :
  m ≫= k = Return p → m = Return p ∨ ∃ a, m = Next a ∧ k a = Return p.
Proof.
  destruct m; cbn; intros; simplify_eq;
    first [by left | right; by eexists].
Qed.

Lemma bind_Throw {A B : Type} (m : flow A) (k : A → flow B) e :
  m ≫= k = Throw e → m = Throw e ∨ ∃ a, m = Next a ∧ k a = Throw e.
Proof.
  destruct m; cbn; intros; simplify_eq;
    first [by left | right; by eexists].
Qed.

Lemma bind_OutOfFuel {A B : Type} (m : flow A) (k : A → flow B) :
  m ≫= k = OutOfFuel → m = OutOfFuel ∨ ∃ a, m = Next a ∧ k a = OutOfFuel.
Proof.
  destruct m; cbn; intros; simplify_eq;
    first [by left | right; by eexists].
Qed.

(** An invariant of the state of a [for] loop holds when the loop is left
    at its end. *)
Lemma for_each_invariant {A S : Type} (I : S → Prop) (body : A → S → flow S) l :
  (∀ a s s', a ∈ l → I s → body a s = Next s' → I s') →
  ∀ s s', I s → for_each body l s = Next s' → I s'.
Proof.
  induction l as [|a l IH]; cbn; intros Hstep s s' Hs Hrun.
  - by simplify_eq.
  - apply bind_Next in Hrun as (s1 & Hb & Hrun).
    eapply IH; [|by eapply (Hstep a); [left|..]|done].
    intros ????; apply Hstep. by right.
Qed.

(** A loop that is left at its end ran its body on every element. *)
Lemma for_each_all_run {A S : Type} (body : A → S → flow S) l s s' :
  for_each body l s = Next s' →
  ∀ a, a ∈ l → ∃ s1 s2, body a s1 = Next s2.
Proof.
  revert s; induction l as [|b l IH]; cbn; intros s Hrun a Ha.
  - by apply elem_of_nil in Ha.
  - apply bind_Next in Hrun as (s1 & Hb & Hrun).
    apply elem_of_cons in Ha as [->|Ha]; eauto.
Qed.

Lemma for_each_Return {A S : Type} (body : A → S → flow S) l s p :
  for_each body l s = Return p → ∃ a s1, a ∈ l ∧ body a s1 = Return p.
Proof.
  revert s; induction l as [|b l IH]; cbn; intros s Hrun; [done|].
  apply bind_Return in Hrun as [Hb|(s1 & Hb & Hrun)].
  - exists b, s. split; [left|done].
  - destruct (IH _ Hrun) as (a & s2 & ? & ?). exists a, s2. split; [by right|done].
Qed.

Lemma for_each_OutOfFuel {A S : Type} (body : A → S → flow S) l s :
  for_each body l s = OutOfFuel → ∃ a s1, a ∈ l ∧ body a s1 = OutOfFuel.
Proof.
  revert s; induction l as [|b l IH]; cbn; intros s Hrun; [done|].
  apply bind_OutOfFuel in Hrun as [Hb|(s1 & Hb & Hrun)].
  - exists b, s. split; [left|done].
  - destruct (IH _ Hrun) as (a & s2 & ? & ?). exists a, s2. split; [by right|done].
Qed.

Lemma for_each_app {A S : Type} (body : A → S → flow S) l1 l2 s :
  for_each body (l1 ++ l2) s = for_each body l1 s ≫= for_each body l2.
Proof.
  revert s; induction l1 as [|a l1 IH]; intros s; cbn; [done|].
  destruct (body a s); cbn; [apply IH|done..].
Qed.

Lemma for_each_fmap {A B S : Type} (f : A → B) (body : B → S → flow S) l s :
  for_each body (f <$> l) s = for_each (fun a => body (f a)) l s.
Proof.
  revert s; induction l as [|a l IH]; intros s; cbn; [done|].
  destruct (body (f a) s); cbn; [apply IH|done..].
Qed.

(** Two nested loops are one loop over the concatenation. *)
Lemma for_each_bind {A B S : Type} (g : A → list B) (body : B → S → flow S) l s :
  for_each (fun a => for_each body (g a)) l s = for_each body (l ≫= g) s.
Proof.
  revert s; induction l as [|a l IH]; intros s; cbn; [done|].
  rewrite for_each_app. destruct (for_each body (g a) s); cbn; [apply IH|done..].
Qed.

(** An invariant that speaks of the elements met so far. *)
Lemma for_each_prefix_invariant {A S : Type} (I : list A → S → Prop)
    (body : A → S → flow S) l s s' :
  I [] s →
  (∀ pre a acc acc', a ∈ l → I pre acc → body a acc = Next acc' →
                     I (pre ++ [a]) acc') →
  for_each body l s = Next s' → I l s'.
Proof.
  intros H0 Hstep.
  assert (∀ l0 pre s, (∀ x, x ∈ l0 → x ∈ l) → I pre s →
                      for_each body l0 s = Next s' → I (pre ++ l0) s') as Hgen.
  { clear s H0. induction l0 as [|a l0 IH]; intros pre s Hsub Hs Hrun; cbn in Hrun.
    - simplify_eq. by rewrite app_nil_r.
    - apply bind_Next in Hrun as (s1 & Hb & Hrun).
      rewrite (cons_middle a pre l0), app_assoc. eapply IH; [| |done].
      + intros y Hy. apply Hsub. by right.
      + eapply Hstep; [|done|done]. apply Hsub. by left. }
  apply (Hgen l [] s); done.
Qed.

Lemma for_each_ext {A S : Type} (body1 body2 : A → S → flow S) l s :
  (∀ a s, body1 a s = body2 a s) → for_each body1 l s = for_each body2 l s.
Proof.
  intros Hext. revert s; induction l as [|a l IH]; intros s; cbn; [done|].
  rewrite Hext. destruct (body2 a s); cbn; [apply IH|done..].
Qed.

(** A loop whose body cannot throw in a state of the invariant ends, at
    its end or with a [co_return]. *)
Lemma for_each_safe {A S : Type} (I : S → Prop) (body : A → S → flow S) l s :
  I s →
  (∀ a s, a ∈ l → I s →
     (∃ s', body a s = Next s' ∧ I s') ∨ (∃ p, body a s = Return p)) →
  (∃ s', for_each body l s = Next s' ∧ I s') ∨ (∃ p, for_each body l s = Return p).
Proof.
  revert s; induction l as [|a l IH]; intros s Hs Hstep; cbn; [by eauto|].
  destruct (Hstep a s) as [(s' & -> & Hs')|[p ->]]; [by left|done| |by eauto]; cbn.
  apply IH; [done|]. intros b s1 Hb. apply Hstep. by right.
Qed.

Lemma for_each_Next_invariant {A S : Type} (I : S → Prop)
    (body : A → S → flow S) l s :
  I s →
  (∀ a s, a ∈ l → I s → ∃ s', body a s = Next s' ∧ I s') →
  ∃ s', for_each body l s = Next s' ∧ I s'.
Proof.
  revert s; induction l as [|a l IH]; intros s Hs Hstep; cbn; [by eauto|].
  destruct (Hstep a s) as (s' & -> & Hs'); [by left|done|]. cbn.
  apply IH; [done|]. intros b s1 Hb. apply Hstep. by right.
Qed.

Lemma foldl_prefix_invariant {A B : Type} (I : list B → A → Prop)
    (f : A → B → A) a l :
  I [] a →
  (∀ pre x acc, x ∈ l → I pre acc → I (pre ++ [x]) (f acc x)) →
  I l (foldl f a l).
Proof.
  intros H0 Hstep.
  assert (∀ l0 pre acc, (∀ x, x ∈ l0 → x ∈ l) → I pre acc →
                        I (pre ++ l0) (foldl f acc l0)) as Hgen.
  { induction l0 as [|x l0 IH]; intros pre acc Hsub Hacc; simpl.
    - by rewrite app_nil_r.
    - rewrite (cons_middle x pre l0), app_assoc. apply IH.
      + intros y Hy. apply Hsub. by right.
      + apply Hstep; [|done]. apply Hsub. by left. }
  apply (Hgen l [] a); done.
Qed.

(** ** Writing through [nodes[h]] *)

Lemma upd_node_total_eq h f (ns : gmap N node_load.t) :
  upd_node h f ns !!! h = f (ns !!! h).
Proof. unfold upd_node. by rewrite lookup_total_insert_eq. Qed.

Lemma upd_node_total_ne h h' f (ns : gmap N node_load.t) :
  h ≠ h' → upd_node h f ns !!! h' = ns !!! h'.
Proof. intros. unfold upd_node. by rewrite lookup_total_insert_ne. Qed.

Lemma upd_node_lookup_eq h f (ns : gmap N node_load.t) :
  upd_node h f ns !! h = Some (f (ns !!! h)).
Proof. unfold upd_node. by rewrite lookup_insert_eq. Qed.

Lemma upd_node_lookup_ne h h' f (ns : gmap N node_load.t) :
  h ≠ h' → upd_node h f ns !! h' = ns !! h'.
Proof. intros. unfold upd_node. by rewrite lookup_insert_ne. Qed.

Lemma upd_node_compose h f g (ns : gmap N node_load.t) :
  upd_node h f (upd_node h g ns) = upd_node h (f ∘ g) ns.
Proof.
  unfold upd_node. by rewrite lookup_total_insert_eq, insert_insert_eq.
Qed.

Lemma lookup_total_Some h (ns : gmap N node_load.t) n :
  ns !! h = Some n → ns !!! h = n.
Proof. intros H. by rewrite lookup_total_alt, H. Qed.

Lemma lookup_total_None h (ns : gmap N node_load.t) :
  ns !! h = None → ns !!! h = node_load.empty.
Proof. intros H. by rewrite lookup_total_alt, H. Qed.

(** ** The passes through the body of the selection loop *)

Section loop_properties.

Variables make_heap pop_heap push_heap :
  ∀ A : Type, (A → A → bool) → list A → list A.
Variable set_begin : list global_tablet_id → global_tablet_id.
Variable tm : token_metadata.
Variable plan_dc : string.
Variable node_order : gmap N node_load.t → list N.
Hypothesis node_order_perm : ∀ ns, node_order ns ≡ₚ (map_to_list ns).*1.
Variable target : N.
Variable target_node : node.

Abbreviation loop_body' :=
  (loop_body pop_heap push_heap set_begin tm plan_dc target target_node).
Abbreviation pick_candidate' :=
  (pick_candidate pop_heap push_heap set_begin tm plan_dc target target_node).
Abbreviation check_and_migrate' :=
  (check_and_migrate push_heap tm plan_dc target target_node).
Abbreviation selection_loop' :=
  (selection_loop pop_heap push_heap set_begin tm plan_dc target target_node).
Abbreviation emit_migration' :=
  (emit_migration push_heap target).
Abbreviation skip_candidate' :=
  (skip_candidate push_heap).
Abbreviation scan_replicas' :=
  (scan_replicas tm plan_dc target).

(** The three ways a candidate tablet leaves [check_and_migrate']. *)
Lemma check_and_migrate_cases st ns nbl src_host src_shard t it :
  check_and_migrate' st ns nbl src_host src_shard t = Next it →
  it = Continue (skip_candidate' st ns nbl src_host)
  ∨ (it = Continue (emit_migration' st ns nbl src_host src_shard t)
     ∧ constraints_pass tm plan_dc target target_node src_host t).
Proof.
  unfold check_and_migrate. intros H.
  apply bind_Next in H as (src_node & Hsn & H).
  apply bind_Next in H as (tmap & Htm & H).
  apply bind_Next in H as (ti & Hti & H).
  apply bind_Next in H as ([has rl] & Hscan & H).
  unfold get_node in Hsn.
  destruct (get_topology tm !! src_host) as [sn|] eqn:E1; simplify_eq.
  unfold get_tablet_map in Htm.
  destruct (all_tables tm !! table t) as [tmap'|] eqn:E2; simplify_eq.
  unfold get_tablet_info in Hti.
  destruct (tablets tmap !! tablet t) as [ti'|] eqn:E3; simplify_eq.
  simpl in H. destruct has; [left; by simplify_eq|].
  apply bind_Next in H as (exceeded & Hex & H).
  destruct exceeded; [left; by simplify_eq|].
  right. simplify_eq. split; [done|].
  eexists _, _, _, _. repeat split; try done.
  case_bool_decide; [by left|by right].
Qed.

Lemma pick_candidate_cases st nbl src_host it :
  pick_candidate' st nbl src_host = Next it →
  let ns := upd_node src_host (pop_shard_heap pop_heap) (nodes st) in
  ∃ src_shard info,
    last (node_load.shards_by_load (ns !!! src_host)) = Some src_shard
    ∧ node_load.shards (nodes st !!! src_host) !! src_shard = Some info
    ∧ ((shard_load.candidates info = []
        ∧ it = Continue
                 {| nodes := upd_node src_host node_load.pop_back_shard ns;
                    nodes_by_load :=
                      push_back_node_candidate push_heap
                        (upd_node src_host node_load.pop_back_shard ns) nbl;
                    plan := plan st;
                    max_off_candidate_load := max_off_candidate_load st;
                    target_load := target_load st |})
       ∨ (shard_load.candidates info ≠ []
          ∧ check_and_migrate' st
              (upd_shard src_host src_shard
                 (erase_candidate (set_begin (shard_load.candidates info))) ns)
              nbl src_host src_shard (set_begin (shard_load.candidates info))
            = Next it)).
Proof.
  unfold pick_candidate. intros H. cbv zeta in *.
  set (ns := upd_node src_host (pop_shard_heap pop_heap) (nodes st)) in *.
  destruct (last (node_load.shards_by_load (ns !!! src_host)))
    as [src_shard|] eqn:Hlast; [|done].
  destruct (node_load.shards (ns !!! src_host) !! src_shard)
    as [info|] eqn:Hinfo; [|done].
  exists src_shard, info. split; [done|]. split.
  { subst ns. by rewrite upd_node_total_eq in Hinfo. }
  destruct (decide (shard_load.candidates info = [])); simplify_eq; eauto.
Qed.

(** A pass ends the loop, drops the source node, or goes on to pick a
    candidate of the source node; then the source node has more load than
    the target and a move does not invert their loads. *)
Lemma loop_body_cases st it :
  loop_body' st = Next it →
  let nbl := pop_heap _ (nodes_cmp (nodes st)) (nodes_by_load st) in
  ∃ src_host,
    last nbl = Some src_host
    ∧ (it = Break (with_nodes_by_load nbl st)
       ∨ (load_le (node_load.avg_load (nodes st !!! src_host))
                  (node_load.avg_load (nodes st !!! target)) = false
          ∧ load_lt
              (node_load.get_avg_load (nodes st !!! src_host)
                 (wrap64 (node_load.tablet_count (nodes st !!! src_host) - 1)))
              (node_load.get_avg_load (nodes st !!! target)
                 (wrap64 (node_load.tablet_count (nodes st !!! target) + 1)))
            = false
          ∧ ((node_load.shards_by_load (nodes st !!! src_host) = []
              ∧ it = Continue
                   {| nodes := nodes st; nodes_by_load := removelast nbl;
                      plan := plan st;
                      max_off_candidate_load :=
                        load_max (max_off_candidate_load st)
                          (node_load.avg_load (nodes st !!! src_host));
                      target_load := target_load st |})
             ∨ (node_load.shards_by_load (nodes st !!! src_host) ≠ []
                ∧ pick_candidate' st nbl src_host = Next it)))).
Proof.
  unfold loop_body. intros H. cbv zeta in *.
  set (nbl := pop_heap _ (nodes_cmp (nodes st)) (nodes_by_load st)) in *.
  destruct (last nbl) as [src_host|]; [|done].
  exists src_host. split; [done|].
  repeat (match type of H with
          | (if ?c then _ else _) = _ => destruct c eqn:?
          end; simplify_eq; [by left|]).
  right. do 2 (split; [done|]).
  destruct (decide (node_load.shards_by_load (nodes st !!! src_host) = []));
    simplify_eq; eauto.
Qed.

(** A pass through the body leaves the plan as it is, or appends one
    migration: then a source was selected, its candidate passed the
    constraints, and the state is that of [emit_migration]. *)
Lemma loop_body_plan st it :
  loop_body' st = Next it →
  plan (state_of it) = plan st
  ∨ ∃ src_host src_shard info,
      let t := set_begin (shard_load.candidates info) in
      source_selected pop_heap target st src_host src_shard info
      ∧ constraints_pass tm plan_dc target target_node src_host t
      ∧ it = Continue
               (emit_migration' st (after_erase pop_heap st src_host src_shard t)
                  (pop_heap _ (nodes_cmp (nodes st)) (nodes_by_load st))
                  src_host src_shard t).
Proof.
  intros H. apply loop_body_cases in H as (src_host & Hlast & [->|H]); [by left|].
  destruct H as (Hle & Hlt & [[_ ->]|[Hne H]]); [by left|].
  apply pick_candidate_cases in H as (src_shard & info & Hs & Hinfo & [[_ ->]|[Hc H]]);
    [by left|].
  apply check_and_migrate_cases in H as [->|[-> Hpass]]; [by left|].
  right. exists src_host, src_shard, info. cbv zeta.
  rewrite upd_node_total_eq in Hs. by repeat split.
Qed.

(** The scan that finds no replica on the target has looked at every
    replica. *)
Lemma scan_replicas_no_target same_rack rs rl rl' :
  scan_replicas' same_rack rs rl = Next (false, rl') →
  ∀ r, r ∈ rs → host r ≠ target.
Proof.
  revert rl; induction rs as [|r0 rs IH]; intros rl H r Hr.
  - by apply elem_of_nil in Hr.
  - simpl in H. destruct (decide (host r0 = target)); [done|].
    apply elem_of_cons in Hr as [->|Hr]; [done|].
    destruct same_rack; [by eapply IH|].
    apply bind_Next in H as (n0 & _ & H). by eapply IH.
Qed.

Lemma constraints_pass_no_replica src_host t :
  constraints_pass tm plan_dc target target_node src_host t →
  ∀ r, r ∈ replicas_of tm t → host r ≠ target.
Proof.
  intros (src_node & tmap & ti & rl & _ & Htm & Hti & Hscan & _) r.
  unfold replicas_of. rewrite Htm, Hti. simpl.
  by eapply scan_replicas_no_target.
Qed.

Lemma plan_emit_migration st ns nbl src_host src_shard t :
  plan (emit_migration' st ns nbl src_host src_shard t)
  = plan st
    ++ [{| mig_tablet := t;
           src := {| host := src_host; shard := src_shard |};
           dst := {| host := target;
                     shard := (load_sketch.next_shard (target_load st)).1 |} |}].
Proof. done. Qed.

(** Every migration of the plan goes to the target, and its tablet has no
    replica there. *)
Lemma loop_body_no_collision st it :
  loop_body' st = Next it →
  Forall (fun m => host (dst m) = target
                   ∧ ∀ r, r ∈ replicas_of tm (mig_tablet m) → host r ≠ target)
         (plan st) →
  Forall (fun m => host (dst m) = target
                   ∧ ∀ r, r ∈ replicas_of tm (mig_tablet m) → host r ≠ target)
         (plan (state_of it)).
Proof.
  intros H Hplan.
  apply loop_body_plan in H as [->|(src_host & src_shard & info & _ & Hpass & ->)];
    [done|].
  simpl state_of. rewrite plan_emit_migration.
  apply Forall_app. split; [done|].
  apply Forall_singleton. simpl. split; [done|].
  by eapply constraints_pass_no_replica.
Qed.

(** A pass through the body appends at most one migration. *)
Lemma loop_body_plan_length st it :
  loop_body' st = Next it →
  (length (plan (state_of it)) ≤ S (length (plan st)))%nat.
Proof.
  intros H.
  apply loop_body_plan in H as [->|(src_host & src_shard & info & _ & _ & ->)];
    [lia|].
  simpl state_of. rewrite plan_emit_migration, length_app. simpl. lia.
Qed.

(** What is known when a pass appends [m] to the plan. *)
Lemma emits_inv st m :
  emits pop_heap push_heap set_begin tm plan_dc target target_node st m →
  ∃ src_host src_shard info,
    source_selected pop_heap target st src_host src_shard info
    ∧ constraints_pass tm plan_dc target target_node src_host
        (set_begin (shard_load.candidates info))
    ∧ m = {| mig_tablet := set_begin (shard_load.candidates info);
             src := {| host := src_host; shard := src_shard |};
             dst := {| host := target;
                       shard := (load_sketch.next_shard (target_load st)).1 |} |}.
Proof.
  intros (st' & Hb & Hplan).
  apply loop_body_plan in Hb as [Heq|(src_host & src_shard & info & Hsel & Hpass & Hit)].
  - simpl in Heq. rewrite Heq in Hplan.
    apply (f_equal length) in Hplan. rewrite length_app in Hplan. simpl in Hplan. lia.
  - simplify_eq. rewrite plan_emit_migration in Hplan.
    apply app_inv_head in Hplan. simplify_eq. by eauto 10.
Qed.

(** The scan that builds the histogram adds, for every rack, the number of
    replicas in that rack of the datacenter. *)
Lemma scan_replicas_rack_load rs rl rl' rk :
  scan_replicas' false rs rl = Next (false, rl') →
  default 0 (rl' !! rk) = default 0 (rl !! rk) + rack_count_of tm plan_dc rk rs.
Proof.
  unfold rack_count_of.
  revert rl; induction rs as [|r rs IH]; intros rl H; simpl in H.
  - simplify_eq. simpl. lia.
  - destruct (decide (host r = target)); [done|].
    apply bind_Next in H as (nd & Hn & H). apply IH in H. rewrite H. clear H IH.
    unfold get_node in Hn.
    destruct (get_topology tm !! host r) as [nd'|] eqn:Hr; simplify_eq.
    assert (in_rack tm plan_dc rk r
            = bool_decide (dc (dc_rack nd) = plan_dc)
              && bool_decide (rack (dc_rack nd) = rk)) as Hin.
    { unfold in_rack. by rewrite Hr. }
    rewrite filter_cons, Hin.
    destruct (decide (dc (dc_rack nd) = plan_dc)) as [Hd|Hd].
    + rewrite (bool_decide_eq_true_2 _ Hd). simpl.
      destruct (decide (rack (dc_rack nd) = rk)) as [<-|Hrk].
      * rewrite lookup_insert_eq, bool_decide_eq_true_2 by done. simpl.
        repeat case_decide; simpl length; first [lia|by exfalso].
      * rewrite lookup_insert_ne, bool_decide_eq_false_2 by done. simpl.
        repeat case_decide; simpl length; first [lia|by exfalso].
    + rewrite (bool_decide_eq_false_2 _ Hd). simpl.
      repeat case_decide; simpl length; first [lia|by exfalso].
Qed.

Lemma max_element_elem {A : Type} (comp : A → A → bool) l m :
  max_element comp l = Some m → m ∈ l.
Proof.
  destruct l as [|x l]; simpl; [done|]. intros [= <-].
  assert (∀ y, foldl (fun largest it => if comp largest it then it else largest) y l
               ∈ y :: l) as Hgen; [|apply Hgen].
  induction l as [|z l IH]; intros y; simpl; [by left|].
  destruct (comp y z).
  - right. apply IH.
  - specialize (IH y). apply elem_of_cons in IH as [->|?]; [by left|by do 2 right].
Qed.

(** A candidate taken from another rack than the target's is moved only
    when one more replica in the rack of the target does not exceed the
    largest number of replicas that a rack of the datacenter holds. *)
Lemma constraints_pass_rack src_host src_node t :
  constraints_pass tm plan_dc target target_node src_host t →
  get_topology tm !! src_host = Some src_node →
  rack (dc_rack target_node) ≠ rack (dc_rack src_node) →
  ∃ rk, rack_count tm plan_dc t (rack (dc_rack target_node)) + 1
        ≤ rack_count tm plan_dc t rk.
Proof.
  intros (src_node' & tmap & ti & rl & Hsn & Htm & Hti & Hscan & Hrack) Hsn' Hne.
  simplify_eq. destruct Hrack as [|Hex]; [done|].
  rewrite bool_decide_eq_false_2 in Hscan by done.
  unfold rack_load_exceeded in Hex.
  destruct (max_element _ _) as [[rk mx]|] eqn:Hmax; [|done].
  simpl in Hex. injection Hex as Hex. apply bool_decide_eq_false in Hex.
  apply max_element_elem, elem_of_map_to_list in Hmax.
  exists rk. unfold rack_count, replicas_of. rewrite Htm, Hti. simpl.
  pose proof (scan_replicas_rack_load _ _ _ rk Hscan) as H1.
  pose proof (scan_replicas_rack_load _ _ _ (rack (dc_rack target_node)) Hscan) as H2.
  rewrite Hmax in H1. rewrite lookup_empty in H1, H2. simpl in H1, H2. lia.
Qed.

(** What the loop selects in a state is determined by the state. *)
Lemma source_selected_unique st h s i h' s' i' :
  source_selected pop_heap target st h s i →
  source_selected pop_heap target st h' s' i' →
  h = h' ∧ s = s' ∧ i = i'.
Proof.
  intros (H1 & _ & _ & H2 & H3 & _) (H1' & _ & _ & H2' & H3' & _).
  assert (h = h') as <- by congruence.
  assert (s = s') as <- by congruence.
  assert (i = i') as <- by congruence. done.
Qed.

(** Nothing in the body of the loop returns from [make_plan] or runs out
    of fuel. *)
Lemma scan_replicas_flow same_rack rs rl :
  (∃ r, scan_replicas' same_rack rs rl = Next r)
  ∨ (∃ e, scan_replicas' same_rack rs rl = Throw e).
Proof.
  revert rl; induction rs as [|r rs IH]; intros rl; simpl; [by eauto|].
  destruct (decide (host r = target)); [by eauto|].
  destruct same_rack; [done|].
  unfold get_node. destruct (get_topology tm !! host r); cbn; by eauto.
Qed.

Lemma check_and_migrate_flow st ns nbl src_host src_shard t :
  (∃ it, check_and_migrate' st ns nbl src_host src_shard t = Next it)
  ∨ (∃ e, check_and_migrate' st ns nbl src_host src_shard t = Throw e).
Proof.
  unfold check_and_migrate, get_node, get_tablet_map, get_tablet_info.
  destruct (get_topology tm !! src_host) as [src_node|]; cbn; [|by eauto].
  destruct (all_tables tm !! table t) as [tmap|]; cbn; [|by eauto].
  destruct (tablets tmap !! tablet t) as [ti|]; cbn; [|by eauto].
  destruct (scan_replicas_flow
              (bool_decide (rack (dc_rack target_node) = rack (dc_rack src_node)))
              (replicas ti) ∅) as [[[has rl] ->]|[e ->]]; cbn; [|by eauto].
  destruct has; [by eauto|].
  destruct (bool_decide _); cbn; [by eauto|].
  unfold rack_load_exceeded. destruct (max_element _ _); cbn; [|by eauto].
  destruct (bool_decide _); by eauto.
Qed.

Lemma loop_body_flow st :
  (∃ it, loop_body' st = Next it) ∨ (∃ e, loop_body' st = Throw e).
Proof.
  unfold loop_body. destruct (last _) as [src_host|]; [|by eauto].
  repeat (match goal with
          | |- context [if ?c then _ else _] => destruct c; [by eauto|]
          end).
  unfold pick_candidate.
  destruct (last _) as [src_shard|]; [|by eauto].
  destruct (_ !! src_shard) as [info|]; [|by eauto].
  destruct (decide _); [by eauto|].
  apply check_and_migrate_flow.
Qed.

(** What holds when the loop is entered and is kept by every pass through
    the body holds when the loop is left. *)
Lemma selection_loop_invariant (I : loop_state → Prop) :
  (∀ st it, I st → loop_condition target_node st →
            loop_body' st = Next it → I (state_of it)) →
  ∀ fuel st st', I st → selection_loop' fuel st = Next st' → I st'.
Proof.
  intros Hstep. induction fuel as [|fuel IH]; intros st st' Hst; simpl.
  - destruct (decide _); [done|]. by intros; simplify_eq.
  - destruct (decide _) as [Hc|]; [|by intros; simplify_eq].
    intros H. apply bind_Next in H as (it & Hb & H).
    specialize (Hstep _ _ Hst Hc Hb).
    destruct it as [st1|st1]; simpl in *; [by simplify_eq|by apply (IH st1)].
Qed.

Lemma selection_loop_flow fuel st :
  (∃ st', selection_loop' fuel st = Next st')
  ∨ (∃ e, selection_loop' fuel st = Throw e)
  ∨ selection_loop' fuel st = OutOfFuel.
Proof.
  revert st; induction fuel as [|fuel IH]; intros st; simpl.
  - destruct (decide _); by eauto.
  - destruct (decide _); [|by eauto].
    destruct (loop_body_flow st) as [[it ->]|[e ->]]; cbn; [|by eauto].
    destruct it; [by eauto|apply IH].
Qed.

Lemma selection_loop_reaches fuel st st' :
  selection_loop' fuel st = Next st' →
  loop_reaches pop_heap push_heap set_begin tm plan_dc target target_node st st'.
Proof.
  intros H.
  apply (selection_loop_invariant
           (loop_reaches pop_heap push_heap set_begin tm plan_dc target target_node st))
    in H; [done| |by constructor].
  intros. by econstructor.
Qed.

Lemma loop_reaches_invariant (I : loop_state → Prop) st0 :
  (∀ st it, I st → loop_condition target_node st →
            loop_body' st = Next it → I (state_of it)) →
  I st0 →
  ∀ st, loop_reaches pop_heap push_heap set_begin tm plan_dc target target_node st0 st →
        I st.
Proof. intros Hstep H0 st. induction 1; eauto. Qed.

End loop_properties.

Ltac upd_simpl :=
  repeat first
    [ rewrite upd_node_total_eq
    | rewrite upd_node_lookup_eq
    | rewrite upd_node_total_ne by done
    | rewrite upd_node_lookup_ne by done ].

Lemma upd_node_commute h h' f g (ns : gmap N node_load.t) :
  h ≠ h' → upd_node h f (upd_node h' g ns) = upd_node h' g (upd_node h f ns).
Proof.
  intros Hne. unfold upd_node.
  rewrite !lookup_total_insert_ne by done. by apply insert_insert_ne.
Qed.

Lemma load_le_refl x : load_le x x = true.
Proof. unfold load_le. apply Qle_bool_iff. apply Qle_refl. Qed.

Lemma removelast_submseteq {A : Type} (l : list A) : removelast l ⊆+ l.
Proof.
  destruct l as [|x l] using rev_ind; [done|].
  rewrite removelast_last. by apply submseteq_inserts_r.
Qed.

Section loop_passes.

Variables pop_heap push_heap : ∀ A : Type, (A → A → bool) → list A → list A.
Variable set_begin : list global_tablet_id → global_tablet_id.
Hypothesis pop_heap_perm : ∀ A comp (l : list A), pop_heap A comp l ≡ₚ l.
Hypothesis push_heap_perm : ∀ A comp (l : list A), push_heap A comp l ≡ₚ l.
Variable tm : token_metadata.
Variable plan_dc : string.
Variable node_order : gmap N node_load.t → list N.
Hypothesis node_order_perm : ∀ ns, node_order ns ≡ₚ (map_to_list ns).*1.
Variable target : N.
Variable target_node : node.

Abbreviation loop_body'' :=
  (loop_body pop_heap push_heap set_begin tm plan_dc target target_node).
Abbreviation pass' :=
  (pass pop_heap push_heap set_begin tm plan_dc target target_node).

Lemma emit_migration_nodes st src_host src_shard t nbl :
  src_host ≠ target →
  nodes (emit_migration push_heap target st
           (after_erase pop_heap st src_host src_shard t) nbl src_host src_shard t)
  = upd_node src_host (moved_away pop_heap push_heap src_shard t)
      (upd_node target (node_load.add_tablets 1) (nodes st)).
Proof.
  intros Hne. assert (target ≠ src_host) as Hne' by done.
  unfold emit_migration, after_erase, upd_shard, push_back_shard_candidate,
    moved_away.
  cbv zeta. simpl nodes. upd_simpl.
  destruct (bool_decide _) eqn:Hc; apply map_eq; intros h;
    (destruct (decide (h = src_host)) as [->|];
     [|destruct (decide (h = target)) as [->|]]);
    upd_simpl; cbv beta; by rewrite ?Hc.
Qed.

Lemma emit_migration_nodes_by_load st ns src_host src_shard t nbl :
  nodes_by_load (emit_migration push_heap target st ns nbl src_host src_shard t)
  ⊆+ nbl.
Proof.
  unfold emit_migration, push_back_node_candidate. cbv zeta. simpl nodes_by_load.
  destruct (bool_decide (node_load.tablet_count _ = 0)).
  - apply removelast_submseteq.
  - by rewrite push_heap_perm.
Qed.

(** The vector of shards after each of the three changes of the source
    node. *)
Lemma shards_shard_dropped n :
  node_load.shards (shard_dropped pop_heap n) = node_load.shards n.
Proof. done. Qed.

Lemma shards_candidate_skipped s t n :
  node_load.shards (candidate_skipped pop_heap push_heap s t n)
  = <[s := erase_candidate t (node_load.shards n !!! s)]> (node_load.shards n).
Proof. done. Qed.

Lemma shards_moved_away s t n :
  node_load.shards (moved_away pop_heap push_heap s t n)
  = <[s := add_shard_tablets (-1) (erase_candidate t (node_load.shards n !!! s))]>
      (node_load.shards n).
Proof.
  unfold moved_away. cbv zeta.
  destruct (bool_decide _) eqn:Hc; simpl;
    (destruct (decide (s < length (node_load.shards n))%nat);
     [rewrite list_lookup_total_insert_eq by done; by rewrite list_insert_insert_eq
     |by rewrite !list_insert_ge by (rewrite ?length_insert; lia)]).
Qed.

Lemma candidates_insert_subseteq (l : list shard_load.t) s s' f :
  (∀ x, shard_load.candidates (f x) ⊆ shard_load.candidates x) →
  shard_load.candidates (<[s := f (l !!! s)]> l !!! s')
  ⊆ shard_load.candidates (l !!! s').
Proof.
  intros Hf. rewrite list_lookup_total_insert.
  case_decide as H; [destruct H as [-> _]; apply Hf|done].
Qed.

Lemma erase_subseteq t c : erase t c ⊆ c.
Proof. unfold erase. intros x Hx. by apply list_elem_of_filter in Hx as [_ ?]. Qed.

Lemma not_elem_of_erase t c : t ∉ erase t c.
Proof. unfold erase. intros Hx. by apply list_elem_of_filter in Hx as [? _]. Qed.

(** No pass adds a candidate to a shard. *)
Lemma pass_candidates_subseteq st it h s :
  pass' st it →
  candidates_at (nodes (state_of it)) h s ⊆ candidates_at (nodes st) h s.
Proof.
  unfold candidates_at.
  destruct 1 as [|src_host st' _ Hn _ _
                 |src_host src_shard info st' _ _ _ _ _ Hn _ _
                 |src_host src_shard info st' _ Hn _ _
                 |src_host src_shard info st' _ _ Hne Hn _ _];
    simpl; rewrite ?Hn; try done.
  - destruct (decide (h = src_host)) as [->|]; upd_simpl; done.
  - destruct (decide (h = src_host)) as [->|]; upd_simpl; [|done].
    rewrite shards_candidate_skipped. apply candidates_insert_subseteq.
    intros x. simpl. apply erase_subseteq.
  - destruct (decide (h = src_host)) as [->|]; upd_simpl.
    + rewrite shards_moved_away.
      apply (candidates_insert_subseteq _ _ _
               (fun x => add_shard_tablets (-1) (erase_candidate _ x))).
      intros x. simpl. apply erase_subseteq.
    + destruct (decide (h = target)) as [->|]; upd_simpl; done.
Qed.

(** The tablet that a pass moves is no candidate of its source shard any
    more. *)
Lemma moved_away_not_candidate s t n info :
  node_load.shards n !! s = Some info →
  t ∉ shard_load.candidates
        (node_load.shards (moved_away pop_heap push_heap s t n) !!! s).
Proof.
  intros Hs. rewrite shards_moved_away.
  rewrite list_lookup_total_insert_eq by by eapply lookup_lt_Some.
  simpl. apply not_elem_of_erase.
Qed.

(** Every pass that ends without an exception is one of the five. *)
Lemma loop_body_pass st it : loop_body'' st = Next it → pass' st it.
Proof.
  intros H. apply loop_body_cases in H as (src_host & Hlast & [->|H]);
    [by constructor|].
  destruct H as (Hle & Hlt & [[Hnil ->]|[Hne H]]).
  { by eapply pass_drop_node. }
  apply pick_candidate_cases in H as (src_shard & info & Hs & Hinfo & [[Hc ->]|[Hc H]]).
  { rewrite upd_node_total_eq in Hs.
    eapply pass_drop_shard; try done; simpl.
    - by rewrite upd_node_compose.
    - unfold push_back_node_candidate. by rewrite push_heap_perm, pop_heap_perm. }
  rewrite upd_node_total_eq in Hs.
  assert (source_selected pop_heap target st src_host src_shard info) as Hsel
    by by repeat split.
  apply check_and_migrate_cases in H as [->|[-> Hpass]].
  - eapply pass_skip; try done; simpl.
    + unfold push_back_shard_candidate, upd_shard. by rewrite !upd_node_compose.
    + unfold push_back_node_candidate. by rewrite push_heap_perm, pop_heap_perm.
  - assert (src_host ≠ target) as Hst.
    { intros ->. by rewrite load_le_refl in Hle. }
    eapply pass_emit; try done.
    + by apply emit_migration_nodes.
    + etrans; [apply emit_migration_nodes_by_load|]. by rewrite pop_heap_perm.
Qed.

(** The moves of the plan are pairwise distinct, and no moved tablet is
    still a candidate of the shard it is moved from. *)
Hypothesis set_begin_elem : ∀ c, c ≠ [] → set_begin c ∈ c.

Lemma loop_body_moves st it :
  loop_body'' st = Next it →
  NoDup (moves (plan st))
  ∧ (∀ m, m ∈ plan st →
       mig_tablet m ∉ candidates_at (nodes st) (host (src m)) (shard (src m))) →
  NoDup (moves (plan (state_of it)))
  ∧ (∀ m, m ∈ plan (state_of it) →
       mig_tablet m
       ∉ candidates_at (nodes (state_of it)) (host (src m)) (shard (src m))).
Proof.
  intros Hb [Hnd Hcand]. apply loop_body_pass in Hb.
  assert (∀ m, m ∈ plan st →
            mig_tablet m
            ∉ candidates_at (nodes (state_of it)) (host (src m)) (shard (src m)))
    as Hold.
  { intros m Hm Hin. apply (Hcand m Hm).
    by eapply pass_candidates_subseteq. }
  destruct Hb as [|src_host st' _ Hn _ Hp
                 |src_host src_shard info st' _ _ _ _ _ Hn _ Hp
                 |src_host src_shard info st' _ Hn _ Hp
                 |src_host src_shard info st' Hsel _ Hne Hn _ Hp];
    simpl in *; rewrite ?Hp; try done.
  destruct Hsel as (_ & _ & _ & _ & Hinfo & Hc).
  split.
  - unfold moves. rewrite fmap_app. simpl. apply NoDup_app. split; [done|].
    split; [|apply NoDup_singleton].
    intros x Hx Hx'. apply list_elem_of_singleton in Hx' as ->.
    apply list_elem_of_fmap in Hx as (m & Hm & Hin). simplify_eq.
    apply (Hcand m Hin). unfold candidates_at.
    destruct m as [t' [h' s']]. simpl in *. simplify_eq.
    rewrite (list_lookup_total_correct _ _ _ Hinfo). by apply set_begin_elem.
  - intros m Hm. apply elem_of_app in Hm as [Hm|Hm]; [by apply Hold|].
    apply list_elem_of_singleton in Hm as ->. simpl.
    unfold candidates_at. rewrite Hn. upd_simpl.
    by eapply moved_away_not_candidate.
Qed.

End loop_passes.

(** ** The load imbalance *)

Lemma elem_of_snoc {A : Type} (l : list A) x y : y ∈ l ++ [x] → y ∈ l ∨ y = x.
Proof. intros [?|?%list_elem_of_singleton]%elem_of_app; by eauto. Qed.

Lemma load_lt_true a b : load_lt a b = true → (a < b)%Q.
Proof. unfold load_lt. rewrite Qlt_alt. by destruct (a ?= b)%Q. Qed.

Lemma load_lt_false a b : load_lt a b = false → (b <= a)%Q.
Proof.
  unfold load_lt. intros H. apply Qnot_lt_le. rewrite Qlt_alt.
  by destruct (a ?= b)%Q.
Qed.

Lemma update_update n : node_load.update (node_load.update n) = node_load.update n.
Proof. done. Qed.

Lemma get_avg_load_nonneg n c : 0 ≤ c → (0 <= node_load.get_avg_load n c)%Q.
Proof.
  intros Hc. unfold node_load.get_avg_load, Qdiv.
  apply Qmult_le_0_compat.
  - change 0%Q with (inject_Z 0). by rewrite <- Zle_Qle.
  - apply Qinv_le_0_compat. change 0%Q with (inject_Z 0). rewrite <- Zle_Qle. lia.
Qed.

Section imbalance.

Variable node_order : gmap N node_load.t → list N.
Hypothesis node_order_perm : ∀ ns, node_order ns ≡ₚ (map_to_list ns).*1.

(** The scan of the nodes refreshes every [avg_load]; [min_load] is the
    load of [min_load_node] and is below every load; [max_load] is zero or
    the load of a node and is above every load. *)
Lemma compute_imbalance_spec (ns : gmap N node_load.t) :
  (compute_imbalance node_order ns).1 = node_load.update <$> ns
  ∧ (∀ h n, ns !! h = Some n →
       (min_load (compute_imbalance node_order ns).2 <= node_load.avg_load (node_load.update n))%Q
       ∧ (node_load.avg_load (node_load.update n)
          <= max_load (compute_imbalance node_order ns).2)%Q)
  ∧ (0 <= max_load (compute_imbalance node_order ns).2)%Q
  ∧ (max_load (compute_imbalance node_order ns).2 = 0%Q
     ∨ ∃ h n, ns !! h = Some n
              ∧ max_load (compute_imbalance node_order ns).2
                = node_load.avg_load (node_load.update n))
  ∧ match min_load_node (compute_imbalance node_order ns).2 with
    | Some t => ∃ n, ns !! t = Some n
                     ∧ min_load (compute_imbalance node_order ns).2
                       = node_load.avg_load (node_load.update n)
    | None => ns = ∅ ∧ min_load (compute_imbalance node_order ns).2 = 0%Q
              ∧ max_load (compute_imbalance node_order ns).2 = 0%Q
    end.
Proof.
  unfold compute_imbalance.
  pose (I := fun (pre : list N) (acc : gmap N node_load.t * imbalance) =>
    (∀ h, acc.1 !! h = if decide (h ∈ pre) then node_load.update <$> ns !! h
                       else ns !! h)
    ∧ (∀ h n, h ∈ pre → ns !! h = Some n →
         (min_load acc.2 <= node_load.avg_load (node_load.update n))%Q
         ∧ (node_load.avg_load (node_load.update n) <= max_load acc.2)%Q)
    ∧ (0 <= max_load acc.2)%Q
    ∧ (max_load acc.2 = 0%Q
       ∨ ∃ h n, ns !! h = Some n
                ∧ max_load acc.2 = node_load.avg_load (node_load.update n))
    ∧ match min_load_node acc.2 with
      | Some t => ∃ n, ns !! t = Some n
                       ∧ min_load acc.2 = node_load.avg_load (node_load.update n)
      | None => pre = [] ∧ min_load acc.2 = 0%Q ∧ max_load acc.2 = 0%Q
      end).
  assert (I (node_order ns)
            (foldl compare_node
               (ns, {| max_load := 0%Q; min_load := 0%Q; min_load_node := None |})
               (node_order ns))) as (Ha & Hb & Hc & Hd & He).
  { apply foldl_prefix_invariant.
    - unfold I. simpl.
      split; [done|]. split; [intros h n Hh; by apply elem_of_nil in Hh|].
      split; [apply Qle_refl|]. split; [by left|done].
    - intros pre x [acc i] Hx (Ha & Hb & Hc & Hd & He).
      rewrite node_order_perm in Hx.
      apply list_elem_of_fmap in Hx as ([x' n] & -> & Hx). simpl.
      apply elem_of_map_to_list in Hx.
      assert (node_load.update (acc !!! x') = node_load.update n) as Hload.
      { rewrite lookup_total_alt, Ha, Hx. by case_decide. }
      unfold I, compare_node. cbv zeta. simpl fst. simpl snd.
      rewrite upd_node_total_eq, Hload.
      set (a := node_load.avg_load (node_load.update n)).
      split.
      { intros h. destruct (decide (h = x')) as [->|Hne].
        - rewrite upd_node_lookup_eq, Hload, Hx.
          rewrite decide_True by (apply elem_of_app; right; by left). done.
        - rewrite upd_node_lookup_ne, Ha by done.
          destruct (decide (h ∈ pre)).
          + rewrite decide_True by (apply elem_of_app; by left). done.
          + rewrite decide_False; [done|].
            intros [?|?]%elem_of_snoc; done. }
      destruct (bool_decide (min_load_node i = None) || load_lt a (min_load i))
        eqn:Hmin;
        destruct (load_lt (max_load _) a) eqn:Hmax; simpl in *;
        try apply load_lt_true in Hmax; try apply load_lt_false in Hmax.
      + split_and!.
        * intros h n' [Hh| ->]%elem_of_snoc Hn'.
          -- destruct (Hb h n' Hh Hn') as [H1 H2].
             apply orb_true_iff in Hmin as [Hnone%bool_decide_eq_true|Hlt].
             ++ rewrite Hnone in He. destruct He as (-> & _). by apply elem_of_nil in Hh.
             ++ apply load_lt_true in Hlt. split.
                ** eapply Qle_trans; [by apply Qlt_le_weak|done].
                ** eapply Qle_trans; [done|by apply Qlt_le_weak].
          -- simplify_eq. fold a. split; apply Qle_refl.
        * eapply Qle_trans; [done|by apply Qlt_le_weak].
        * right. exists x', n. done.
        * by exists n.
      + split_and!; try done.
        * intros h n' [Hh| ->]%elem_of_snoc Hn'.
          -- destruct (Hb h n' Hh Hn') as [H1 H2].
             apply orb_true_iff in Hmin as [Hnone%bool_decide_eq_true|Hlt].
             ++ rewrite Hnone in He. destruct He as (-> & _). by apply elem_of_nil in Hh.
             ++ apply load_lt_true in Hlt. split; [|done].
                eapply Qle_trans; [by apply Qlt_le_weak|done].
          -- simplify_eq. fold a. split; [apply Qle_refl|done].
        * by exists n.
      + split_and!.
        * apply orb_false_iff in Hmin as [_ Hlt%load_lt_false].
          intros h n' [Hh| ->]%elem_of_snoc Hn'.
          -- destruct (Hb h n' Hh Hn') as [H1 H2]. split; [done|].
             eapply Qle_trans; [done|by apply Qlt_le_weak].
          -- simplify_eq. fold a. split; [done|apply Qle_refl].
        * eapply Qle_trans; [done|by apply Qlt_le_weak].
        * right. exists x', n. done.
        * apply orb_false_iff in Hmin as [Hsome%bool_decide_eq_false _].
          by destruct (min_load_node i).
      + split_and!; try done.
        * apply orb_false_iff in Hmin as [_ Hlt%load_lt_false].
          intros h n' [Hh| ->]%elem_of_snoc Hn'.
          -- by apply (Hb h).
          -- by simplify_eq.
        * apply orb_false_iff in Hmin as [Hsome%bool_decide_eq_false _].
          by destruct (min_load_node i). }
  split_and!; try done.
  - apply map_eq. intros h. rewrite Ha, lookup_fmap.
    case_decide as Hh; [done|].
    destruct (ns !! h) as [n|] eqn:Hn; [|done].
    exfalso. apply Hh. rewrite node_order_perm.
    apply list_elem_of_fmap. exists (h, n).
    split; [done|]. by apply elem_of_map_to_list.
  - intros h n Hn. apply (Hb h); [|done]. rewrite node_order_perm.
    apply list_elem_of_fmap. exists (h, n).
    split; [done|]. by apply elem_of_map_to_list.
  - destruct (min_load_node _); [done|]. destruct He as (Hnil & ? & ?).
    split; [|done]. pose proof (node_order_perm ns) as Hperm.
    rewrite Hnil in Hperm. apply Permutation_nil in Hperm.
    apply fmap_nil_inv in Hperm. by apply map_to_list_empty_iff.
Qed.

End imbalance.

(** ** The bound on the number of passes *)

Lemma sum_list_Permutation l1 l2 : l1 ≡ₚ l2 → sum_list l1 = sum_list l2.
Proof. induction 1; simpl; lia. Qed.

Lemma sum_list_cons x l : sum_list (x :: l) = (x + sum_list l)%nat.
Proof. done. Qed.

Lemma length_removelast_lt {A : Type} (l : list A) :
  l ≠ [] → (length (removelast l) < length l)%nat.
Proof.
  destruct l as [|x l] using rev_ind; [done|]. intros _.
  rewrite removelast_last, length_app. simpl. lia.
Qed.

Lemma last_Some_ne_nil {A : Type} (l : list A) x : last l = Some x → l ≠ [].
Proof. by destruct l. Qed.

Lemma weight_upd_node h f (ns : gmap N node_load.t) :
  (sum_list ((fun hn : N * node_load.t => node_weight hn.2)
               <$> map_to_list (upd_node h f ns))
   + node_weight (ns !!! h)
   = sum_list ((fun hn : N * node_load.t => node_weight hn.2) <$> map_to_list ns)
     + node_weight (f (ns !!! h)))%nat.
Proof.
  unfold upd_node. destruct (ns !! h) as [n|] eqn:Hn.
  - rewrite (lookup_total_Some _ _ _ Hn).
    rewrite <- (sum_list_Permutation _ _
                  (fmap_Permutation _ _ _ (map_to_list_delete ns h n Hn))).
    rewrite <- insert_delete_eq.
    rewrite (sum_list_Permutation _ _
               (fmap_Permutation _ _ _
                  (map_to_list_insert (delete h ns) h (f n) (lookup_delete_eq ns h)))).
    rewrite !fmap_cons, !sum_list_cons. simpl fst. simpl snd. lia.
  - rewrite (lookup_total_None _ _ Hn).
    rewrite (sum_list_Permutation _ _
               (fmap_Permutation _ _ _
                  (map_to_list_insert ns h (f node_load.empty) Hn))).
    rewrite !fmap_cons, !sum_list_cons. simpl snd.
    change (node_weight node_load.empty) with 0%nat. lia.
Qed.

Lemma candidates_insert_total (l : list shard_load.t) s x y :
  l !! s = Some y →
  (sum_list ((fun s => length (shard_load.candidates s)) <$> <[s := x]> l)
   + length (shard_load.candidates y)
   = sum_list ((fun s => length (shard_load.candidates s)) <$> l)
     + length (shard_load.candidates x))%nat.
Proof.
  revert s; induction l as [|z l IH]; intros [|s] Hs; simpl in Hs; simplify_eq.
  - change (<[0%nat:=x]> (y :: l)) with (x :: l).
    rewrite !fmap_cons, !sum_list_cons. lia.
  - change (<[S s:=x]> (z :: l)) with (z :: <[s:=x]> l).
    rewrite !fmap_cons, !sum_list_cons. specialize (IH _ Hs). lia.
Qed.

Section loop_bound.

Variables pop_heap push_heap : ∀ A : Type, (A → A → bool) → list A → list A.
Variable set_begin : list global_tablet_id → global_tablet_id.
Hypothesis pop_heap_perm : ∀ A comp (l : list A), pop_heap A comp l ≡ₚ l.
Hypothesis push_heap_perm : ∀ A comp (l : list A), push_heap A comp l ≡ₚ l.
Hypothesis set_begin_elem : ∀ c, c ≠ [] → set_begin c ∈ c.
Variable tm : token_metadata.
Variable plan_dc : string.
Variable node_order : gmap N node_load.t → list N.
Hypothesis node_order_perm : ∀ ns, node_order ns ≡ₚ (map_to_list ns).*1.
Variable target : N.
Variable target_node : node.

Lemma node_weight_shard_dropped n :
  node_load.shards_by_load n ≠ [] →
  (node_weight (shard_dropped pop_heap n) < node_weight n)%nat.
Proof.
  intros Hne. unfold node_weight, shard_dropped. simpl.
  assert (pop_heap _ (node_load.shards_by_load_cmp n) (node_load.shards_by_load n) ≠ [])
    as Hne'.
  { intros Hnil. apply Hne. apply Permutation_nil_r. rewrite <- Hnil.
    by rewrite pop_heap_perm. }
  apply length_removelast_lt in Hne'. rewrite pop_heap_perm in Hne' at 2. lia.
Qed.

Lemma node_weight_add_tablets d n :
  node_weight (node_load.add_tablets d n) = node_weight n.
Proof. done. Qed.

Lemma node_weight_candidate_skipped s t n info :
  node_load.shards n !! s = Some info →
  t ∈ shard_load.candidates info →
  (node_weight (candidate_skipped pop_heap push_heap s t n) < node_weight n)%nat.
Proof.
  intros Hs Ht. unfold node_weight. rewrite shards_candidate_skipped.
  pose proof (candidates_insert_total _ _
                (erase_candidate t (node_load.shards n !!! s)) _ Hs) as Hsum.
  rewrite (list_lookup_total_correct _ _ _ Hs) in *. simpl in Hsum.
  pose proof (length_filter_lt (fun x => x ≠ t) _ t Ht) as Hlt.
  unfold erase in Hsum. simpl.
  rewrite push_heap_perm. simpl. rewrite pop_heap_perm.
  assert (¬ t ≠ t) by (by intros ?). specialize (Hlt H). lia.
Qed.

Lemma node_weight_moved_away s t n info :
  node_load.shards n !! s = Some info →
  t ∈ shard_load.candidates info →
  (node_weight (moved_away pop_heap push_heap s t n) < node_weight n)%nat.
Proof.
  intros Hs Ht. unfold node_weight. rewrite shards_moved_away.
  pose proof (candidates_insert_total _ _
                (add_shard_tablets (-1) (erase_candidate t (node_load.shards n !!! s)))
                _ Hs) as Hsum.
  rewrite (list_lookup_total_correct _ _ _ Hs) in *. simpl in Hsum.
  pose proof (length_filter_lt (fun x => x ≠ t) _ t Ht) as Hlt.
  unfold erase in Hsum.
  assert (¬ t ≠ t) by (by intros ?). specialize (Hlt H).
  assert (length (node_load.shards_by_load (moved_away pop_heap push_heap s t n))
          ≤ length (node_load.shards_by_load n))%nat as Hsbl.
  { unfold moved_away. cbv zeta. destruct (bool_decide _); simpl.
    - etrans; [apply submseteq_length, removelast_submseteq|].
      by rewrite pop_heap_perm.
    - by rewrite push_heap_perm, pop_heap_perm. }
  lia.
Qed.

(** Every pass after which the loop goes on takes a candidate, a candidate
    shard or a candidate node away. *)
Lemma pass_loop_bound st st' :
  pass pop_heap push_heap set_begin tm plan_dc target target_node st (Continue st') →
  (loop_bound st' < loop_bound st)%nat.
Proof.
  unfold loop_bound.
  inversion 1 as [|src_host st1 Hlast Hn Hnbl _
                  |src_host src_shard info st1 _ Hne _ _ _ Hn Hnbl _
                  |src_host src_shard info st1 Hsel Hn Hnbl _
                  |src_host src_shard info st1 Hsel _ _ Hn Hnbl _]; subst.
  - rewrite Hn, Hnbl. apply last_Some_ne_nil in Hlast.
    apply length_removelast_lt in Hlast. rewrite pop_heap_perm in Hlast at 2. lia.
  - rewrite Hn, Hnbl.
    pose proof (weight_upd_node src_host (shard_dropped pop_heap) (nodes st)).
    pose proof (node_weight_shard_dropped _ Hne). lia.
  - destruct Hsel as (_ & _ & _ & _ & Hinfo & Hc).
    rewrite Hn, Hnbl.
    pose proof (weight_upd_node src_host
                  (candidate_skipped pop_heap push_heap src_shard
                     (set_begin (shard_load.candidates info))) (nodes st)).
    pose proof (node_weight_candidate_skipped _ _ _ _ Hinfo (set_begin_elem _ Hc)).
    lia.
  - destruct Hsel as (_ & Hle & _ & _ & Hinfo & Hc).
    assert (src_host ≠ target) as Hst.
    { intros ->. by rewrite load_le_refl in Hle. }
    rewrite Hn. apply submseteq_length in Hnbl.
    pose proof (weight_upd_node src_host
                  (moved_away pop_heap push_heap src_shard
                     (set_begin (shard_load.candidates info)))
                  (upd_node target (node_load.add_tablets 1) (nodes st))) as H1.
    rewrite upd_node_total_ne in H1 by done.
    pose proof (weight_upd_node target (node_load.add_tablets 1) (nodes st)) as H2.
    rewrite node_weight_add_tablets in H2.
    pose proof (node_weight_moved_away _ _ _ _ Hinfo (set_begin_elem _ Hc)).
    lia.
Qed.

(** With more fuel than the bound, the loop does not run out of fuel. *)
Lemma selection_loop_fuel fuel st :
  (loop_bound st < fuel)%nat →
  selection_loop pop_heap push_heap set_begin tm plan_dc target target_node fuel st
  ≠ OutOfFuel.
Proof.
  revert st; induction fuel as [|fuel IH]; intros st Hlt; [lia|]. simpl.
  destruct (decide _); [|done].
  destruct (loop_body_flow pop_heap push_heap set_begin tm plan_dc target
              target_node st) as [[it Hb]|[e Hb]]; rewrite Hb; cbn; [|done].
  destruct it as [st'|st']; [done|].
  apply IH. apply loop_body_pass in Hb; [|done|done].
  apply pass_loop_bound in Hb. lia.
Qed.

End loop_bound.

(** ** From the passes of the loop to [make_plan] *)

Section planner_properties.

Variables make_heap pop_heap push_heap :
  ∀ A : Type, (A → A → bool) → list A → list A.
Variable set_begin : list global_tablet_id → global_tablet_id.
Variable tm : token_metadata.
Variable plan_dc : string.
Variable node_order : gmap N node_load.t → list N.
Hypothesis node_order_perm : ∀ ns, node_order ns ≡ₚ (map_to_list ns).*1.

Abbreviation make_plan' :=
  (make_plan make_heap pop_heap push_heap set_begin tm plan_dc node_order).
Abbreviation prepare' := (prepare make_heap tm plan_dc node_order).
Abbreviation compute_node_loads' := (compute_node_loads tm plan_dc).
Abbreviation collect_candidates' := (collect_candidates tm).
Abbreviation loop_reaches' :=
  (loop_reaches pop_heap push_heap set_begin tm plan_dc).
Abbreviation selection_loop' :=
  (selection_loop pop_heap push_heap set_begin tm plan_dc).

Lemma select_node_flow hn ns :
  (∃ ns', select_node plan_dc hn ns = Next ns')
  ∨ (∃ e, select_node plan_dc hn ns = Throw e).
Proof. unfold select_node. repeat case_decide; by eauto. Qed.

Lemma count_replica_flow g r ns :
  (∃ ns', count_replica g r ns = Next ns') ∨ (∃ e, count_replica g r ns = Throw e).
Proof. unfold count_replica. repeat case_decide; by eauto. Qed.

Lemma for_each_flow {A S : Type} (body : A → S → flow S) l s :
  (∀ a s, (∃ s', body a s = Next s') ∨ (∃ e, body a s = Throw e)) →
  (∃ s', for_each body l s = Next s') ∨ (∃ e, for_each body l s = Throw e).
Proof.
  intros Hb. revert s; induction l as [|a l IH]; intros s; cbn; [by eauto|].
  destruct (Hb a s) as [[s' ->]|[e ->]]; cbn; [apply IH|by eauto].
Qed.

Lemma compute_node_loads_flow :
  (∃ ns, compute_node_loads' = Next ns) ∨ (∃ e, compute_node_loads' = Throw e).
Proof.
  unfold compute_node_loads.
  destruct (for_each_flow (select_node plan_dc) (map_to_list (get_topology tm)) ∅
              select_node_flow) as [[ns ->]|[e ->]]; cbn; [|by eauto].
  apply for_each_flow. intros tbl s. apply for_each_flow. intros t s'.
  apply for_each_flow. intros r s''. apply count_replica_flow.
Qed.

Lemma collect_replica_flow g r ns :
  (∃ ns', collect_replica g r ns = Next ns') ∨ (∃ e, collect_replica g r ns = Throw e).
Proof.
  unfold collect_replica. case_decide; [|by eauto].
  destruct (_ !! shard r); by eauto.
Qed.

Lemma collect_tablet_flow table t ns :
  (∃ ns', collect_tablet table t ns = Next ns')
  ∨ (∃ e, collect_tablet table t ns = Throw e).
Proof. apply for_each_flow. intros r s. apply collect_replica_flow. Qed.

(** Phase D returns from [make_plan] only with the empty plan, and only
    for a table with pending transitions. *)
Lemma collect_candidates_Return ns p :
  collect_candidates' ns = Return p →
  p = [] ∧ ∃ table tmap, all_tables tm !! table = Some tmap ∧ transitions tmap ≠ [].
Proof.
  unfold collect_candidates. intros H.
  apply for_each_Return in H as ([table tmap] & s & Hin & H).
  apply elem_of_map_to_list in Hin.
  unfold collect_table in H. simpl in H. case_decide; [by simplify_eq; eauto|].
  destruct (for_each_flow (collect_tablet table) (for_each_tablet tmap) s
              (collect_tablet_flow table)) as [[s' Hs]|[e Hs]]; congruence.
Qed.

Lemma collect_candidates_flow ns :
  (∃ ns', collect_candidates' ns = Next ns')
  ∨ (∃ e, collect_candidates' ns = Throw e)
  ∨ collect_candidates' ns = Return [].
Proof.
  destruct (collect_candidates' ns) as [ns'|p|e|] eqn:H; [by eauto| |by eauto|].
  - apply collect_candidates_Return in H as [-> _]. by eauto.
  - apply for_each_OutOfFuel in H as ([table tmap] & s & _ & H).
    unfold collect_table in H. simpl in H. case_decide; [done|].
    destruct (for_each_flow (collect_tablet table) (for_each_tablet tmap) s
                (collect_tablet_flow table)) as [[s' Hs]|[e Hs]]; congruence.
Qed.

Lemma prepare_flow :
  (∃ p, prepare' = Next p) ∨ (∃ e, prepare' = Throw e) ∨ prepare' = Return [].
Proof.
  unfold prepare.
  destruct compute_node_loads_flow as [[ns ->]|[e ->]]; cbn; [|by eauto].
  destruct (load_eq _ _); [by eauto|].
  destruct (min_load_node _) as [target|]; [|by eauto].
  destruct (get_topology tm !! target) as [target_node|]; [|by eauto].
  destruct (collect_candidates_flow (compute_imbalance node_order ns).1)
    as [[ns' ->]|[[e ->]| ->]]; cbn; by eauto.
Qed.

(** How the selection loop is entered. *)
Lemma prepare_Next target target_node st0 :
  prepare' = Next (target, target_node, st0) →
  ∃ ns ns',
    compute_node_loads' = Next ns
    ∧ load_eq (max_load (compute_imbalance node_order ns).2) (min_load (compute_imbalance node_order ns).2)
      = false
    ∧ min_load_node (compute_imbalance node_order ns).2 = Some target
    ∧ get_topology tm !! target = Some target_node
    ∧ collect_candidates' (compute_imbalance node_order ns).1 = Next ns'
    ∧ st0 = {| nodes := (prepare_heaps make_heap ns').1;
               nodes_by_load := (prepare_heaps make_heap ns').2;
               plan := [];
               max_off_candidate_load := 0%Q;
               target_load := load_sketch.populate tm target |}.
Proof.
  unfold prepare. intros H.
  apply bind_Next in H as (ns & Hns & H).
  destruct (load_eq _ _) eqn:Heq; [done|].
  destruct (min_load_node _) as [target'|] eqn:Hmin; [|done].
  destruct (get_topology tm !! target') as [target_node'|] eqn:Htn; [|done].
  apply bind_Next in H as (ns' & Hns' & H). simplify_eq.
  by exists ns, ns'.
Qed.

(** A plan that [make_plan] returns is empty, or it is the plan of the
    state in which the selection loop is left. *)
Lemma make_plan_Return p :
  make_plan' = Return p →
  p = []
  ∨ ∃ target target_node st0 st,
      prepare' = Next (target, target_node, st0)
      ∧ selection_loop' target target_node (S (loop_bound st0)) st0 = Next st
      ∧ p = plan st.
Proof.
  unfold make_plan. intros H.
  destruct prepare_flow as [[[[target target_node] st0] Hp]|[[e Hp]|Hp]];
    rewrite Hp in H; cbn in H; [|done|by left; simplify_eq].
  destruct (selection_loop_flow pop_heap push_heap set_begin tm plan_dc
              target target_node (S (loop_bound st0)) st0)
    as [[st Hs]|[[e Hs]|Hs]]; cbn in Hs; rewrite Hs in H; cbn in H; [|done|done].
  right. exists target, target_node, st0, st. by simplify_eq.
Qed.

End planner_properties.

(** ** The scans of the snapshot *)

Lemma elem_of_all_replicas tm g r :
  (g, r) ∈ all_replicas tm ↔ r ∈ replicas_of tm g.
Proof.
  unfold all_replicas, replicas_of, for_each_tablet. split.
  - intros ([t tmap] & Hin & Htbl%elem_of_map_to_list)%list_elem_of_bind.
    apply list_elem_of_bind in Hin as ([tid ti] & Hin & Ht).
    apply elem_of_lookup_imap in Ht as (i & ti' & ? & Hti). simplify_eq.
    apply list_elem_of_fmap in Hin as (r' & ? & Hr). simplify_eq. simpl in *.
    by rewrite Htbl, Hti.
  - destruct g as [t tid]. simpl.
    destruct (all_tables tm !! t) as [tmap|] eqn:Htbl; [|by intros ?%elem_of_nil].
    destruct (tablets tmap !! tid) as [ti|] eqn:Hti; [|by intros ?%elem_of_nil].
    simpl. intros Hr. apply list_elem_of_bind. exists (t, tmap).
    split; [|by apply elem_of_map_to_list].
    apply list_elem_of_bind. exists (tid, ti). split.
    + simpl. apply list_elem_of_fmap. by exists r.
    + apply elem_of_lookup_imap. by exists tid, ti.
Qed.

Lemma count_host_snoc h l g r :
  count_host h (l ++ [(g, r)]) = count_host h l + (if decide (host r = h) then 1 else 0).
Proof.
  unfold count_host. rewrite filter_app, length_app, filter_cons, filter_nil. simpl.
  case_decide; simpl; lia.
Qed.

Lemma wrap64_add_l a b : wrap64 (wrap64 a + b) = wrap64 (a + b).
Proof. unfold wrap64. by rewrite Zplus_mod_idemp_l. Qed.

Lemma wrap64_nonneg a : 0 ≤ wrap64 a.
Proof. unfold wrap64. apply Z.mod_pos_bound. lia. Qed.

Lemma set_tablet_count_id n :
  node_load.set_tablet_count (node_load.tablet_count n) n = n.
Proof. by destruct n. Qed.

Lemma wrap64_wrap64 a : wrap64 (wrap64 a) = wrap64 a.
Proof. unfold wrap64. by rewrite Zmod_mod. Qed.

Lemma wrap64_add_r a b : wrap64 (a + wrap64 b) = wrap64 (a + b).
Proof. unfold wrap64. by rewrite Zplus_mod_idemp_r. Qed.

Lemma wrap64_step a b c d :
  wrap64 a = wrap64 b → wrap64 (a - c + wrap64 (c + d)) = wrap64 (b + d).
Proof.
  intros H. rewrite wrap64_add_r. replace (a - c + (c + d)) with (a + d) by lia.
  by rewrite <- wrap64_add_l, H, wrap64_add_l.
Qed.

Lemma shards_total_sum n : shards_total n = wrap64 (shards_sum (node_load.shards n)).
Proof.
  unfold shards_total, shards_sum.
  induction (node_load.shards n) as [|s l IH]; simpl; [done|].
  by rewrite IH, wrap64_add_r.
Qed.

Lemma shards_sum_insert (l : list shard_load.t) s x y :
  l !! s = Some y →
  shards_sum (<[s := x]> l)
  = shards_sum l - shard_load.tablet_count y + shard_load.tablet_count x.
Proof.
  revert s; induction l as [|z l IH]; intros [|s] Hs; simpl in Hs; simplify_eq.
  - simpl. lia.
  - simpl. rewrite (IH _ Hs). lia.
Qed.

Lemma shards_sum_replicate c : shards_sum (replicate c shard_load.empty) = 0.
Proof. induction c; simpl; [done|]. unfold shards_sum in *. simpl. lia. Qed.

Lemma elem_of_emplace t g c : t ∈ emplace g c → t = g ∨ t ∈ c.
Proof.
  unfold emplace. case_decide; [by right|].
  intros [->|?]%elem_of_cons; by eauto.
Qed.

Section scans.

Variable tm : token_metadata.
Variable plan_dc : string.
Variable node_order : gmap N node_load.t → list N.
Hypothesis node_order_perm : ∀ ns, node_order ns ≡ₚ (map_to_list ns).*1.

(** *** Select subset of nodes to balance *)

(** The map of nodes holds the normal nodes of the datacenter, each with
    its shard count, as many empty shards, and no tablet. *)
Lemma select_nodes_spec nsA :
  for_each (select_node plan_dc) (map_to_list (get_topology tm)) ∅ = Next nsA →
  (∀ h n, nsA !! h = Some n →
     ∃ nd, get_topology tm !! h = Some nd
           ∧ get_state nd = normal ∧ dc (dc_rack nd) = plan_dc
           ∧ get_shard_count nd ≠ 0%nat
           ∧ node_load.shard_count n = get_shard_count nd
           ∧ node_load.tablet_count n = 0
           ∧ node_load.shards_by_load n = []
           ∧ node_load.shards n = replicate (get_shard_count nd) shard_load.empty)
  ∧ (∀ h nd, get_topology tm !! h = Some nd →
       get_state nd = normal → dc (dc_rack nd) = plan_dc → is_Some (nsA !! h)).
Proof.
  intros Hrun.
  apply (for_each_prefix_invariant
           (fun pre acc =>
              (∀ h n, acc !! h = Some n →
                 ∃ nd, get_topology tm !! h = Some nd
                       ∧ get_state nd = normal ∧ dc (dc_rack nd) = plan_dc
                       ∧ get_shard_count nd ≠ 0%nat
                       ∧ node_load.shard_count n = get_shard_count nd
                       ∧ node_load.tablet_count n = 0
                       ∧ node_load.shards_by_load n = []
                       ∧ node_load.shards n
                         = replicate (get_shard_count nd) shard_load.empty)
              ∧ (∀ h nd, (h, nd) ∈ pre →
                   get_state nd = normal → dc (dc_rack nd) = plan_dc →
                   is_Some (acc !! h)))) in Hrun as [H1 H2].
  - split; [done|]. intros h nd Hnd. apply H2. by apply elem_of_map_to_list.
  - split; [intros h n; by rewrite lookup_empty|]. by intros h nd ?%elem_of_nil.
  - intros pre [h nd] acc acc' Hin [H1 H2] Hb.
    apply elem_of_map_to_list in Hin.
    unfold select_node in Hb. simpl in Hb.
    destruct (decide (get_state nd = normal ∧ dc (dc_rack nd) = plan_dc))
      as [[Hst Hdc]|Hnot].
    + destruct (decide (get_shard_count nd = 0%nat)) as [|Hsc]; simplify_eq.
      split.
      * intros h' n. destruct (decide (h' = h)) as [->|Hne]; upd_simpl;
          [|by apply H1].
        intros [= <-]. exists nd.
        assert (node_load.tablet_count (acc !!! h) = 0
                ∧ node_load.shards_by_load (acc !!! h) = []
                ∧ resize (get_shard_count nd) shard_load.empty
                    (node_load.shards (acc !!! h))
                  = replicate (get_shard_count nd) shard_load.empty)
          as (Htc & Hsbl & Hsh).
        { destruct (acc !! h) as [n0|] eqn:Hn0.
          - rewrite (lookup_total_Some _ _ _ Hn0).
            destruct (H1 _ _ Hn0) as (nd' & ? & _ & _ & _ & _ & ? & ? & Hs).
            simplify_eq. rewrite Hs. by rewrite resize_replicate.
          - rewrite (lookup_total_None _ _ Hn0). simpl. by rewrite resize_nil. }
        by split_and!.
      * intros h' nd' [Hpre|?]%elem_of_snoc ??.
        -- destruct (decide (h' = h)) as [->|Hne]; upd_simpl; [by eauto|].
           by apply (H2 h' nd').
        -- simplify_eq. upd_simpl. by eauto.
    + simplify_eq. split; [done|].
      intros h' nd' [Hpre|?]%elem_of_snoc ??; [by apply (H2 h' nd')|].
      simplify_eq. by destruct Hnot.
Qed.

Lemma select_nodes_Next :
  ¬ zero_shard_node tm plan_dc →
  ∃ nsA, for_each (select_node plan_dc) (map_to_list (get_topology tm)) ∅ = Next nsA.
Proof.
  intros Hz.
  destruct (for_each_safe (fun _ => True) (select_node plan_dc)
              (map_to_list (get_topology tm)) ∅ I) as [(nsA & H & _)|[p H]].
  - intros [h nd] s Hin%elem_of_map_to_list _. left.
    unfold select_node. simpl. case_decide as Hdc; [|by eauto].
    case_decide as Hsc; [|by eauto].
    destruct Hz. exists h, nd. by destruct Hdc.
  - by eauto.
  - apply for_each_Return in H as (a & s & _ & H).
    destruct (select_node_flow plan_dc a s) as [[? ?]|[? ?]]; congruence.
Qed.

(** *** Compute tablet load on nodes *)

Lemma count_tables_flat ns :
  for_each count_table (map_to_list (all_tables tm)) ns
  = for_each (fun gr => count_replica gr.1 gr.2) (all_replicas tm) ns.
Proof.
  unfold all_replicas. rewrite <- for_each_bind. apply for_each_ext.
  intros tbl s. unfold count_table. rewrite <- for_each_bind. apply for_each_ext.
  intros t s'. unfold count_tablet. by rewrite for_each_fmap.
Qed.

Lemma count_replicas_spec L ns nsB :
  (∀ h n, ns !! h = Some n → node_load.tablet_count n = 0) →
  for_each (fun gr => count_replica gr.1 gr.2) L ns = Next nsB →
  (∀ h, nsB !! h
        = (fun n => node_load.set_tablet_count (wrap64 (count_host h L)) n)
            <$> ns !! h)
  ∧ (∀ g r n, (g, r) ∈ L → ns !! host r = Some n →
       (shard r < node_load.shard_count n)%nat).
Proof.
  intros Hz Hrun.
  apply (for_each_prefix_invariant
           (fun pre acc =>
              (∀ h, acc !! h
                    = (fun n => node_load.set_tablet_count
                                  (wrap64 (count_host h pre)) n) <$> ns !! h)
              ∧ (∀ g r n, (g, r) ∈ pre → ns !! host r = Some n →
                   (shard r < node_load.shard_count n)%nat))) in Hrun; [done| |].
  - split; [|by intros g r n ?%elem_of_nil].
    intros h. destruct (ns !! h) as [n|] eqn:Hn; [|done]. simpl.
    change (wrap64 (count_host h [])) with 0.
    by rewrite <- (Hz _ _ Hn), set_tablet_count_id.
  - intros pre [g r] acc acc' _ [H1 H2] Hb. unfold count_replica in Hb.
    simpl in Hb.
    destruct (decide (is_Some (acc !! host r))) as [[n Hn]|Hnone].
    + case_decide as Hsh; simplify_eq. apply Nat.nle_gt in Hsh.
      rewrite upd_node_total_eq in Hsh. simpl in Hsh.
      pose proof Hn as Hn'. rewrite H1 in Hn'.
      destruct (ns !! host r) as [n0|] eqn:Hn0; simpl in Hn'; [|done].
      injection Hn' as Hn'. rewrite (lookup_total_Some _ _ _ Hn) in Hsh.
      subst n. simpl in Hsh.
      split.
      * intros h. rewrite count_host_snoc.
        destruct (decide (host r = h)) as [<-|Hne]; upd_simpl.
        -- rewrite (lookup_total_Some _ _ _ Hn), Hn0. simpl.
           unfold node_load.set_tablet_count. simpl. by rewrite wrap64_add_l.
        -- rewrite H1. by rewrite Z.add_0_r.
      * intros g' r' n' [Hpre|?]%elem_of_snoc Hn''; [by eapply H2|].
        by simplify_eq.
    + simplify_eq. split.
      * intros h. rewrite count_host_snoc.
        destruct (decide (host r = h)) as [<-|Hne].
        -- rewrite H1. rewrite H1 in Hnone. destruct (ns !! host r); [|done].
           destruct Hnone. by eexists.
        -- rewrite H1. by rewrite Z.add_0_r.
      * intros g' r' n' [Hpre|?]%elem_of_snoc Hn'; [by eapply H2|].
        simplify_eq. rewrite H1, Hn' in Hnone. destruct Hnone. by eexists.
Qed.

Lemma count_replicas_Next L (ns : gmap N node_load.t) :
  (∀ g r n, (g, r) ∈ L → ns !! host r = Some n →
     (shard r < node_load.shard_count n)%nat) →
  ∃ nsB, for_each (fun gr => count_replica gr.1 gr.2) L ns = Next nsB.
Proof.
  intros Hok.
  destruct (for_each_safe
              (fun acc : gmap N node_load.t =>
                 ∀ h n, acc !! h = Some n →
                   ∃ n0, ns !! h = Some n0
                         ∧ node_load.shard_count n = node_load.shard_count n0)
              (fun gr => count_replica gr.1 gr.2) L ns)
    as [(nsB & H & _)|[p H]].
  - by eauto.
  - intros [g r] acc Hin Hacc. left. unfold count_replica. simpl.
    destruct (decide (is_Some (acc !! host r))) as [[n Hn]|Hnone]; [|by eauto].
    destruct (Hacc _ _ Hn) as (n0 & Hn0 & Hsc).
    rewrite decide_False.
    + eexists. split; [done|]. intros h n'.
      destruct (decide (h = host r)) as [->|Hne]; upd_simpl; [|by apply Hacc].
      intros [= <-]. rewrite (lookup_total_Some _ _ _ Hn). by eauto.
    + upd_simpl. rewrite (lookup_total_Some _ _ _ Hn). simpl.
      specialize (Hok _ _ _ Hin Hn0). lia.
  - by eauto.
  - apply for_each_Return in H as ([g r] & s & _ & H).
    destruct (count_replica_flow g r s) as [[? ?]|[? ?]]; simpl in *; congruence.
Qed.

(** The map of nodes after the scan of the tablets. *)
Lemma compute_node_loads_spec nsB :
  compute_node_loads tm plan_dc = Next nsB →
  (∀ h n, nsB !! h = Some n →
     ∃ nd, get_topology tm !! h = Some nd
           ∧ get_state nd = normal ∧ dc (dc_rack nd) = plan_dc
           ∧ get_shard_count nd ≠ 0%nat
           ∧ node_load.shard_count n = get_shard_count nd
           ∧ node_load.tablet_count n = wrap64 (count_host h (all_replicas tm))
           ∧ node_load.shards_by_load n = []
           ∧ node_load.shards n = replicate (get_shard_count nd) shard_load.empty)
  ∧ (∀ h nd, get_topology tm !! h = Some nd →
       get_state nd = normal → dc (dc_rack nd) = plan_dc → is_Some (nsB !! h))
  ∧ (∀ g r n, r ∈ replicas_of tm g → nsB !! host r = Some n →
       (shard r < node_load.shard_count n)%nat).
Proof.
  unfold compute_node_loads. intros H.
  apply bind_Next in H as (nsA & HA & HB).
  apply select_nodes_spec in HA as [A1 A2].
  rewrite count_tables_flat in HB.
  apply count_replicas_spec in HB as [B1 B2].
  2:{ intros h n Hn. by destruct (A1 _ _ Hn) as (? & _ & _ & _ & _ & _ & ? & _). }
  split_and!.
  - intros h n Hn. rewrite B1 in Hn.
    destruct (nsA !! h) as [n0|] eqn:Hn0; simpl in Hn; simplify_eq.
    destruct (A1 _ _ Hn0) as (nd & ? & ? & ? & ? & ? & ? & ? & ?).
    exists nd. by split_and!.
  - intros h nd Hnd Hst Hdc. rewrite B1.
    destruct (A2 _ _ Hnd Hst Hdc) as [n ->]. by eexists.
  - intros g r n Hr%elem_of_all_replicas Hn. rewrite B1 in Hn.
    destruct (nsA !! host r) as [n0|] eqn:Hn0; simpl in Hn; simplify_eq. simpl.
    by eapply B2.
Qed.

(** Phases A and B throw exactly for an invalid topology. *)
Lemma compute_node_loads_Throw :
  zero_shard_node tm plan_dc ∨ nonexistent_shard_replica tm plan_dc →
  ∃ e, compute_node_loads tm plan_dc = Throw e.
Proof.
  intros Hinv.
  destruct (compute_node_loads_flow tm plan_dc) as [[nsB H]|H]; [|done].
  exfalso. apply compute_node_loads_spec in H as (H1 & H2 & H3).
  destruct Hinv as [(h & nd & Hnd & Hst & Hdc & Hz)|(t & r & nd & Hr & Hnd & Hst & Hdc & Hsh)].
  - destruct (H2 _ _ Hnd Hst Hdc) as [n Hn].
    destruct (H1 _ _ Hn) as (nd' & ? & _ & _ & ? & _). by simplify_eq.
  - destruct (H2 _ _ Hnd Hst Hdc) as [n Hn].
    destruct (H1 _ _ Hn) as (nd' & ? & _ & _ & _ & Hsc & _). simplify_eq.
    specialize (H3 _ _ _ Hr Hn). lia.
Qed.

Lemma compute_node_loads_Next :
  ¬ zero_shard_node tm plan_dc →
  ¬ nonexistent_shard_replica tm plan_dc →
  ∃ nsB, compute_node_loads tm plan_dc = Next nsB.
Proof.
  intros Hz Hs. unfold compute_node_loads.
  destruct (select_nodes_Next Hz) as [nsA HA]. rewrite HA. cbn.
  rewrite count_tables_flat. apply count_replicas_Next.
  intros g r n Hr%elem_of_all_replicas Hn.
  apply select_nodes_spec in HA as [A1 _].
  destruct (A1 _ _ Hn) as (nd & ? & ? & ? & _ & -> & _).
  apply Nat.nle_gt. intros Hle. apply Hs. by exists g, r, nd.
Qed.

(** *** Compute per-shard load and candidate tablets *)

(** What the scan does with one replica. *)
Lemma collect_replica_step g r ns ns' :
  collect_replica g r ns = Next ns' →
  (ns !! host r = None ∧ ns' = ns)
  ∨ ∃ n info n',
      ns !! host r = Some n
      ∧ node_load.shards n !! shard r = Some info
      ∧ ns' = <[host r := n']> ns
      ∧ node_load.shard_count n' = node_load.shard_count n
      ∧ node_load.tablet_count n' = node_load.tablet_count n
      ∧ node_load.avg_load n' = node_load.avg_load n
      ∧ node_load.shards_by_load n'
        = (if decide (shard_load.tablet_count info = 0)
           then node_load.shards_by_load n ++ [shard r]
           else node_load.shards_by_load n)
      ∧ node_load.shards n'
        = <[shard r := emplace_candidate g (add_shard_tablets 1 info)]>
            (node_load.shards n).
Proof.
  unfold collect_replica. intros H.
  destruct (decide (is_Some (ns !! host r))) as [[n Hn]|Hnone].
  - rewrite (lookup_total_Some _ _ _ Hn) in H.
    destruct (node_load.shards n !! shard r) as [info|] eqn:Hinfo; [|done].
    right. exists n, info.
    injection H as <-. unfold upd_shard. rewrite upd_node_compose.
    pose proof (lookup_lt_Some _ _ _ Hinfo) as Hlt.
    destruct (decide (shard_load.tablet_count info = 0)).
    + rewrite upd_node_compose. unfold upd_node.
      rewrite (lookup_total_Some _ _ _ Hn).
      eexists. split; [done|]. split; [done|]. split; [done|]. simpl.
      split_and!; try done.
      rewrite list_lookup_total_insert_eq by done.
      rewrite list_insert_insert_eq.
      by rewrite (list_lookup_total_correct _ _ _ Hinfo).
    + unfold upd_node. rewrite (lookup_total_Some _ _ _ Hn).
      eexists. split; [done|]. split; [done|]. split; [done|]. simpl.
      split_and!; try done.
      rewrite list_lookup_total_insert_eq by done.
      rewrite list_insert_insert_eq.
      by rewrite (list_lookup_total_correct _ _ _ Hinfo).
  - left. split; [|by simplify_eq].
    destruct (ns !! host r); [|done]. destruct Hnone. by eexists.
Qed.

(** The scan keeps the nodes, their counts and the length of their
    vectors of shards; it adds to the shards of a node the replicas met on
    that node, lists only shards of the vector in [shards_by_load], and
    makes candidates only of tablets that have a replica on the node. *)
Lemma collect_replicas_spec L (ns ns' : gmap N node_load.t) :
  for_each (fun gr => collect_replica gr.1 gr.2) L ns = Next ns' →
  (∀ h, ns !! h = None → ns' !! h = None)
  ∧ ∀ h n, ns !! h = Some n →
      ∃ n', ns' !! h = Some n'
            ∧ node_load.shard_count n' = node_load.shard_count n
            ∧ node_load.tablet_count n' = node_load.tablet_count n
            ∧ node_load.avg_load n' = node_load.avg_load n
            ∧ length (node_load.shards n') = length (node_load.shards n)
            ∧ wrap64 (shards_sum (node_load.shards n'))
              = wrap64 (shards_sum (node_load.shards n) + count_host h L)
            ∧ (∀ s, s ∈ node_load.shards_by_load n' →
                 s ∈ node_load.shards_by_load n
                 ∨ (s < length (node_load.shards n))%nat)
            ∧ (∀ s t, t ∈ shard_load.candidates (node_load.shards n' !!! s) →
                 t ∈ shard_load.candidates (node_load.shards n !!! s)
                 ∨ ∃ r, (t, r) ∈ L ∧ host r = h).
Proof.
  apply (for_each_prefix_invariant
           (fun pre acc =>
              (∀ h, ns !! h = None → acc !! h = None)
              ∧ ∀ h n, ns !! h = Some n →
                  ∃ n', acc !! h = Some n'
                    ∧ node_load.shard_count n' = node_load.shard_count n
                    ∧ node_load.tablet_count n' = node_load.tablet_count n
                    ∧ node_load.avg_load n' = node_load.avg_load n
                    ∧ length (node_load.shards n') = length (node_load.shards n)
                    ∧ wrap64 (shards_sum (node_load.shards n'))
                      = wrap64 (shards_sum (node_load.shards n) + count_host h pre)
                    ∧ (∀ s, s ∈ node_load.shards_by_load n' →
                         s ∈ node_load.shards_by_load n
                         ∨ (s < length (node_load.shards n))%nat)
                    ∧ (∀ s t, t ∈ shard_load.candidates (node_load.shards n' !!! s) →
                         t ∈ shard_load.candidates (node_load.shards n !!! s)
                         ∨ ∃ r, (t, r) ∈ pre ∧ host r = h))).
  - split; [done|]. intros h n Hn. exists n. split_and!; try done.
    + by rewrite Z.add_0_r.
    + by left.
    + by left.
  - intros pre [g r] acc acc' _ [Hnone Hsome] Hb. simpl in Hb.
    apply collect_replica_step in Hb
      as [[Hr ->]|(n1 & info & n2 & Hn1 & Hinfo & -> & Hsc & Htc & Havg & Hsbl & Hsh)].
    + split; [done|]. intros h n Hn.
      destruct (Hsome _ _ Hn) as (n' & Hn' & ? & ? & ? & ? & Hsum & ? & Hcand).
      exists n'. split_and!; try done.
      * rewrite count_host_snoc. case_decide; [by simplify_eq|].
        by rewrite Z.add_0_r.
      * intros s t Ht. destruct (Hcand _ _ Ht) as [?|(r' & ? & ?)]; [by left|].
        right. exists r'. split; [|done]. apply elem_of_app. by left.
    + split.
      { intros h Hh. destruct (decide (h = host r)) as [->|Hne].
        - rewrite (Hnone _ Hh) in Hn1. done.
        - rewrite lookup_insert_ne by done. by apply Hnone. }
      intros h n Hn.
      destruct (Hsome _ _ Hn) as (n' & Hn' & ? & ? & ? & Hlen & Hsum & Hwf & Hcand).
      destruct (decide (h = host r)) as [->|Hne].
      * simplify_eq. exists n2. rewrite lookup_insert_eq.
        pose proof (lookup_lt_Some _ _ _ Hinfo) as Hlt.
        split_and!; try congruence.
        -- rewrite Hsh, length_insert. done.
        -- rewrite Hsh, (shards_sum_insert _ _ _ _ Hinfo), count_host_snoc.
           rewrite decide_True by done. simpl. rewrite Z.add_assoc.
           by apply wrap64_step.
        -- intros s. rewrite Hsbl. case_decide; [|by apply Hwf].
           intros [?| ->]%elem_of_snoc; [by apply Hwf|]. right. lia.
        -- intros s t. rewrite Hsh, list_lookup_total_insert.
           destruct (decide (shard r = s ∧ _)) as [Hs|Hs].
           ++ destruct Hs as [<- _]. simpl.
              intros [->|Ht]%elem_of_emplace.
              ** right. exists r. split; [|done]. apply elem_of_app. right. by left.
              ** rewrite <- (list_lookup_total_correct _ _ _ Hinfo) in Ht.
                 destruct (Hcand _ _ Ht) as [?|(r' & ? & ?)]; [by left|].
                 right. exists r'. split; [|done]. apply elem_of_app. by left.
           ++ intros Ht. destruct (Hcand _ _ Ht) as [?|(r' & ? & ?)]; [by left|].
              right. exists r'. split; [|done]. apply elem_of_app. by left.
      * exists n'. rewrite lookup_insert_ne by done. split_and!; try done.
        -- rewrite count_host_snoc. rewrite decide_False by done.
           by rewrite Z.add_0_r.
        -- intros s t Ht. destruct (Hcand _ _ Ht) as [?|(r' & ? & ?)]; [by left|].
           right. exists r'. split; [|done]. apply elem_of_app. by left.
Qed.

Lemma upd_node_is_Some h f (m : gmap N node_load.t) h' :
  is_Some (m !! h') → is_Some (upd_node h f m !! h').
Proof.
  intros Hs. destruct (decide (h = h')) as [->|]; upd_simpl; by eauto.
Qed.

Lemma shards_in_range_upd_node (f : node_load.t → node_load.t) h
    (m : gmap N node_load.t) :
  (∀ x, length (node_load.shards (f x)) = length (node_load.shards x)) →
  (∀ g r n, r ∈ replicas_of tm g → m !! host r = Some n →
     (shard r < length (node_load.shards n))%nat) →
  is_Some (m !! h) →
  ∀ g r n, r ∈ replicas_of tm g → upd_node h f m !! host r = Some n →
    (shard r < length (node_load.shards n))%nat.
Proof.
  intros Hf Hm [x Hx] g0 r0 n0 Hr0.
  destruct (decide (host r0 = h)) as [<-|Hne]; upd_simpl; [|by apply (Hm g0)].
  intros [= <-]. rewrite Hf, (lookup_total_Some _ _ _ Hx). by apply (Hm g0).
Qed.

Lemma collect_tables_inv l ns ns' :
  for_each collect_table l ns = Next ns' →
  (∀ tbl, tbl ∈ l → transitions tbl.2 = [])
  ∧ for_each (fun tbl => for_each (collect_tablet tbl.1) (for_each_tablet tbl.2)) l ns
    = Next ns'.
Proof.
  revert ns; induction l as [|tbl l IH]; intros ns H; cbn in *.
  - split; [|done]. by intros tbl ?%elem_of_nil.
  - apply bind_Next in H as (ns1 & Hb & H). apply IH in H as [Hall H].
    unfold collect_table in Hb. destruct (decide (transitions tbl.2 ≠ [])) as [|Hnil];
      [done|].
    rewrite Hb. cbn. split; [|done].
    intros tbl' [->|?]%elem_of_cons; [|by apply Hall].
    by destruct (transitions tbl.2) eqn:?; [|destruct Hnil].
Qed.

(** Without pending transitions the second scan is a loop over the
    replicas, in the order of the first. *)
Lemma collect_candidates_Next ns ns' :
  collect_candidates tm ns = Next ns' →
  ¬ pending_transitions tm
  ∧ for_each (fun gr => collect_replica gr.1 gr.2) (all_replicas tm) ns = Next ns'.
Proof.
  unfold collect_candidates. intros H. apply collect_tables_inv in H as [Hall H].
  split.
  - intros (t & tmap & Ht & Hne). apply Hne.
    apply (Hall (t, tmap)). by apply elem_of_map_to_list.
  - rewrite <- H. unfold all_replicas. rewrite <- for_each_bind. apply for_each_ext.
    intros tbl s. rewrite <- for_each_bind. apply for_each_ext.
    intros t s'. unfold collect_tablet. by rewrite for_each_fmap.
Qed.

(** When every replica on a node of the map is on a shard of that node,
    the second scan does not throw. *)
Lemma collect_candidates_safe (ns : gmap N node_load.t) :
  (∀ g r n, r ∈ replicas_of tm g → ns !! host r = Some n →
     (shard r < length (node_load.shards n))%nat) →
  (∃ ns', collect_candidates tm ns = Next ns')
  ∨ collect_candidates tm ns = Return [].
Proof.
  intros Hsafe. unfold collect_candidates.
  destruct (for_each_safe
              (fun acc : gmap N node_load.t =>
                 ∀ g r n, r ∈ replicas_of tm g → acc !! host r = Some n →
                   (shard r < length (node_load.shards n))%nat)
              collect_table (map_to_list (all_tables tm)) ns Hsafe)
    as [(ns' & H & _)|[p H]].
  - intros [t tmap] acc Htbl%elem_of_map_to_list Hacc.
    unfold collect_table. simpl. case_decide; [by eauto|]. left.
    apply (for_each_Next_invariant _ _ _ _ Hacc).
    intros [tid ti] acc1 Hti Hacc1. unfold collect_tablet. simpl.
    apply (for_each_Next_invariant _ _ _ _ Hacc1).
    intros r acc2 Hr Hacc2.
    assert (r ∈ replicas_of tm {| table := t; tablet := tid |}) as Hr'.
    { unfold replicas_of. simpl. rewrite Htbl.
      apply elem_of_lookup_imap in Hti as (i & ti' & ? & Hti'). simplify_eq.
      by rewrite Hti'. }
    unfold collect_replica.
    destruct (decide (is_Some (acc2 !! host r))) as [[n Hn]|Hnone]; [|by eauto].
    rewrite (lookup_total_Some _ _ _ Hn).
    pose proof (Hacc2 _ _ _ Hr' Hn) as Hlt.
    destruct (lookup_lt_is_Some_2 _ _ Hlt) as [info Hinfo]. rewrite Hinfo.
    eexists. split; [done|].
    unfold upd_shard.
    apply shards_in_range_upd_node;
      [intros x; unfold node_load.upd_shard; simpl; by rewrite length_insert| |].
    2:{ apply upd_node_is_Some. case_decide; [apply upd_node_is_Some|]; by eauto. }
    apply shards_in_range_upd_node;
      [intros x; unfold node_load.upd_shard; simpl; by rewrite length_insert| |].
    2:{ case_decide; [apply upd_node_is_Some|]; by eauto. }
    case_decide; [|done]. apply shards_in_range_upd_node; [done|done|by eauto].
  - by eauto.
  - right. rewrite H. f_equal.
    by apply (collect_candidates_Return tm ns p) in H as [-> _].
Qed.

End scans.

(** ** The state in which the selection loop is entered *)

Lemma candidates_replicate c s :
  shard_load.candidates (replicate c shard_load.empty !!! s) = [].
Proof.
  rewrite list_lookup_total_alt.
  destruct (replicate c shard_load.empty !! s) as [x|] eqn:Hx; [|done].
  by apply lookup_replicate in Hx as [-> _].
Qed.

Section entry.

Variable make_heap : ∀ A : Type, (A → A → bool) → list A → list A.
Hypothesis make_heap_perm : ∀ A comp (l : list A), make_heap A comp l ≡ₚ l.
Variable tm : token_metadata.
Variable plan_dc : string.
Variable node_order : gmap N node_load.t → list N.
Hypothesis node_order_perm : ∀ ns, node_order ns ≡ₚ (map_to_list ns).*1.

(** After the second scan: the count of every node is the sum of the
    counts of its shards, [shards_by_load] lists shards of the vector, and
    the candidates of a shard are tablets with a replica on the node. *)
Lemma after_collect ns nsD :
  compute_node_loads tm plan_dc = Next ns →
  collect_candidates tm (compute_imbalance node_order ns).1 = Next nsD →
  (∀ h, ns !! h = None → nsD !! h = None)
  ∧ ∀ h n, ns !! h = Some n →
      ∃ n', nsD !! h = Some n'
            ∧ node_load.tablet_count n' = shards_total n'
            ∧ (∀ s, s ∈ node_load.shards_by_load n' →
                 (s < length (node_load.shards n'))%nat)
            ∧ (∀ s t, t ∈ shard_load.candidates (node_load.shards n' !!! s) →
                 ∃ r, r ∈ replicas_of tm t ∧ host r = h).
Proof.
  intros Hns HD. apply collect_candidates_Next in HD as [_ HD].
  apply collect_replicas_spec in HD as [Hnone Hsome].
  destruct (compute_imbalance_spec node_order node_order_perm ns) as (Heq & _). rewrite Heq in *.
  apply compute_node_loads_spec in Hns as (N1 & _ & _).
  split.
  - intros h Hh. apply Hnone. by rewrite lookup_fmap, Hh.
  - intros h n Hn.
    destruct (N1 _ _ Hn) as (nd & _ & _ & _ & _ & _ & Htc & Hsbl & Hsh).
    destruct (Hsome h (node_load.update n)) as
      (n' & Hn' & _ & Htc' & _ & Hlen & Hsum & Hwf & Hcand).
    { by rewrite lookup_fmap, Hn. }
    simpl in *. exists n'. split_and!; try done.
    + rewrite shards_total_sum, Hsum, Hsh, shards_sum_replicate, Htc', Htc.
      by rewrite Z.add_0_l.
    + intros s Hs. rewrite Hlen.
      destruct (Hwf _ Hs) as [Hin|?]; [|done]. rewrite Hsbl in Hin.
      by apply elem_of_nil in Hin.
    + intros s t Ht. destruct (Hcand _ _ Ht) as [Hin|(r & Hr%elem_of_all_replicas & ?)].
      * rewrite Hsh, candidates_replicate in Hin. by apply elem_of_nil in Hin.
      * by exists r.
Qed.

(** Making the heaps permutes [shards_by_load] in every node and lists
    the nodes of the map in [nodes_by_load]. *)
Lemma prepare_heaps_spec (ns : gmap N node_load.t) :
  (∀ h, ns !! h = None → (prepare_heaps make_heap ns).1 !! h = None)
  ∧ (∀ h n, ns !! h = Some n →
       ∃ n', (prepare_heaps make_heap ns).1 !! h = Some n'
             ∧ node_load.tablet_count n' = node_load.tablet_count n
             ∧ node_load.shards n' = node_load.shards n
             ∧ node_load.shards_by_load n' ≡ₚ node_load.shards_by_load n)
  ∧ (∀ h, h ∈ (prepare_heaps make_heap ns).2 → is_Some (ns !! h)).
Proof.
  unfold prepare_heaps. cbv zeta. simpl.
  assert ((∀ h, ns !! h = None →
             (foldl (heapify_node make_heap) (ns, []) (map_to_list ns).*1).1 !! h = None)
          ∧ (∀ h n, ns !! h = Some n →
               ∃ n', (foldl (heapify_node make_heap) (ns, [])
                        (map_to_list ns).*1).1 !! h = Some n'
                     ∧ node_load.tablet_count n' = node_load.tablet_count n
                     ∧ node_load.shards n' = node_load.shards n
                     ∧ node_load.shards_by_load n' ≡ₚ node_load.shards_by_load n)
          ∧ (foldl (heapify_node make_heap) (ns, []) (map_to_list ns).*1).2
            = (map_to_list ns).*1) as (H1 & H2 & H3).
  { apply (foldl_prefix_invariant
             (fun pre (acc : gmap N node_load.t * list N) =>
                (∀ h, ns !! h = None → acc.1 !! h = None)
                ∧ (∀ h n, ns !! h = Some n →
                     ∃ n', acc.1 !! h = Some n'
                           ∧ node_load.tablet_count n' = node_load.tablet_count n
                           ∧ node_load.shards n' = node_load.shards n
                           ∧ node_load.shards_by_load n'
                             ≡ₚ node_load.shards_by_load n)
                ∧ acc.2 = pre)).
    - split_and!; [done| |done]. intros h n Hn. by exists n.
    - intros pre x [acc nbl] Hx (H1 & H2 & H3). simpl in *.
      apply list_elem_of_fmap in Hx as ([x' nx] & -> & Hx%elem_of_map_to_list).
      simpl. split_and!.
      + intros h Hh. destruct (decide (h = x')) as [->|]; [congruence|].
        upd_simpl. by apply H1.
      + intros h n Hn. destruct (H2 _ _ Hn) as (n' & Hn' & ? & ? & ?).
        destruct (decide (h = x')) as [->|]; upd_simpl; [|by exists n'].
        rewrite (lookup_total_Some _ _ _ Hn'). eexists. split; [done|].
        simpl. split_and!; try done. by rewrite make_heap_perm.
      + by rewrite H3. }
  split_and!; try done.
  intros h. rewrite make_heap_perm, H3.
  intros ([h' n] & -> & Hn%elem_of_map_to_list)%list_elem_of_fmap. by eexists.
Qed.

(** The state in which the loop is entered. *)
Lemma prepare_entry target target_node st0 :
  prepare make_heap tm plan_dc node_order = Next (target, target_node, st0) →
  plan st0 = []
  ∧ (∀ h, node_load.tablet_count (nodes st0 !!! h) = shards_total (nodes st0 !!! h))
  ∧ (∀ h, h ∈ nodes_by_load st0 →
       ∃ nd, get_topology tm !! h = Some nd ∧ dc (dc_rack nd) = plan_dc)
  ∧ (∀ h s, s ∈ node_load.shards_by_load (nodes st0 !!! h) →
       (s < length (node_load.shards (nodes st0 !!! h)))%nat)
  ∧ (∀ h s t, t ∈ candidates_at (nodes st0) h s →
       ∃ r, r ∈ replicas_of tm t ∧ host r = h).
Proof.
  intros (ns & nsD & Hns & _ & _ & _ & HD & ->)%prepare_Next.
  cbn [nodes nodes_by_load plan].
  destruct (after_collect _ _ Hns HD) as [Dnone Dsome].
  destruct (prepare_heaps_spec nsD) as (Enone & Esome & Enbl).
  assert (∀ h, (∃ n nD nE,
                  ns !! h = Some n ∧ nsD !! h = Some nD
                  ∧ (prepare_heaps make_heap nsD).1 !!! h = nE
                  ∧ node_load.tablet_count nE = node_load.tablet_count nD
                  ∧ node_load.shards nE = node_load.shards nD
                  ∧ node_load.shards_by_load nE ≡ₚ node_load.shards_by_load nD)
               ∨ (ns !! h = None
                  ∧ (prepare_heaps make_heap nsD).1 !!! h = node_load.empty))
    as Hcase.
  { intros h. destruct (ns !! h) as [n|] eqn:Hn.
    - left. destruct (Dsome _ _ Hn) as (nD & HnD & _).
      destruct (Esome _ _ HnD) as (nE & HnE & ? & ? & ?).
      exists n, nD, nE. split_and!; try done. by apply lookup_total_Some.
    - right. split; [done|]. apply lookup_total_None. by apply Enone, Dnone. }
  split_and!; try done.
  - intros h. destruct (Hcase h) as [(n & nD & nE & Hn & HnD & -> & Htc & Hsh & _)|[_ ->]];
      [|done].
    destruct (Dsome _ _ Hn) as (nD' & ? & HtcD & _). simplify_eq.
    rewrite Htc, HtcD. unfold shards_total. by rewrite Hsh.
  - intros h [nD HnD]%Enbl.
    destruct (ns !! h) as [n|] eqn:Hn; [|by rewrite (Dnone _ Hn) in HnD].
    apply compute_node_loads_spec in Hns as (N1 & _ & _).
    destruct (N1 _ _ Hn) as (nd & ? & _ & ? & _). by exists nd.
  - intros h s.
    destruct (Hcase h) as [(n & nD & nE & Hn & HnD & -> & _ & Hsh & Hsbl)|[_ ->]];
      [|by intros ?%elem_of_nil].
    destruct (Dsome _ _ Hn) as (nD' & ? & _ & Hwf & _). simplify_eq.
    rewrite Hsbl, Hsh. apply Hwf.
  - intros h s t. unfold candidates_at.
    destruct (Hcase h) as [(n & nD & nE & Hn & HnD & -> & _ & Hsh & _)|[_ ->]].
    + destruct (Dsome _ _ Hn) as (nD' & ? & _ & _ & Hcand). simplify_eq.
      rewrite Hsh. apply Hcand.
    + simpl. by intros ?%elem_of_nil.
Qed.

End entry.

(** ** Invariants of the selection loop *)

Lemma shards_sum_insert_same (l : list shard_load.t) s (f : shard_load.t → shard_load.t) :
  (∀ x, shard_load.tablet_count (f x) = shard_load.tablet_count x) →
  shards_sum (<[s := f (l !!! s)]> l) = shards_sum l.
Proof.
  intros Hf. destruct (l !! s) as [y|] eqn:Hy.
  - rewrite (shards_sum_insert _ _ _ _ Hy), (list_lookup_total_correct _ _ _ Hy), Hf. lia.
  - rewrite list_insert_ge; [done|]. by apply lookup_ge_None.
Qed.

Lemma elem_of_removelast {A : Type} (l : list A) x : x ∈ removelast l → x ∈ l.
Proof.
  intros Hx. eapply elem_of_submseteq; [done|apply removelast_submseteq].
Qed.

Section loop_invariants.

Variables pop_heap push_heap : ∀ A : Type, (A → A → bool) → list A → list A.
Variable set_begin : list global_tablet_id → global_tablet_id.
Hypothesis pop_heap_perm : ∀ A comp (l : list A), pop_heap A comp l ≡ₚ l.
Hypothesis push_heap_perm : ∀ A comp (l : list A), push_heap A comp l ≡ₚ l.
Hypothesis set_begin_elem : ∀ c, c ≠ [] → set_begin c ∈ c.
Variable tm : token_metadata.
Variable plan_dc : string.
Variable node_order : gmap N node_load.t → list N.
Hypothesis node_order_perm : ∀ ns, node_order ns ≡ₚ (map_to_list ns).*1.
Variable target : N.
Variable target_node : node.

Abbreviation pass'' :=
  (pass pop_heap push_heap set_begin tm plan_dc target target_node).

Lemma tablet_count_moved_away s t n :
  node_load.tablet_count (moved_away pop_heap push_heap s t n)
  = wrap64 (node_load.tablet_count n + -1).
Proof. unfold moved_away. cbv zeta. by destruct (bool_decide _). Qed.

(** The count of a node is the sum of the counts of its shards; the count
    of the target is ahead of that sum by the migrations of the plan. *)
Lemma pass_counts st it :
  pass'' st it →
  (∀ h, node_load.tablet_count (nodes st !!! h)
        = wrap64 (shards_sum (node_load.shards (nodes st !!! h))
                  + (if decide (h = target)
                     then Z.of_nat (length (plan st)) else 0))) →
  ∀ h, node_load.tablet_count (nodes (state_of it) !!! h)
       = wrap64 (shards_sum (node_load.shards (nodes (state_of it) !!! h))
                 + (if decide (h = target)
                    then Z.of_nat (length (plan (state_of it))) else 0)).
Proof.
  intros Hp HJ h.
  destruct Hp as [|src_host st' _ Hn _ Hp
                 |src_host src_shard info st' _ _ _ _ _ Hn _ Hp
                 |src_host src_shard info st' _ Hn _ Hp
                 |src_host src_shard info st' Hsel _ Hne Hn _ Hp];
    simpl; rewrite ?Hn, ?Hp; try done.
  - destruct (decide (h = src_host)) as [->|]; upd_simpl; [|done].
    rewrite shards_shard_dropped. apply HJ.
  - destruct (decide (h = src_host)) as [->|]; upd_simpl; [|done].
    rewrite shards_candidate_skipped, shards_sum_insert_same by done. apply HJ.
  - destruct Hsel as (_ & _ & _ & _ & Hinfo & _).
    rewrite length_app, Nat2Z.inj_add. simpl length.
    destruct (decide (h = src_host)) as [->|Hh]; upd_simpl.
    + rewrite decide_False by done.
      rewrite tablet_count_moved_away, shards_moved_away.
      rewrite (shards_sum_insert _ _ _ _ Hinfo).
      rewrite (list_lookup_total_correct _ _ _ Hinfo). simpl.
      rewrite Z.add_0_r. symmetry. apply wrap64_step.
      rewrite (HJ src_host), decide_False by done.
      by rewrite Z.add_0_r, wrap64_wrap64.
    + destruct (decide (h = target)) as [->|]; upd_simpl.
      * simpl. rewrite (HJ target), decide_True by done.
        rewrite wrap64_add_l. f_equal. lia.
      * rewrite (HJ h), decide_False by done. done.
Qed.

(** What the loop relies on without checking it: the nodes of the heap
    are nodes of the datacenter, [shards_by_load] lists shards of the
    vector, and candidates are tablets with a replica on the node. *)
Lemma pass_well_formed st it :
  pass'' st it →
  (∀ h, h ∈ nodes_by_load st →
     ∃ nd, get_topology tm !! h = Some nd ∧ dc (dc_rack nd) = plan_dc)
  ∧ (∀ h s, s ∈ node_load.shards_by_load (nodes st !!! h) →
       (s < length (node_load.shards (nodes st !!! h)))%nat)
  ∧ (∀ h s t, t ∈ candidates_at (nodes st) h s →
       ∃ r, r ∈ replicas_of tm t ∧ host r = h) →
  (∀ h, h ∈ nodes_by_load (state_of it) →
     ∃ nd, get_topology tm !! h = Some nd ∧ dc (dc_rack nd) = plan_dc)
  ∧ (∀ h s, s ∈ node_load.shards_by_load (nodes (state_of it) !!! h) →
       (s < length (node_load.shards (nodes (state_of it) !!! h)))%nat)
  ∧ (∀ h s t, t ∈ candidates_at (nodes (state_of it)) h s →
       ∃ r, r ∈ replicas_of tm t ∧ host r = h).
Proof.
  intros Hp (W1 & W3 & W4). split_and!.
  - intros h Hh. apply W1.
    destruct Hp as [|src_host st' _ _ Hnbl _
                   |src_host src_shard info st' _ _ _ _ _ _ Hnbl _
                   |src_host src_shard info st' _ _ Hnbl _
                   |src_host src_shard info st' _ _ _ _ Hnbl _]; simpl in Hh.
    + by rewrite pop_heap_perm in Hh.
    + rewrite Hnbl in Hh. apply elem_of_removelast in Hh.
      by rewrite pop_heap_perm in Hh.
    + by rewrite Hnbl in Hh.
    + by rewrite Hnbl in Hh.
    + by eapply elem_of_submseteq.
  - intros h s.
    destruct Hp as [|src_host st' _ Hn _ _
                   |src_host src_shard info st' _ _ _ _ _ Hn _ _
                   |src_host src_shard info st' _ Hn _ _
                   |src_host src_shard info st' _ _ Hne Hn _ _];
      simpl; rewrite ?Hn; try apply W3.
    + destruct (decide (h = src_host)) as [->|]; upd_simpl; [|by apply W3].
      rewrite shards_shard_dropped. unfold shard_dropped. simpl.
      intros Hs%elem_of_removelast. rewrite pop_heap_perm in Hs. by apply W3.
    + destruct (decide (h = src_host)) as [->|]; upd_simpl; [|by apply W3].
      rewrite shards_candidate_skipped, length_insert.
      unfold candidate_skipped. simpl. rewrite push_heap_perm. simpl.
      rewrite pop_heap_perm. by apply W3.
    + destruct (decide (h = src_host)) as [->|]; upd_simpl.
      * rewrite shards_moved_away, length_insert.
        unfold moved_away. cbv zeta. destruct (bool_decide _); simpl.
        -- intros Hs%elem_of_removelast. rewrite pop_heap_perm in Hs. by apply W3.
        -- rewrite push_heap_perm. simpl. rewrite pop_heap_perm. by apply W3.
      * destruct (decide (h = target)) as [->|]; upd_simpl; by apply W3.
  - intros h s t Ht. apply (W4 h s t).
    by eapply (pass_candidates_subseteq pop_heap push_heap set_begin tm plan_dc
                 target target_node st it h s).
Qed.

Lemma last_elem {A : Type} (l : list A) :
  l ≠ [] → ∃ x, last l = Some x ∧ x ∈ l.
Proof.
  destruct l as [|x l] using rev_ind; [done|]. intros _. exists x.
  rewrite last_snoc. split; [done|]. apply elem_of_app. right. by left.
Qed.

Lemma replicas_of_lookup t r :
  r ∈ replicas_of tm t →
  ∃ tmap ti, all_tables tm !! table t = Some tmap
             ∧ tablets tmap !! tablet t = Some ti
             ∧ r ∈ replicas ti.
Proof.
  unfold replicas_of.
  destruct (all_tables tm !! table t) as [tmap|]; [|by intros ?%elem_of_nil].
  destruct (tablets tmap !! tablet t) as [ti|] eqn:Hti; [|by intros ?%elem_of_nil].
  simpl. intros Hr. by exists tmap, ti.
Qed.

Lemma scan_replicas_safe same_rack rs rl :
  (∀ r, r ∈ rs → is_Some (get_topology tm !! host r)) →
  ∃ res, scan_replicas tm plan_dc target same_rack rs rl = Next res.
Proof.
  revert rl; induction rs as [|r rs IH]; intros rl Hknown; simpl; [by eauto|].
  destruct (decide (host r = target)); [by eauto|].
  destruct same_rack.
  - apply IH. intros r' Hr'. apply Hknown. by right.
  - destruct (Hknown r) as [nd Hnd]; [by left|]. unfold get_node. rewrite Hnd. cbn.
    apply IH. intros r' Hr'. apply Hknown. by right.
Qed.

(** In a well-formed state, and with all replica hosts known to the
    topology, a pass through the body does not throw. *)
Lemma loop_body_safe st :
  replica_hosts_known tm →
  (∀ h, h ∈ nodes_by_load st →
     ∃ nd, get_topology tm !! h = Some nd ∧ dc (dc_rack nd) = plan_dc) →
  (∀ h s, s ∈ node_load.shards_by_load (nodes st !!! h) →
     (s < length (node_load.shards (nodes st !!! h)))%nat) →
  (∀ h s t, t ∈ candidates_at (nodes st) h s →
     ∃ r, r ∈ replicas_of tm t ∧ host r = h) →
  nodes_by_load st ≠ [] →
  ∃ it, loop_body pop_heap push_heap set_begin tm plan_dc target target_node st
        = Next it.
Proof.
  intros Hknown W1 W3 W4 Hne. unfold loop_body.
  destruct (last_elem (pop_heap _ (nodes_cmp (nodes st)) (nodes_by_load st)))
    as (src_host & -> & Hsrc).
  { intros Hnil. apply Hne. apply Permutation_nil_r. rewrite <- Hnil.
    by rewrite pop_heap_perm. }
  rewrite pop_heap_perm in Hsrc.
  repeat (match goal with
          | |- context [if ?c then _ else _] => destruct c; [by eauto|]
          end).
  unfold pick_candidate. upd_simpl. unfold pop_shard_heap at 1 2. simpl.
  destruct (last_elem (pop_heap _ (node_load.shards_by_load_cmp (nodes st !!! src_host))
                         (node_load.shards_by_load (nodes st !!! src_host))))
    as (src_shard & -> & Hshard).
  { intros Hnil. apply n. apply Permutation_nil_r. rewrite <- Hnil.
    by rewrite pop_heap_perm. }
  rewrite pop_heap_perm in Hshard. apply W3 in Hshard.
  destruct (lookup_lt_is_Some_2 _ _ Hshard) as [info Hinfo]. rewrite Hinfo.
  destruct (decide (shard_load.candidates info = [])) as [|Hc]; [by eauto|].
  pose proof (set_begin_elem _ Hc) as Hin.
  destruct (W4 src_host src_shard (set_begin (shard_load.candidates info)))
    as (r0 & Hr0 & Hhost).
  { unfold candidates_at. by rewrite (list_lookup_total_correct _ _ _ Hinfo). }
  destruct (W1 _ Hsrc) as (src_node & Hsn & Hdc).
  pose proof Hr0 as Hr0'.
  apply replicas_of_lookup in Hr0 as (tmap & ti & Htm & Hti & Hr0).
  unfold check_and_migrate, get_node, get_tablet_map, get_tablet_info.
  rewrite Hsn, Htm. cbn. rewrite Hti. cbn.
  assert (∀ r, r ∈ replicas ti → is_Some (get_topology tm !! host r)) as Hk.
  { intros r Hr. apply (Hknown (set_begin (shard_load.candidates info))).
    unfold replicas_of. by rewrite Htm, Hti. }
  destruct (scan_replicas_safe
              (bool_decide (rack (dc_rack target_node) = rack (dc_rack src_node)))
              (replicas ti) ∅ Hk) as [[has rl] Hscan].
  rewrite Hscan. cbn. destruct has; [by eauto|].
  case_bool_decide as Hrack; cbn; [by eauto|].
  unfold rack_load_exceeded.
  destruct (max_element _ (map_to_list rl)) as [m|] eqn:Hmax; cbn.
  { destruct (bool_decide _); by eauto. }
  exfalso. unfold max_element in Hmax.
  destruct (map_to_list rl) as [|x l] eqn:Hl; [|done].
  apply map_to_list_empty_iff in Hl. subst rl.
  pose proof (scan_replicas_rack_load tm plan_dc target _ _ _
                (rack (dc_rack src_node)) Hscan) as Hcount.
  rewrite !lookup_empty in Hcount. simpl in Hcount.
  unfold rack_count_of in Hcount.
  assert (r0 ∈ filter (fun r => Is_true (in_rack tm plan_dc (rack (dc_rack src_node)) r))
                      (replicas ti)) as Hf.
  { apply list_elem_of_filter. split; [|done].
    unfold in_rack. rewrite Hhost, Hsn.
    by rewrite !bool_decide_eq_true_2. }
  destruct (filter _ (replicas ti)); [by apply elem_of_nil in Hf|].
  simpl in Hcount. lia.
Qed.

End loop_invariants.

(** ** A valid topology *)

Section valid_topology.

Variables make_heap pop_heap push_heap :
  ∀ A : Type, (A → A → bool) → list A → list A.
Variable set_begin : list global_tablet_id → global_tablet_id.
Hypothesis make_heap_perm : ∀ A comp (l : list A), make_heap A comp l ≡ₚ l.
Hypothesis pop_heap_perm : ∀ A comp (l : list A), pop_heap A comp l ≡ₚ l.
Hypothesis push_heap_perm : ∀ A comp (l : list A), push_heap A comp l ≡ₚ l.
Hypothesis set_begin_elem : ∀ c, c ≠ [] → set_begin c ∈ c.
Variable tm : token_metadata.
Variable plan_dc : string.
Variable node_order : gmap N node_load.t → list N.
Hypothesis node_order_perm : ∀ ns, node_order ns ≡ₚ (map_to_list ns).*1.

(** With a valid topology everything up to the selection loop ends
    without an exception: at the loop, or with the empty plan. *)
Lemma prepare_valid :
  ¬ zero_shard_node tm plan_dc →
  ¬ nonexistent_shard_replica tm plan_dc →
  (∃ x, prepare make_heap tm plan_dc node_order = Next x)
  ∨ prepare make_heap tm plan_dc node_order = Return [].
Proof.
  intros Hz Hs. unfold prepare.
  destruct (compute_node_loads_Next tm plan_dc Hz Hs) as [ns Hns].
  rewrite Hns. cbn.
  destruct (load_eq _ _) eqn:Heq; [by right|].
  destruct (compute_imbalance_spec node_order node_order_perm ns) as (Hci & _ & _ & _ & Ht).
  pose proof (compute_node_loads_spec _ _ _ Hns) as (N1 & _ & N3).
  destruct (min_load_node _) as [target|].
  2:{ destruct Ht as (_ & Hmin & Hmax). rewrite Hmin, Hmax in Heq. done. }
  destruct Ht as (nt & Hnt & _).
  destruct (N1 _ _ Hnt) as (nd & -> & _).
  destruct (collect_candidates_safe tm (compute_imbalance node_order ns).1) as [[nsD ->]| ->];
    cbn; [|by eauto|by eauto].
  intros g r n Hr. rewrite Hci, lookup_fmap.
  destruct (ns !! host r) as [n0|] eqn:Hn0; simpl; [|done]. intros [= <-]. simpl.
  destruct (N1 _ _ Hn0) as (nd' & _ & _ & _ & _ & Hsc & _ & _ & ->).
  rewrite length_replicate, <- Hsc. by eapply N3.
Qed.

(** In a well-formed state the loop ends at its end. *)
Lemma selection_loop_safe target target_node fuel st :
  replica_hosts_known tm →
  (∀ h, h ∈ nodes_by_load st →
     ∃ nd, get_topology tm !! h = Some nd ∧ dc (dc_rack nd) = plan_dc)
  ∧ (∀ h s, s ∈ node_load.shards_by_load (nodes st !!! h) →
       (s < length (node_load.shards (nodes st !!! h)))%nat)
  ∧ (∀ h s t, t ∈ candidates_at (nodes st) h s →
       ∃ r, r ∈ replicas_of tm t ∧ host r = h) →
  (loop_bound st < fuel)%nat →
  ∃ st', selection_loop pop_heap push_heap set_begin tm plan_dc target target_node
           fuel st = Next st'.
Proof.
  intros Hknown. revert st; induction fuel as [|fuel IH]; intros st HW Hlt; [lia|].
  simpl. destruct (decide _) as [[_ Hne]|]; [|by eauto].
  destruct HW as (W1 & W3 & W4).
  destruct (loop_body_safe pop_heap push_heap set_begin pop_heap_perm set_begin_elem
              tm plan_dc target target_node st Hknown W1 W3 W4 Hne) as [it Hb].
  rewrite Hb. cbn.
  apply (loop_body_pass pop_heap push_heap set_begin pop_heap_perm push_heap_perm)
    in Hb.
  destruct it as [st'|st']; [by eauto|].
  apply IH.
  - by apply (pass_well_formed pop_heap push_heap set_begin pop_heap_perm
                push_heap_perm tm plan_dc target target_node st (Continue st')).
  - apply (pass_loop_bound pop_heap push_heap set_begin pop_heap_perm
             push_heap_perm set_begin_elem) in Hb. lia.
Qed.

(** With a valid topology whose replica hosts are all known, [make_plan]
    returns a plan. *)
Lemma make_plan_valid :
  replica_hosts_known tm →
  ¬ zero_shard_node tm plan_dc →
  ¬ nonexistent_shard_replica tm plan_dc →
  ∃ p, make_plan make_heap pop_heap push_heap set_begin tm plan_dc node_order = Return p.
Proof.
  intros Hknown Hz Hs. unfold make_plan.
  destruct (prepare_valid Hz Hs) as [[[[target target_node] st0] Hp]|Hp];
    rewrite Hp; [|by eexists].
  cbn -[selection_loop].
  destruct (prepare_entry make_heap make_heap_perm tm plan_dc node_order node_order_perm _ _ _ Hp)
    as (_ & _ & W1 & W3 & W4).
  destruct (selection_loop_safe target target_node (S (loop_bound st0)) st0 Hknown)
    as [st Hst]; [done|lia|].
  rewrite Hst. by eexists.
Qed.

(** Pending transitions on a valid topology: the empty plan. *)
Lemma make_plan_pending :
  pending_transitions tm →
  ¬ zero_shard_node tm plan_dc →
  ¬ nonexistent_shard_replica tm plan_dc →
  make_plan make_heap pop_heap push_heap set_begin tm plan_dc node_order = Return [].
Proof.
  intros Hpend Hz Hs. unfold make_plan.
  destruct (prepare_valid Hz Hs) as [[[[target target_node] st0] Hp]|Hp];
    rewrite Hp; [|done].
  apply prepare_Next in Hp as (ns & nsD & _ & _ & _ & _ & HD & _).
  by apply collect_candidates_Next in HD as [Hno _].
Qed.

End valid_topology.

(** * The properties of the specification *)

Section specification.

Variables make_heap pop_heap push_heap :
  ∀ A : Type, (A → A → bool) → list A → list A.
Variable set_begin : list global_tablet_id → global_tablet_id.

(** The heap primitives permute the vector they are given. *)
Hypothesis make_heap_perm : ∀ A comp (l : list A), make_heap A comp l ≡ₚ l.
Hypothesis pop_heap_perm : ∀ A comp (l : list A), pop_heap A comp l ≡ₚ l.
Hypothesis push_heap_perm : ∀ A comp (l : list A), push_heap A comp l ≡ₚ l.

(** [begin()] of a non-empty set designates one of its elements. *)
Hypothesis set_begin_elem : ∀ c, c ≠ [] → set_begin c ∈ c.

Variable tm : token_metadata.
Variable plan_dc : string.
Variable node_order : gmap N node_load.t → list N.
Hypothesis node_order_perm : ∀ ns, node_order ns ≡ₚ (map_to_list ns).*1.

Abbreviation the_plan :=
  (make_plan make_heap pop_heap push_heap set_begin tm plan_dc node_order).

(** C1. Replica non-collision: the destination host of a migration of a
    returned plan is the host of no replica that the tablet has in the
    snapshot. *)
Theorem replica_non_collision p m r :
  the_plan = Return p →
  m ∈ p →
  r ∈ replicas_of tm (mig_tablet m) →
  host r ≠ host (dst m).
Proof.
  intros Hp Hm Hr.
  apply make_plan_Return in Hp
    as [->|(target & target_node & st0 & st & Hprep & Hloop & ->)].
  { by apply elem_of_nil in Hm. }
  apply prepare_Next in Hprep as (ns & ns' & _ & _ & _ & _ & _ & ->).
  apply (selection_loop_invariant _ _ _ _ _ _ _
           (fun st => Forall (fun m =>
              host (dst m) = target
              ∧ ∀ r, r ∈ replicas_of tm (mig_tablet m) → host r ≠ target) (plan st)))
    in Hloop as Hall; [| |by constructor].
  2:{ intros ?? HI _ Hb. by eapply loop_body_no_collision. }
  rewrite Forall_forall in Hall. destruct (Hall m Hm) as [-> Hno]. by apply Hno.
Qed.


(** C3. Load-monotone: when a pass of the selection loop emits a
    migration, the load that the source node has after the move,
    [(src.tablet_count - 1) / src.shard_count], is not below the load that
    the target has after it, [(target.tablet_count + 1) / target.shard_count]. *)
Theorem load_monotone target target_node st m :
  emits pop_heap push_heap set_begin tm plan_dc target target_node st m →
  let s := nodes st !!! host (src m) in
  let d := nodes st !!! host (dst m) in
  (node_load.get_avg_load d (wrap64 (node_load.tablet_count d + 1))
   <= node_load.get_avg_load s (wrap64 (node_load.tablet_count s - 1)))%Q.
Proof.
  intros Hm. apply emits_inv in Hm as (src_host & src_shard & info & Hsel & _ & ->).
  destruct Hsel as (_ & _ & Hlt & _). simpl. by apply load_lt_false.
Qed.

(** C4. Rack diversity non-regression: a migration that is emitted from a
    node of another rack than the target's leaves some rack of the
    datacenter with at least as many replicas of the tablet as the rack of
    the target gets; and when the selected candidate has no such rack, the
    pass emits no migration. *)
Theorem rack_diversity_non_regression target target_node st :
  (∀ m src_node,
     emits pop_heap push_heap set_begin tm plan_dc target target_node st m →
     get_topology tm !! host (src m) = Some src_node →
     rack (dc_rack src_node) ≠ rack (dc_rack target_node) →
     ∃ rk, rack_count tm plan_dc (mig_tablet m) (rack (dc_rack target_node)) + 1
           ≤ rack_count tm plan_dc (mig_tablet m) rk)
  ∧ (∀ src_host src_shard info src_node,
       source_selected pop_heap target st src_host src_shard info →
       get_topology tm !! src_host = Some src_node →
       rack (dc_rack src_node) ≠ rack (dc_rack target_node) →
       (∀ rk, rack_count tm plan_dc (set_begin (shard_load.candidates info)) rk
              < rack_count tm plan_dc (set_begin (shard_load.candidates info))
                  (rack (dc_rack target_node)) + 1) →
       ∀ m, ¬ emits pop_heap push_heap set_begin tm plan_dc target target_node st m).
Proof.
  assert (∀ m src_node,
     emits pop_heap push_heap set_begin tm plan_dc target target_node st m →
     get_topology tm !! host (src m) = Some src_node →
     rack (dc_rack src_node) ≠ rack (dc_rack target_node) →
     ∃ rk, rack_count tm plan_dc (mig_tablet m) (rack (dc_rack target_node)) + 1
           ≤ rack_count tm plan_dc (mig_tablet m) rk) as Hemit.
  { intros m src_node Hm Hsn Hne.
    apply emits_inv in Hm as (src_host & src_shard & info & _ & Hpass & ->).
    simpl in *. by eapply constraints_pass_rack. }
  split; [done|].
  intros src_host src_shard info src_node Hsel Hsn Hne Hviol m Hm.
  destruct (emits_inv _ _ _ _ _ _ _ _ _ Hm)
    as (src_host' & src_shard' & info' & Hsel' & _ & Heq).
  destruct (source_selected_unique _ _ _ _ _ _ _ _ _ Hsel Hsel') as (<- & <- & <-).
  destruct (Hemit m src_node Hm) as [rk Hrk]; [by rewrite Heq|done|].
  rewrite Heq in Hrk. simpl in Hrk. specialize (Hviol rk). lia.
Qed.

(** C6. Bounded plan size: a returned plan is empty, or all its
    migrations go to one node, the target, it has at most as many
    migrations as the target has shards, and the target is the node that
    the scan of the loads selects, a node of least load.  This holds in
    whatever order the scan meets the nodes. *)
Theorem plan_size_bounded p :
  the_plan = Return p →
  p = []
  ∨ ∃ ns target target_node,
      compute_node_loads tm plan_dc = Next ns
      ∧ min_load_node (compute_imbalance node_order ns).2 = Some target
      ∧ get_topology tm !! target = Some target_node
      ∧ (length p ≤ get_shard_count target_node)%nat
      ∧ (∀ m, m ∈ p → host (dst m) = target)
      ∧ ∀ h n, (compute_imbalance node_order ns).1 !! h = Some n →
          (node_load.avg_load ((compute_imbalance node_order ns).1 !!! target)
           <= node_load.avg_load n)%Q.
Proof.
  intros Hp.
  apply make_plan_Return in Hp
    as [->|(target & target_node & st0 & st & Hprep & Hloop & ->)]; [by left|].
  right.
  apply prepare_Next in Hprep as (ns & ns' & Hns & _ & Hmin & Htn & _ & ->).
  exists ns, target, target_node.
  apply (selection_loop_invariant _ _ _ _ _ _ _
           (fun st => (length (plan st) ≤ get_shard_count target_node)%nat
                      ∧ Forall (fun m => host (dst m) = target) (plan st)))
    in Hloop as [Hlen Hall].
  - split_and!; try done.
    + by apply Forall_forall.
    + destruct (compute_imbalance_spec node_order node_order_perm ns)
        as (Heq & Hle & _ & _ & Ht).
      rewrite Hmin in Ht. destruct Ht as (nt & Hnt & Hmin_eq).
      intros h n Hn. rewrite Heq in Hn. rewrite Heq.
      rewrite lookup_fmap in Hn. rewrite lookup_total_alt, lookup_fmap, Hnt. simpl.
      destruct (ns !! h) as [n0|] eqn:Hn0; simpl in Hn; [|done].
      injection Hn as <-.
      destruct (Hle _ _ Hn0) as [Hle0 _]. by rewrite Hmin_eq in Hle0.
  - intros st1 it [Hlen Hall] [Hlt _] Hb. split.
    + apply loop_body_plan_length in Hb. unfold batch_size in Hlt. lia.
    + apply loop_body_plan in Hb
        as [->|(src_host & src_shard & info & _ & _ & ->)]; [done|].
      cbn [state_of]. rewrite plan_emit_migration. apply Forall_app.
      split; [done|]. by constructor.
  - simpl. split; [lia|constructor].
Qed.

(** When the first two scans end without an exception and leave nodes
    of one load, the planner returns the empty plan. *)
Lemma equal_loads_plan_empty ns :
  compute_node_loads tm plan_dc = Next ns →
  (∀ h1 h2 n1 n2, ns !! h1 = Some n1 → ns !! h2 = Some n2 →
     (node_load.get_avg_load n1 (node_load.tablet_count n1)
      == node_load.get_avg_load n2 (node_load.tablet_count n2))%Q) →
  the_plan = Return [].
Proof.
  intros Hns Hbal. unfold make_plan, prepare. rewrite Hns. cbn.
  assert (load_eq (max_load (compute_imbalance node_order ns).2)
                  (min_load (compute_imbalance node_order ns).2) = true) as ->; [|done].
  unfold load_eq. apply Qeq_bool_iff.
  destruct (compute_imbalance_spec node_order node_order_perm ns) as (_ & Hle & _ & Hmax & Ht).
  destruct (min_load_node _) as [t|].
  - destruct Ht as (nt & Hnt & ->).
    destruct Hmax as [Hz|(h & n & Hn & ->)].
    + rewrite Hz. apply Qle_antisym.
      * apply get_avg_load_nonneg.
        apply compute_node_loads_spec in Hns as (H1 & _ & _).
        destruct (H1 _ _ Hnt) as (nd & _ & _ & _ & _ & _ & -> & _).
        apply wrap64_nonneg.
      * destruct (Hle _ _ Hnt) as [_ H2]. by rewrite Hz in H2.
    + by apply (Hbal h t).
  - by destruct Ht as (_ & -> & ->).
Qed.

(** C7, as amended. Balanced input yields an empty plan, on a valid
    topology: when no normal node of the datacenter is without shards, no
    replica on such a node is on a shard that the node does not have, and
    all normal nodes of the datacenter have the same average load, the
    planner returns the empty plan; this covers a datacenter without nodes
    and a snapshot without tables. *)
Theorem balanced_plan_empty :
  ¬ zero_shard_node tm plan_dc →
  ¬ nonexistent_shard_replica tm plan_dc →
  (∀ h1 h2 nd1 nd2,
     get_topology tm !! h1 = Some nd1 →
     get_state nd1 = normal → dc (dc_rack nd1) = plan_dc →
     get_topology tm !! h2 = Some nd2 →
     get_state nd2 = normal → dc (dc_rack nd2) = plan_dc →
     (snapshot_load tm h1 nd1 == snapshot_load tm h2 nd2)%Q) →
  the_plan = Return [].
Proof.
  intros Hz Hs Hbal.
  destruct (compute_node_loads_Next tm plan_dc Hz Hs) as [ns Hns].
  apply (equal_loads_plan_empty ns Hns).
  intros h1 h2 n1 n2 H1 H2.
  apply compute_node_loads_spec in Hns as (N1 & _).
  destruct (N1 _ _ H1) as (nd1 & ? & ? & ? & _ & Hsc1 & Htc1 & _).
  destruct (N1 _ _ H2) as (nd2 & ? & ? & ? & _ & Hsc2 & Htc2 & _).
  unfold node_load.get_avg_load. rewrite Hsc1, Hsc2, Htc1, Htc2.
  by apply Hbal.
Qed.

(** C10, as amended. Termination of the selection loop: every pass after
    which the loop goes on lowers the number of candidates, candidate
    shards and candidate nodes that are left; with more fuel than this
    number the loop does not run out of fuel; so [make_plan] ends, with a
    plan or with an exception; and it ends with a plan when the topology
    is valid and every replica is on a host that the topology holds. *)
Theorem selection_loop_terminates :
  (∀ target target_node st st',
     loop_body pop_heap push_heap set_begin tm plan_dc target target_node st
     = Next (Continue st') →
     (loop_bound st' < loop_bound st)%nat)
  ∧ (∀ target target_node st fuel,
       (loop_bound st < fuel)%nat →
       selection_loop pop_heap push_heap set_begin tm plan_dc target target_node
         fuel st ≠ OutOfFuel)
  ∧ ((∃ p, the_plan = Return p) ∨ (∃ e, the_plan = Throw e))
  ∧ (replica_hosts_known tm →
     ¬ zero_shard_node tm plan_dc →
     ¬ nonexistent_shard_replica tm plan_dc →
     ∃ p, the_plan = Return p).
Proof.
  split_and!.
  4:{ intros Hknown Hz Hs.
      by apply (make_plan_valid make_heap pop_heap push_heap set_begin
                  make_heap_perm pop_heap_perm push_heap_perm set_begin_elem). }
  - intros target target_node st st' Hb.
    apply loop_body_pass in Hb; [|done|done].
    by apply (pass_loop_bound pop_heap push_heap set_begin pop_heap_perm
                push_heap_perm set_begin_elem tm plan_dc target target_node).
  - intros target target_node st fuel Hlt.
    by apply (selection_loop_fuel pop_heap push_heap set_begin pop_heap_perm
                push_heap_perm set_begin_elem).
  - unfold make_plan.
    destruct (prepare_flow make_heap tm plan_dc node_order)
      as [[[[target target_node] st0] ->]|[[e ->]| ->]];
      cbn -[selection_loop]; [|by eauto|by eauto].
    destruct (selection_loop_flow pop_heap push_heap set_begin tm plan_dc
                target target_node (S (loop_bound st0)) st0)
      as [[st Hs]|[[e Hs]|Hs]].
    + rewrite Hs. cbn. by eauto.
    + rewrite Hs. cbn. by eauto.
    + exfalso. clear -Hs pop_heap_perm push_heap_perm set_begin_elem.
      apply (selection_loop_fuel pop_heap push_heap set_begin pop_heap_perm
               push_heap_perm set_begin_elem tm plan_dc target target_node
               (S (loop_bound st0)) st0); [lia|done].
Qed.

(** C5, as amended. NodeLoad consistency: right after the second scan of
    the tablet maps the count of every node is the sum of the counts of
    its shards; after every pass of the selection loop this still holds
    of every node but the target, whose count is ahead of the sum of its
    shards by the number of migrations of the plan.  Sums are taken in
    [uint64_t]. *)
Theorem node_load_consistency :
  (∀ ns nsD,
     compute_node_loads tm plan_dc = Next ns →
     collect_candidates tm (compute_imbalance node_order ns).1 = Next nsD →
     ∀ h n, nsD !! h = Some n → node_load.tablet_count n = shards_total n)
  ∧ (∀ target target_node st0 st,
       prepare make_heap tm plan_dc node_order = Next (target, target_node, st0) →
       loop_reaches pop_heap push_heap set_begin tm plan_dc target target_node
         st0 st →
       ∀ h n, nodes st !! h = Some n →
         node_load.tablet_count n
         = if decide (h = target)
           then wrap64 (shards_total n + Z.of_nat (length (plan st)))
           else shards_total n).
Proof.
  split.
  - intros ns nsD Hns HD h n Hn.
    destruct (after_collect tm plan_dc node_order node_order_perm ns nsD Hns HD) as [Dnone Dsome].
    destruct (ns !! h) as [n0|] eqn:Hn0; [|by rewrite (Dnone _ Hn0) in Hn].
    destruct (Dsome _ _ Hn0) as (n' & Hn' & Htc & _). by simplify_eq.
  - intros target target_node st0 st Hprep Hreach h n Hn.
    destruct (prepare_entry make_heap make_heap_perm tm plan_dc node_order node_order_perm _ _ _ Hprep)
      as (Hplan & Hcount & _).
    assert (∀ h, node_load.tablet_count (nodes st !!! h)
                 = wrap64 (shards_sum (node_load.shards (nodes st !!! h))
                           + (if decide (h = target)
                              then Z.of_nat (length (plan st)) else 0))) as HJ.
    { revert Hreach.
      apply (loop_reaches_invariant pop_heap push_heap set_begin tm plan_dc
               target target_node
               (fun st =>
                  ∀ h, node_load.tablet_count (nodes st !!! h)
                       = wrap64 (shards_sum (node_load.shards (nodes st !!! h))
                                 + (if decide (h = target)
                                    then Z.of_nat (length (plan st)) else 0)))).
      - intros st1 it HJ _ Hb.
        apply (loop_body_pass pop_heap push_heap set_begin pop_heap_perm
                 push_heap_perm) in Hb.
        by apply (pass_counts pop_heap push_heap set_begin tm plan_dc target
                    target_node st1 it).
      - intros h'. rewrite Hcount, shards_total_sum, Hplan. simpl.
        case_decide; by rewrite Z.add_0_r. }
    specialize (HJ h). rewrite (lookup_total_Some _ _ _ Hn) in HJ.
    rewrite HJ, shards_total_sum. case_decide.
    + by rewrite wrap64_add_l.
    + by rewrite Z.add_0_r.
Qed.

(** C8, as amended. Pending transitions block planning: with pending
    transitions in some tablet map no migration is planned, and when the
    topology is valid the planner returns the empty plan. *)
Theorem transitions_block_planning :
  pending_transitions tm →
  (∀ p, the_plan = Return p → p = [])
  ∧ (¬ zero_shard_node tm plan_dc →
     ¬ nonexistent_shard_replica tm plan_dc →
     the_plan = Return []).
Proof.
  intros Hpend. split.
  - intros p Hp.
    apply make_plan_Return in Hp
      as [->|(target & target_node & st0 & st & Hprep & _ & _)]; [done|].
    apply prepare_Next in Hprep as (ns & nsD & _ & _ & _ & _ & HD & _).
    by apply collect_candidates_Next in HD as [Hno _].
  - intros Hz Hs.
    by apply (make_plan_pending make_heap pop_heap push_heap set_begin).
Qed.

(** C9, as amended. InvalidTopology is fatal to the planning call: a normal
    node of the datacenter without shards, or a replica on such a node on
    a shard that the node does not have, makes the planner throw; and when
    every replica is on a host that the topology knows, a topology with
    neither makes it return a plan. *)
Theorem invalid_topology_is_fatal :
  (zero_shard_node tm plan_dc ∨ nonexistent_shard_replica tm plan_dc →
   ∃ e, the_plan = Throw e)
  ∧ (replica_hosts_known tm →
     ¬ zero_shard_node tm plan_dc →
     ¬ nonexistent_shard_replica tm plan_dc →
     ∃ p, the_plan = Return p).
Proof.
  split.
  - intros Hinv. apply compute_node_loads_Throw in Hinv as [e He].
    exists e. unfold make_plan, prepare. by rewrite He.
  - intros Hknown Hz Hs.
    by apply (make_plan_valid make_heap pop_heap push_heap set_begin
                make_heap_perm pop_heap_perm push_heap_perm set_begin_elem).
Qed.

End specification.

(** * The reference instance and the examples *)

Module reference_facts.

Lemma insert_desc_perm {A : Type} (comp : A → A → bool) x l :
  reference.insert_desc comp x l ≡ₚ x :: l.
Proof.
  induction l as [|y l IH]; simpl; [done|].
  destruct (comp x y); [|done]. rewrite IH. apply perm_swap.
Qed.

Lemma sort_desc_perm {A : Type} (comp : A → A → bool) l :
  reference.sort_desc comp l ≡ₚ l.
Proof.
  unfold reference.sort_desc.
  induction l as [|x l IH]; simpl; [done|].
  by rewrite insert_desc_perm, IH.
Qed.

Lemma make_heap_perm A comp (l : list A) : reference.make_heap A comp l ≡ₚ l.
Proof. apply sort_desc_perm. Qed.

Lemma push_heap_perm A comp (l : list A) : reference.push_heap A comp l ≡ₚ l.
Proof. apply sort_desc_perm. Qed.

Lemma pop_heap_perm A comp (l : list A) : reference.pop_heap A comp l ≡ₚ l.
Proof.
  unfold reference.pop_heap.
  pose proof (sort_desc_perm comp l) as Hs.
  destruct (reference.sort_desc comp l) as [|x l']; [done|].
  rewrite <- Hs. symmetry. apply Permutation_cons_append.
Qed.

Lemma set_begin_elem c : c ≠ [] → reference.set_begin c ∈ c.
Proof. destruct c; [done|]. intros _. by left. Qed.

Lemma node_order_perm (ns : gmap N node_load.t) :
  reference.node_order ns ≡ₚ (map_to_list ns).*1.
Proof. done. Qed.

Lemma reverse_node_order_perm (ns : gmap N node_load.t) :
  reference.reverse_node_order ns ≡ₚ (map_to_list ns).*1.
Proof. unfold reference.reverse_node_order. by rewrite reverse_Permutation. Qed.

End reference_facts.

Module examples.

Import scenarios reference_facts.

Ltac elem_cases H :=
  repeat (apply elem_of_cons in H as [H|H]);
  [..|by apply elem_of_nil in H].

Abbreviation ref_emits :=
  (emits reference.pop_heap reference.push_heap reference.set_begin).
Abbreviation ref_reaches :=
  (loop_reaches reference.pop_heap reference.push_heap reference.set_begin).

(** The topologies of the examples are valid where the examples need it. *)
Lemma simple_move_valid :
  ¬ zero_shard_node simple_move "dc1"
  ∧ ¬ nonexistent_shard_replica simple_move "dc1"
  ∧ replica_hosts_known simple_move.
Proof.
  split_and!.
  - intros (h & nd & Hnd%elem_of_map_to_list & _ & _ & Hz).
    vm_compute in Hnd. elem_cases Hnd; by simplify_eq.
  - intros (t & r & nd & Hr%elem_of_all_replicas & Hnd & _ & _ & Hsh).
    vm_compute in Hr. elem_cases Hr; simplify_eq; vm_compute in Hnd;
      simplify_eq; simpl in Hsh; lia.
  - intros t r Hr%elem_of_all_replicas.
    vm_compute in Hr. elem_cases Hr; simplify_eq; vm_compute; by eexists.
Qed.

Lemma pending_valid :
  ¬ zero_shard_node pending "dc1" ∧ ¬ nonexistent_shard_replica pending "dc1".
Proof.
  split.
  - intros (h & nd & Hnd%elem_of_map_to_list & _ & _ & Hz).
    vm_compute in Hnd. elem_cases Hnd; by simplify_eq.
  - intros (t & r & nd & Hr%elem_of_all_replicas & Hnd & _ & _ & Hsh).
    vm_compute in Hr. elem_cases Hr; simplify_eq; vm_compute in Hnd;
      simplify_eq; simpl in Hsh; lia.
Qed.

Lemma unknown_host_valid :
  ¬ zero_shard_node unknown_host "dc1"
  ∧ ¬ nonexistent_shard_replica unknown_host "dc1".
Proof.
  split.
  - intros (h & nd & Hnd%elem_of_map_to_list & _ & _ & Hz).
    vm_compute in Hnd. elem_cases Hnd; by simplify_eq.
  - intros (t & r & nd & Hr%elem_of_all_replicas & Hnd & _ & _ & Hsh).
    vm_compute in Hr. elem_cases Hr; simplify_eq; vm_compute in Hnd;
      simplify_eq; simpl in Hsh; lia.
Qed.

(** C1. *)
Lemma replica_non_collision_witness :
  host (rep 1 0) ≠ host (dst (move (tid 7 1) (rep 1 0) (rep 2 0))).
Proof.
  apply (replica_non_collision reference.make_heap reference.pop_heap
           reference.push_heap reference.set_begin simple_move "dc1"
           reference.node_order
           [move (tid 7 1) (rep 1 0) (rep 2 0); move (tid 7 3) (rep 1 1) (rep 2 1)]
           (move (tid 7 1) (rep 1 0) (rep 2 0)) (rep 1 0)).
  - vm_compute. reflexivity.
  - left.
  - vm_compute. left.
Defined.



(** C3. *)
Lemma load_monotone_witness :
  let st := entry simple_move "dc1" in
  let m := move (tid 7 1) (rep 1 0) (rep 2 0) in
  let s := nodes st !!! host (src m) in
  let d := nodes st !!! host (dst m) in
  (node_load.get_avg_load d (wrap64 (node_load.tablet_count d + 1))
   <= node_load.get_avg_load s (wrap64 (node_load.tablet_count s - 1)))%Q.
Proof.
  apply (load_monotone reference.pop_heap reference.push_heap reference.set_begin
           simple_move "dc1" 2%N node2).
  exists (pass_from simple_move "dc1" 2%N node2 (entry simple_move "dc1")).
  split; vm_compute; reflexivity.
Defined.

(** C4.  In [rack_block] the first pass selects tablet 1 on node 2, which
    has a replica in every rack: it is skipped.  The third pass moves
    tablet 0 from node 2, rack r2, to node 4, rack r3. *)
Lemma rack_count_rack_block rk :
  rack_count rack_block "dc1" (tid 7 1) rk
  = (if bool_decide ("r1" = rk) then 1 else 0)
    + (if bool_decide ("r2" = rk) then 1 else 0)
    + (if bool_decide ("r3" = rk) then 1 else 0).
Proof.
  unfold rack_count, rack_count_of.
  replace (replicas_of rack_block (tid 7 1)) with [rep 1 0; rep 2 0; rep 3 0]
    by (vm_compute; reflexivity).
  assert (in_rack rack_block "dc1" rk (rep 1 0) = bool_decide ("r1" = rk)) as H1.
  { unfold in_rack.
    replace (get_topology rack_block !! host (rep 1 0))
      with (Some (mk_node "dc1" "r1" 1)) by (vm_compute; reflexivity). done. }
  assert (in_rack rack_block "dc1" rk (rep 2 0) = bool_decide ("r2" = rk)) as H2.
  { unfold in_rack.
    replace (get_topology rack_block !! host (rep 2 0))
      with (Some (mk_node "dc1" "r2" 1)) by (vm_compute; reflexivity). done. }
  assert (in_rack rack_block "dc1" rk (rep 3 0) = bool_decide ("r3" = rk)) as H3.
  { unfold in_rack.
    replace (get_topology rack_block !! host (rep 3 0))
      with (Some (mk_node "dc1" "r3" 1)) by (vm_compute; reflexivity). done. }
  rewrite !filter_cons, filter_nil, H1, H2, H3.
  repeat case_bool_decide; repeat case_decide; simpl in *; try done.
Qed.

Lemma rack_diversity_non_regression_witness :
  (∃ rk, rack_count rack_block "dc1" (tid 7 0) "r3" + 1
         ≤ rack_count rack_block "dc1" (tid 7 0) rk)
  ∧ ∀ m, ¬ ref_emits rack_block "dc1" 4%N node4 (entry rack_block "dc1") m.
Proof.
  split.
  - apply (proj1 (rack_diversity_non_regression reference.pop_heap
                    reference.push_heap reference.set_begin rack_block "dc1"
                    4%N node4
                    (pass_from rack_block "dc1" 4%N node4
                       (pass_from rack_block "dc1" 4%N node4
                          (entry rack_block "dc1"))))
             (move (tid 7 0) (rep 2 0) (rep 4 0)) (mk_node "dc1" "r2" 1)).
    + eexists (pass_from rack_block "dc1" 4%N node4
                 (pass_from rack_block "dc1" 4%N node4
                    (pass_from rack_block "dc1" 4%N node4
                       (entry rack_block "dc1")))).
      split; vm_compute; reflexivity.
    + vm_compute. reflexivity.
    + simpl. discriminate.
  - apply (proj2 (rack_diversity_non_regression reference.pop_heap
                    reference.push_heap reference.set_begin rack_block "dc1"
                    4%N node4 (entry rack_block "dc1"))
             2%N 0%nat
             {| shard_load.tablet_count := 2;
                shard_load.candidates := [tid 7 1; tid 7 0] |}
             (mk_node "dc1" "r2" 1)).
    + unfold source_selected. split_and!; try (vm_compute; reflexivity).
      simpl. discriminate.
    + vm_compute. reflexivity.
    + simpl. discriminate.
    + intros rk. simpl reference.set_begin. rewrite !rack_count_rack_block.
      repeat case_bool_decide; simplify_eq; lia.
Defined.

(** C5. *)
Lemma node_load_consistency_witness :
  node_load.tablet_count (collected simple_move "dc1" !!! 1%N)
  = shards_total (collected simple_move "dc1" !!! 1%N)
  ∧ node_load.tablet_count
      (nodes (pass_from simple_move "dc1" 2%N node2 (entry simple_move "dc1")) !!! 1%N)
    = shards_total
        (nodes (pass_from simple_move "dc1" 2%N node2 (entry simple_move "dc1"))
         !!! 1%N).
Proof.
  destruct (node_load_consistency reference.make_heap reference.pop_heap
              reference.push_heap reference.set_begin
              make_heap_perm pop_heap_perm push_heap_perm simple_move "dc1"
              reference.node_order node_order_perm)
    as [H1 H2].
  split.
  - apply (H1 (loads simple_move "dc1") (collected simple_move "dc1")) with (h := 1%N);
      vm_compute; reflexivity.
  - apply (H2 2%N node2 (entry simple_move "dc1")
             (pass_from simple_move "dc1" 2%N node2 (entry simple_move "dc1"))
             ltac:(vm_compute; reflexivity)) with (h := 1%N).
    + apply (reaches_pass _ _ _ _ _ _ _ _ (entry simple_move "dc1")
               (Continue (pass_from simple_move "dc1" 2%N node2
                            (entry simple_move "dc1")))).
      * apply reaches_entry.
      * split; [vm_compute; lia|vm_compute; discriminate].
      * vm_compute. reflexivity.
    + vm_compute. reflexivity.
Defined.

(** C5: after the first pass in [simple_move] the target, node 2, counts
    one tablet, and its shards count none. *)
Lemma target_count_ahead :
  prepare reference.make_heap simple_move "dc1" reference.node_order
  = Next (2%N, node2, entry simple_move "dc1")
  ∧ ref_reaches simple_move "dc1" 2%N node2 (entry simple_move "dc1")
      (pass_from simple_move "dc1" 2%N node2 (entry simple_move "dc1"))
  ∧ node_load.tablet_count
      (nodes (pass_from simple_move "dc1" 2%N node2 (entry simple_move "dc1")) !!! 2%N)
    = 1
  ∧ shards_total
      (nodes (pass_from simple_move "dc1" 2%N node2 (entry simple_move "dc1")) !!! 2%N)
    = 0.
Proof.
  split_and!; try (vm_compute; reflexivity).
  apply (reaches_pass _ _ _ _ _ _ _ _ (entry simple_move "dc1")
           (Continue (pass_from simple_move "dc1" 2%N node2
                        (entry simple_move "dc1")))).
  - apply reaches_entry.
  - split; [vm_compute; lia|vm_compute; discriminate].
  - vm_compute. reflexivity.
Qed.

(** C6.  In [tied_targets] nodes 2 and 3 tie for the least load.  The
    scan that meets node 3 first makes it the target, and the plan has
    four migrations; the scan in the opposite order makes node 2 the
    target, and the plan has one. *)
Lemma plan_size_bounded_witness :
  [move (tid 7 5) (rep 1 0) (rep 3 0); move (tid 7 4) (rep 1 0) (rep 3 1);
   move (tid 7 3) (rep 1 0) (rep 3 2); move (tid 7 2) (rep 1 0) (rep 3 3)] = []
  ∨ ∃ ns target target_node,
      compute_node_loads tied_targets "dc1" = Next ns
      ∧ min_load_node (compute_imbalance reference.reverse_node_order ns).2
        = Some target
      ∧ get_topology tied_targets !! target = Some target_node
      ∧ (length [move (tid 7 5) (rep 1 0) (rep 3 0);
                 move (tid 7 4) (rep 1 0) (rep 3 1);
                 move (tid 7 3) (rep 1 0) (rep 3 2);
                 move (tid 7 2) (rep 1 0) (rep 3 3)]
         ≤ get_shard_count target_node)%nat
      ∧ (∀ m, m ∈ [move (tid 7 5) (rep 1 0) (rep 3 0);
                   move (tid 7 4) (rep 1 0) (rep 3 1);
                   move (tid 7 3) (rep 1 0) (rep 3 2);
                   move (tid 7 2) (rep 1 0) (rep 3 3)] →
              host (dst m) = target)
      ∧ ∀ h n,
          (compute_imbalance reference.reverse_node_order ns).1 !! h = Some n →
          (node_load.avg_load
             ((compute_imbalance reference.reverse_node_order ns).1 !!! target)
           <= node_load.avg_load n)%Q.
Proof.
  apply (plan_size_bounded reference.make_heap reference.pop_heap
           reference.push_heap reference.set_begin tied_targets "dc1"
           reference.reverse_node_order reverse_node_order_perm).
  vm_compute. reflexivity.
Defined.

Lemma target_follows_node_order :
  reference.make_plan tied_targets "dc1"
  = Return [move (tid 7 5) (rep 1 0) (rep 2 0)]
  ∧ make_plan reference.make_heap reference.pop_heap reference.push_heap
      reference.set_begin tied_targets "dc1" reference.reverse_node_order
    = Return [move (tid 7 5) (rep 1 0) (rep 3 0);
              move (tid 7 4) (rep 1 0) (rep 3 1);
              move (tid 7 3) (rep 1 0) (rep 3 2);
              move (tid 7 2) (rep 1 0) (rep 3 3)].
Proof. split; vm_compute; reflexivity. Qed.

Lemma balanced_valid :
  ¬ zero_shard_node balanced "dc1" ∧ ¬ nonexistent_shard_replica balanced "dc1".
Proof.
  split.
  - intros (h & nd & Hnd%elem_of_map_to_list & _ & _ & Hz).
    vm_compute in Hnd. elem_cases Hnd; by simplify_eq.
  - intros (t & r & nd & Hr%elem_of_all_replicas & Hnd & _ & _ & Hsh).
    vm_compute in Hr. elem_cases Hr; simplify_eq; vm_compute in Hnd;
      simplify_eq; simpl in Hsh; lia.
Qed.

(** C7. *)
Lemma balanced_plan_empty_witness :
  reference.make_plan balanced "dc1" = Return [].
Proof.
  apply (balanced_plan_empty reference.make_heap reference.pop_heap
           reference.push_heap reference.set_begin balanced "dc1"
           reference.node_order node_order_perm).
  - apply balanced_valid.
  - apply balanced_valid.
  - intros h1 h2 nd1 nd2 H1%elem_of_map_to_list _ _ H2%elem_of_map_to_list _ _.
    vm_compute in H1, H2.
    elem_cases H1; elem_cases H2; simplify_eq; vm_compute; reflexivity.
Defined.

(** C7: two nodes of the same load, and a replica on a shard that its
    node does not have. *)
Lemma equal_loads_throw :
  (∀ h1 h2 nd1 nd2,
     get_topology balanced_invalid !! h1 = Some nd1 →
     get_state nd1 = normal → dc (dc_rack nd1) = "dc1" →
     get_topology balanced_invalid !! h2 = Some nd2 →
     get_state nd2 = normal → dc (dc_rack nd2) = "dc1" →
     (snapshot_load balanced_invalid h1 nd1
      == snapshot_load balanced_invalid h2 nd2)%Q)
  ∧ reference.make_plan balanced_invalid "dc1"
    = Throw (nonexistent_shard (tid 7 0) (rep 2 3)).
Proof.
  split; [|vm_compute; reflexivity].
  intros h1 h2 nd1 nd2 H1%elem_of_map_to_list _ _ H2%elem_of_map_to_list _ _.
  vm_compute in H1, H2.
  elem_cases H1; elem_cases H2; simplify_eq; vm_compute; reflexivity.
Qed.

(** C8. *)
Lemma transitions_block_planning_witness :
  (∀ p, reference.make_plan pending "dc1" = Return p → p = [])
  ∧ reference.make_plan pending "dc1" = Return [].
Proof.
  destruct (transitions_block_planning reference.make_heap reference.pop_heap
              reference.push_heap reference.set_begin pending "dc1"
              reference.node_order node_order_perm)
    as [H1 H2].
  - exists 7%N, {| tablets := [tab [rep 1 0]; tab [rep 1 0];
                               tab [rep 1 1]; tab [rep 1 1]];
                   transitions := [0%nat] |}.
    split; [vm_compute; reflexivity|discriminate].
  - split; [exact H1|]. apply H2; apply pending_valid.
Defined.

(** C8: a node without shards, and a pending transition. *)
Lemma pending_transitions_throw :
  pending_transitions zero_shards_pending
  ∧ reference.make_plan zero_shards_pending "dc1" = Throw (shard_count_not_found 2).
Proof.
  split; [|vm_compute; reflexivity].
  exists 7%N, {| tablets := [tab [rep 1 0]; tab [rep 1 0];
                             tab [rep 1 1]; tab [rep 1 1]];
                 transitions := [0%nat] |}.
  split; [vm_compute; reflexivity|discriminate].
Qed.

(** C9. *)
Lemma invalid_topology_is_fatal_witness :
  (∃ e, reference.make_plan zero_shards_pending "dc1" = Throw e)
  ∧ ∃ p, reference.make_plan simple_move "dc1" = Return p.
Proof.
  split.
  - apply (proj1 (invalid_topology_is_fatal reference.make_heap reference.pop_heap
                    reference.push_heap reference.set_begin
                    make_heap_perm pop_heap_perm push_heap_perm set_begin_elem
                    zero_shards_pending "dc1"
                    reference.node_order node_order_perm)).
    left. exists 2%N, (mk_node "dc1" "r1" 0). split_and!; try done.
  - apply (proj2 (invalid_topology_is_fatal reference.make_heap reference.pop_heap
                    reference.push_heap reference.set_begin
                    make_heap_perm pop_heap_perm push_heap_perm set_begin_elem
                    simple_move "dc1"
                    reference.node_order node_order_perm));
      apply simple_move_valid.
Defined.

(** C9: a valid topology, and a replica on a host that it does not know. *)
Lemma unknown_host_throws :
  ¬ zero_shard_node unknown_host "dc1"
  ∧ ¬ nonexistent_shard_replica unknown_host "dc1"
  ∧ reference.make_plan unknown_host "dc1" = Throw (node_not_found 9).
Proof.
  split_and!; [apply unknown_host_valid..|vm_compute; reflexivity].
Qed.

(** C10. *)
Lemma selection_loop_terminates_witness :
  (∀ target target_node st st',
     loop_body reference.pop_heap reference.push_heap reference.set_begin
       simple_move "dc1" target target_node st = Next (Continue st') →
     (loop_bound st' < loop_bound st)%nat)
  ∧ (∀ target target_node st fuel,
       (loop_bound st < fuel)%nat →
       selection_loop reference.pop_heap reference.push_heap reference.set_begin
         simple_move "dc1" target target_node fuel st ≠ OutOfFuel)
  ∧ ((∃ p, reference.make_plan simple_move "dc1" = Return p)
     ∨ (∃ e, reference.make_plan simple_move "dc1" = Throw e))
  ∧ ∃ p, reference.make_plan simple_move "dc1" = Return p.
Proof.
  destruct (selection_loop_terminates reference.make_heap reference.pop_heap
              reference.push_heap reference.set_begin
              make_heap_perm pop_heap_perm push_heap_perm set_begin_elem
              simple_move "dc1" reference.node_order node_order_perm)
    as (H1 & H2 & H3 & H4).
  split_and!; [exact H1|exact H2|exact H3|].
  apply H4; apply simple_move_valid.
Defined.

(** C10: a node without shards; the planner ends with an exception, not
    with a plan. *)
Lemma planner_ends_with_exception :
  reference.make_plan zero_shards "dc1" = Throw (shard_count_not_found 2)
  ∧ ∀ p, reference.make_plan zero_shards "dc1" ≠ Return p.
Proof. split; [vm_compute; reflexivity|]. intros p. vm_compute. discriminate. Qed.

End examples.

(** * Further properties of the planner *)

(** ** Loops *)

Lemma for_each_split_invariant {A S : Type} (I : list A → S → Prop)
    (body : A → S → flow S) l s s' :
  I [] s →
  (∀ pre a suf acc acc', l = pre ++ a :: suf → I pre acc →
                         body a acc = Next acc' → I (pre ++ [a]) acc') →
  for_each body l s = Next s' → I l s'.
Proof.
  intros H0 Hstep.
  assert (∀ l0 pre s, l = pre ++ l0 → I pre s →
                      for_each body l0 s = Next s' → I (pre ++ l0) s') as Hgen.
  { clear s H0. induction l0 as [|a l0 IH]; intros pre s Hl Hs Hrun; cbn in Hrun.
    - simplify_eq. by rewrite app_nil_r.
    - apply bind_Next in Hrun as (s1 & Hb & Hrun).
      rewrite (cons_middle a pre l0), app_assoc. eapply IH; [| |done].
      + by rewrite <- app_assoc.
      + by eapply Hstep. }
  apply (Hgen l [] s); done.
Qed.

Lemma for_each_Throw {A S : Type} (body : A → S → flow S) l s e :
  for_each body l s = Throw e →
  ∃ pre a suf s1, l = pre ++ a :: suf
                  ∧ for_each body pre s = Next s1 ∧ body a s1 = Throw e.
Proof.
  revert s; induction l as [|a l IH]; intros s H; cbn in H; [done|].
  destruct (body a s) as [s1| | |] eqn:Hb; cbn in H; try done.
  - apply IH in H as (pre & a' & suf & s2 & -> & Hpre & Ha).
    exists (a :: pre), a', suf, s2. split; [done|]. split; [|done].
    cbn. by rewrite Hb.
  - simplify_eq. by exists [], a, l, s.
Qed.

Lemma last_Some_elem {A : Type} (l : list A) x : last l = Some x → x ∈ l.
Proof. intros [l' ->]%last_Some. apply elem_of_app. right. by left. Qed.

(** ** The candidates that the second scan collects *)

Lemma collect_replicas_candidates L (ns ns' : gmap N node_load.t) :
  for_each (fun gr => collect_replica gr.1 gr.2) L ns = Next ns' →
  ∀ h s t, t ∈ candidates_at ns' h s →
    t ∈ candidates_at ns h s ∨ (t, {| host := h; shard := s |}) ∈ L.
Proof.
  apply (for_each_prefix_invariant
           (fun pre acc =>
              ∀ h s t, t ∈ candidates_at acc h s →
                t ∈ candidates_at ns h s ∨ (t, {| host := h; shard := s |}) ∈ pre)).
  { by left. }
  intros pre [g r] acc acc' _ IH Hstep h s t Ht. simpl in Hstep.
  assert (t ∈ candidates_at acc h s ∨ (t = g ∧ r = {| host := h; shard := s |}))
    as [Hold|[-> ->]].
  { apply collect_replica_step in Hstep
      as [[_ ->]|(n & info & n' & Hn & Hinfo & -> & _ & _ & _ & _ & Hsh)]; [by left|].
    unfold candidates_at in *.
    destruct (decide (h = host r)) as [->|Hne].
    - rewrite lookup_total_insert_eq, Hsh in Ht.
      rewrite (lookup_total_Some _ _ _ Hn).
      destruct (decide (s = shard r)) as [->|Hs].
      + rewrite list_lookup_total_insert_eq in Ht by by eapply lookup_lt_Some.
        simpl in Ht. apply elem_of_emplace in Ht as [->|Ht].
        * right. split; [done|]. by destruct r.
        * left. by rewrite (list_lookup_total_correct _ _ _ Hinfo).
      + rewrite list_lookup_total_insert_ne in Ht by done. by left.
    - rewrite lookup_total_insert_ne in Ht by done. by left. }
  - destruct (IH _ _ _ Hold) as [?|?]; [by left|right].
    apply elem_of_app. by left.
  - right. apply elem_of_app. right. by left.
Qed.

Lemma candidates_at_None (ns : gmap N node_load.t) h s :
  ns !! h = None → candidates_at ns h s = [].
Proof. intros H. unfold candidates_at. by rewrite (lookup_total_None _ _ H). Qed.

Section migrations.

Variables make_heap pop_heap push_heap :
  ∀ A : Type, (A → A → bool) → list A → list A.
Variable set_begin : list global_tablet_id → global_tablet_id.
Hypothesis make_heap_perm : ∀ A comp (l : list A), make_heap A comp l ≡ₚ l.
Hypothesis pop_heap_perm : ∀ A comp (l : list A), pop_heap A comp l ≡ₚ l.
Hypothesis push_heap_perm : ∀ A comp (l : list A), push_heap A comp l ≡ₚ l.
Hypothesis set_begin_elem : ∀ c, c ≠ [] → set_begin c ∈ c.
Variable tm : token_metadata.
Variable plan_dc : string.
Variable node_order : gmap N node_load.t → list N.
Hypothesis node_order_perm : ∀ ns, node_order ns ≡ₚ (map_to_list ns).*1.

(** The nodes of the map are the normal nodes of the datacenter. *)
Lemma compute_node_loads_nodes ns h :
  compute_node_loads tm plan_dc = Next ns →
  is_Some (ns !! h) ↔ normal_node_in tm plan_dc h.
Proof.
  intros (N1 & N2 & _)%compute_node_loads_spec. split.
  - intros [n Hn]. destruct (N1 _ _ Hn) as (nd & ? & ? & ? & _). by exists nd.
  - intros (nd & ? & ? & ?). by eapply N2.
Qed.

(** How the loop is entered: the target and the nodes of the heap are
    normal nodes of the datacenter, and a candidate of a shard is a tablet
    with a replica on that shard. *)
Lemma prepare_entry_replicas target target_node st0 :
  prepare make_heap tm plan_dc node_order = Next (target, target_node, st0) →
  normal_node_in tm plan_dc target
  ∧ (∀ h, h ∈ nodes_by_load st0 → normal_node_in tm plan_dc h)
  ∧ (∀ h s t, t ∈ candidates_at (nodes st0) h s →
       {| host := h; shard := s |} ∈ replicas_of tm t).
Proof.
  intros (ns & nsD & Hns & _ & Hmin & _ & HD & ->)%prepare_Next.
  cbn [nodes nodes_by_load plan].
  destruct (after_collect _ _ _ node_order_perm _ _ Hns HD) as [Dnone _].
  destruct (prepare_heaps_spec make_heap make_heap_perm nsD) as (Enone & Esome & Enbl).
  destruct (compute_imbalance_spec node_order node_order_perm ns) as (Hci & _ & _ & _ & Ht).
  rewrite Hmin in Ht. destruct Ht as (nt & Hnt & _).
  split_and!.
  - apply (compute_node_loads_nodes ns); [done|by eexists].
  - intros h [nD HnD]%Enbl. apply (compute_node_loads_nodes ns); [done|].
    destruct (ns !! h) eqn:Hh; [by eexists|]. apply Dnone in Hh. congruence.
  - intros h s t Ht.
    apply collect_candidates_Next in HD as [_ HD].
    assert (t ∈ candidates_at nsD h s) as HtD.
    { unfold candidates_at in *. destruct (nsD !! h) as [nD|] eqn:HnD.
      - destruct (Esome _ _ HnD) as (n' & Hn' & _ & Hsh & _).
        rewrite (lookup_total_Some _ _ _ Hn'), Hsh in Ht.
        by rewrite (lookup_total_Some _ _ _ HnD).
      - change (t ∈ candidates_at (prepare_heaps make_heap nsD).1 h s) in Ht.
        rewrite (candidates_at_None _ _ _ (Enone _ HnD)) in Ht.
        by apply elem_of_nil in Ht. }
    apply (collect_replicas_candidates _ _ _ HD) in HtD as [Hold|Hin].
    + exfalso. rewrite Hci in Hold.
      destruct (ns !! h) as [n|] eqn:Hn.
      * unfold candidates_at in Hold.
        rewrite (lookup_total_Some h _ (node_load.update n)) in Hold
          by by rewrite lookup_fmap, Hn.
        apply compute_node_loads_spec in Hns as (N1 & _).
        destruct (N1 _ _ Hn) as (nd & _ & _ & _ & _ & _ & _ & _ & Hsh).
        simpl in Hold.
        rewrite Hsh, candidates_replicate in Hold. by apply elem_of_nil in Hold.
      * rewrite candidates_at_None in Hold by by rewrite lookup_fmap, Hn.
        by apply elem_of_nil in Hold.
    + by apply elem_of_all_replicas.
Qed.

Variable target : N.
Variable target_node : node.

Lemma pass_nodes_by_load st it h :
  pass pop_heap push_heap set_begin tm plan_dc target target_node st it →
  h ∈ nodes_by_load (state_of it) → h ∈ nodes_by_load st.
Proof.
  destruct 1 as [|src_host st' _ _ Hnbl _
                 |src_host src_shard info st' _ _ _ _ _ _ Hnbl _
                 |src_host src_shard info st' _ _ Hnbl _
                 |src_host src_shard info st' _ _ _ _ Hnbl _]; simpl.
  - by rewrite pop_heap_perm.
  - rewrite Hnbl. intros Hh%elem_of_removelast. by rewrite pop_heap_perm in Hh.
  - by rewrite Hnbl.
  - by rewrite Hnbl.
  - intros Hh. by eapply elem_of_submseteq.
Qed.

Lemma source_selected_elem st src_host src_shard info :
  source_selected pop_heap target st src_host src_shard info →
  src_host ∈ nodes_by_load st
  ∧ src_host ≠ target
  ∧ set_begin (shard_load.candidates info)
    ∈ candidates_at (nodes st) src_host src_shard.
Proof.
  intros (Hlast & Hle & _ & _ & Hinfo & Hc). split_and!.
  - apply last_Some_elem in Hlast. by rewrite pop_heap_perm in Hlast.
  - intros ->. by rewrite load_le_refl in Hle.
  - unfold candidates_at. rewrite (list_lookup_total_correct _ _ _ Hinfo).
    by apply set_begin_elem.
Qed.

(** What a pass keeps: the nodes of the heap are normal nodes of the
    datacenter, candidates are tablets with a replica on the shard, and
    every migration of the plan goes from such a replica on such a node to
    the target. *)
Lemma loop_body_migrations st it :
  loop_body pop_heap push_heap set_begin tm plan_dc target target_node st = Next it →
  (∀ h, h ∈ nodes_by_load st → normal_node_in tm plan_dc h)
  ∧ (∀ h s t, t ∈ candidates_at (nodes st) h s →
       {| host := h; shard := s |} ∈ replicas_of tm t)
  ∧ Forall (fun m => host (dst m) = target ∧ host (src m) ≠ target
                     ∧ normal_node_in tm plan_dc (host (src m))
                     ∧ src m ∈ replicas_of tm (mig_tablet m)) (plan st) →
  (∀ h, h ∈ nodes_by_load (state_of it) → normal_node_in tm plan_dc h)
  ∧ (∀ h s t, t ∈ candidates_at (nodes (state_of it)) h s →
       {| host := h; shard := s |} ∈ replicas_of tm t)
  ∧ Forall (fun m => host (dst m) = target ∧ host (src m) ≠ target
                     ∧ normal_node_in tm plan_dc (host (src m))
                     ∧ src m ∈ replicas_of tm (mig_tablet m)) (plan (state_of it)).
Proof.
  intros Hb (W1 & W4 & HP).
  pose proof (loop_body_pass pop_heap push_heap set_begin pop_heap_perm
                push_heap_perm tm plan_dc target target_node _ _ Hb) as Hpass.
  split_and!.
  - intros h Hh. apply W1. by eapply pass_nodes_by_load.
  - intros h s t Ht. apply W4.
    by eapply (pass_candidates_subseteq pop_heap push_heap set_begin).
  - apply loop_body_plan in Hb
      as [->|(src_host & src_shard & info & Hsel & _ & ->)]; [done|].
    cbn [state_of]. rewrite plan_emit_migration. apply Forall_app. split; [done|].
    apply source_selected_elem in Hsel as (Hin & Hne & Hc).
    constructor; [|constructor]. simpl. split_and!; try done.
    + by apply W1.
    + by apply W4.
Qed.

End migrations.

(** ** The plan of one datacenter *)

Section plans.

Variables make_heap pop_heap push_heap :
  ∀ A : Type, (A → A → bool) → list A → list A.
Variable set_begin : list global_tablet_id → global_tablet_id.
Hypothesis make_heap_perm : ∀ A comp (l : list A), make_heap A comp l ≡ₚ l.
Hypothesis pop_heap_perm : ∀ A comp (l : list A), pop_heap A comp l ≡ₚ l.
Hypothesis push_heap_perm : ∀ A comp (l : list A), push_heap A comp l ≡ₚ l.
Hypothesis set_begin_elem : ∀ c, c ≠ [] → set_begin c ∈ c.
Variable tm : token_metadata.
Variable plan_dc : string.
Variable node_order : gmap N node_load.t → list N.
Hypothesis node_order_perm : ∀ ns, node_order ns ≡ₚ (map_to_list ns).*1.

Abbreviation make_plan'' :=
  (make_plan make_heap pop_heap push_heap set_begin tm plan_dc node_order).

(** The migrations of a returned plan all go to one normal node of the
    datacenter, each from a replica of its tablet on another normal node
    of the datacenter. *)
Lemma make_plan_migrations p :
  make_plan'' = Return p →
  p = []
  ∨ ∃ target,
      normal_node_in tm plan_dc target
      ∧ Forall (fun m => host (dst m) = target ∧ host (src m) ≠ target
                         ∧ normal_node_in tm plan_dc (host (src m))
                         ∧ src m ∈ replicas_of tm (mig_tablet m)) p.
Proof.
  intros Hp.
  apply make_plan_Return in Hp
    as [->|(target & target_node & st0 & st & Hprep & Hloop & ->)]; [by left|].
  right. exists target.
  destruct (prepare_entry_replicas make_heap make_heap_perm tm plan_dc node_order node_order_perm _ _ _ Hprep)
    as (Ht & W1 & W4).
  split; [done|].
  apply prepare_Next in Hprep as (ns & ns' & _ & _ & _ & _ & _ & ->).
  apply (selection_loop_invariant _ _ _ _ _ _ _
           (fun st =>
              (∀ h, h ∈ nodes_by_load st → normal_node_in tm plan_dc h)
              ∧ (∀ h s t, t ∈ candidates_at (nodes st) h s →
                   {| host := h; shard := s |} ∈ replicas_of tm t)
              ∧ Forall (fun m => host (dst m) = target ∧ host (src m) ≠ target
                                 ∧ normal_node_in tm plan_dc (host (src m))
                                 ∧ src m ∈ replicas_of tm (mig_tablet m))
                       (plan st)))
    in Hloop as (_ & _ & HP); [done| |].
  - intros st1 it HI _ Hb. cbv beta in *.
    by apply (loop_body_migrations pop_heap push_heap set_begin pop_heap_perm
                push_heap_perm set_begin_elem tm plan_dc target target_node st1 it).
  - cbn [nodes nodes_by_load plan] in *. split_and!; [done|done|constructor].
Qed.

(** No migration of a returned plan goes to a node that has a replica of
    the tablet. *)
Lemma make_plan_collision_free p m r :
  make_plan'' = Return p →
  m ∈ p →
  r ∈ replicas_of tm (mig_tablet m) →
  host r ≠ host (dst m).
Proof.
  intros Hp Hm Hr.
  apply make_plan_Return in Hp
    as [->|(target & target_node & st0 & st & Hprep & Hloop & ->)].
  { by apply elem_of_nil in Hm. }
  apply prepare_Next in Hprep as (ns & ns' & _ & _ & _ & _ & _ & ->).
  apply (selection_loop_invariant _ _ _ _ _ _ _
           (fun st => Forall (fun m =>
              host (dst m) = target
              ∧ ∀ r, r ∈ replicas_of tm (mig_tablet m) → host r ≠ target) (plan st)))
    in Hloop as Hall; [| |by constructor].
  2:{ intros ?? HI _ Hb. by eapply loop_body_no_collision. }
  rewrite Forall_forall in Hall. destruct (Hall m Hm) as [-> Hno]. by apply Hno.
Qed.

(** The [(tablet, src)] pairs of a returned plan are pairwise distinct. *)
Lemma make_plan_moves_NoDup p :
  make_plan'' = Return p → NoDup (moves p).
Proof.
  intros Hp.
  apply make_plan_Return in Hp
    as [->|(target & target_node & st0 & st & Hprep & Hloop & ->)].
  { constructor. }
  apply prepare_Next in Hprep as (ns & ns' & _ & _ & _ & _ & _ & ->).
  apply (selection_loop_invariant _ _ _ _ _ _ _
           (fun st =>
              NoDup (moves (plan st))
              ∧ ∀ m, m ∈ plan st →
                  mig_tablet m
                  ∉ candidates_at (nodes st) (host (src m)) (shard (src m))))
    in Hloop as [Hnd _]; [done| |].
  - intros ?? HI _ Hb. cbv beta in *.
    by eapply (loop_body_moves pop_heap push_heap set_begin
                 pop_heap_perm push_heap_perm tm plan_dc target target_node
                 set_begin_elem).
  - simpl. split; [constructor|]. intros m Hm. by apply elem_of_nil in Hm.
Qed.

(** [make_plan] ends: with a plan, or with an exception. *)
Lemma make_plan_ends :
  (∃ p, make_plan'' = Return p) ∨ (∃ e, make_plan'' = Throw e).
Proof.
  unfold make_plan.
  destruct (prepare_flow make_heap tm plan_dc node_order)
    as [[[[target target_node] st0] ->]|[[e ->]| ->]];
    cbn -[selection_loop]; [|by eauto|by eauto].
  destruct (selection_loop_flow pop_heap push_heap set_begin tm plan_dc
              target target_node (S (loop_bound st0)) st0)
    as [[st Hs]|[[e Hs]|Hs]].
  - rewrite Hs. cbn. by eauto.
  - rewrite Hs. cbn. by eauto.
  - exfalso. clear -Hs pop_heap_perm push_heap_perm set_begin_elem.
    apply (selection_loop_fuel pop_heap push_heap set_begin pop_heap_perm
             push_heap_perm set_begin_elem tm plan_dc target target_node
             (S (loop_bound st0)) st0); [lia|done].
Qed.

(** With pending transitions a returned plan is empty. *)
Lemma make_plan_pending_empty p :
  pending_transitions tm → make_plan'' = Return p → p = [].
Proof.
  intros Hpend Hp.
  apply make_plan_Return in Hp
    as [->|(target & target_node & st0 & st & Hprep & _ & _)]; [done|].
  apply prepare_Next in Hprep as (ns & nsD & _ & _ & _ & _ & HD & _).
  by apply collect_candidates_Next in HD as [Hno _].
Qed.

Lemma make_plan_invalid :
  zero_shard_node tm plan_dc ∨ nonexistent_shard_replica tm plan_dc →
  ∃ e, make_plan'' = Throw e.
Proof.
  intros Hinv. apply compute_node_loads_Throw in Hinv as [e He].
  exists e. unfold make_plan, prepare. by rewrite He.
Qed.

End plans.

(** ** The plan of all datacenters *)

Lemma co_await_Next m p : co_await m = Next p ↔ m = Return p.
Proof. destruct m as [[]| | |]; simpl; split; congruence. Qed.

Lemma co_await_Throw m e : co_await m = Throw e ↔ m = Throw e.
Proof. destruct m as [[]| | |]; simpl; split; congruence. Qed.

Section rounds.

Variables make_heap pop_heap push_heap :
  ∀ A : Type, (A → A → bool) → list A → list A.
Variable set_begin : list global_tablet_id → global_tablet_id.
Variable get_datacenters : gmap N node → list string.
Variable tm : token_metadata.
Variable node_order : gmap N node_load.t → list N.
Hypothesis node_order_perm : ∀ ns, node_order ns ≡ₚ (map_to_list ns).*1.

Abbreviation plan_datacenter' :=
  (plan_datacenter make_heap pop_heap push_heap set_begin tm node_order).
Abbreviation balance_tablets' :=
  (balance_tablets make_heap pop_heap push_heap set_begin get_datacenters tm node_order).
Abbreviation plan_of dc :=
  (make_plan make_heap pop_heap push_heap set_begin tm dc node_order).

Lemma plan_datacenter_Return dc acc q :
  plan_of dc = Return q → plan_datacenter' dc acc = Next (acc ++ q).
Proof. unfold plan_datacenter. by intros ->. Qed.

Lemma plan_datacenter_Throw dc acc e :
  plan_of dc = Throw e → plan_datacenter' dc acc = Throw e.
Proof. unfold plan_datacenter. by intros ->. Qed.

Lemma plan_datacenters_no_Return dcs acc p :
  for_each plan_datacenter' dcs acc ≠ Return p.
Proof.
  intros (dc & s & _ & H)%for_each_Return. unfold plan_datacenter in H.
  by destruct (plan_of dc) as [[]| | |].
Qed.

Lemma plan_datacenters_Next dcs acc p :
  for_each plan_datacenter' dcs acc = Next p
  ↔ ∃ ps, Forall2 (fun dc q => plan_of dc = Return q) dcs ps
          ∧ p = acc ++ concat ps.
Proof.
  revert acc; induction dcs as [|dc dcs IH]; intros acc; cbn.
  - split.
    + intros [= <-]. exists []. split; [constructor|]. by rewrite app_nil_r.
    + intros (ps & ->%Forall2_nil_inv_l & ->). by rewrite app_nil_r.
  - split.
    + intros (acc1 & H1 & H)%bind_Next. unfold plan_datacenter in H1.
      apply bind_Next in H1 as (q & Hq%co_await_Next & [= <-]).
      apply IH in H as (ps & Hps & ->).
      exists (q :: ps). split; [by constructor|]. simpl. by rewrite app_assoc.
    + intros (ps & Hps & ->).
      apply Forall2_cons_inv_l in Hps as (q & ps' & Hq & Hps & ->).
      rewrite (plan_datacenter_Return _ _ _ Hq). cbn.
      apply IH. exists ps'. split; [done|]. simpl. by rewrite app_assoc.
Qed.

Lemma balance_tablets_Return p :
  balance_tablets' = Return p
  ↔ ∃ ps, Forall2 (fun dc q => plan_of dc = Return q)
                  (get_datacenters (get_topology tm)) ps
          ∧ p = concat ps.
Proof.
  unfold balance_tablets, make_plan_all.
  rewrite <- (plan_datacenters_Next _ [] p).
  destruct (for_each _ _ _) as [q|q| |] eqn:H; cbn; [split; congruence| |done..].
  by apply plan_datacenters_no_Return in H.
Qed.

(** The call fails with the exception of the first datacenter whose
    planner fails. *)
Lemma balance_tablets_Throw e :
  balance_tablets' = Throw e
  ↔ ∃ pre dc suf ps,
      get_datacenters (get_topology tm) = pre ++ dc :: suf
      ∧ Forall2 (fun dc q => plan_of dc = Return q) pre ps
      ∧ plan_of dc = Throw e.
Proof.
  unfold balance_tablets, make_plan_all. split.
  - destruct (for_each _ _ _) as [q| | |] eqn:H; cbn; try congruence.
    intros [= ->].
    apply for_each_Throw in H as (pre & dc & suf & s1 & Hl & Hpre & Hdc).
    apply plan_datacenters_Next in Hpre as (ps & Hps & _).
    exists pre, dc, suf, ps. split_and!; try done.
    unfold plan_datacenter in Hdc.
    destruct (co_await (plan_of dc)) as [q| | |] eqn:Hq; cbn in Hdc; try done.
    simplify_eq. by apply co_await_Throw.
  - intros (pre & dc & suf & ps & -> & Hps & Hdc).
    rewrite for_each_app.
    assert (for_each plan_datacenter' pre [] = Next (concat ps)) as ->.
    { apply plan_datacenters_Next. by exists ps. }
    cbn. by rewrite (plan_datacenter_Throw _ _ _ Hdc).
Qed.

Lemma elem_of_concat_Forall2 {A B : Type} (P : A → list B → Prop) l ps x :
  Forall2 P l ps → x ∈ concat ps → ∃ a q, a ∈ l ∧ P a q ∧ x ∈ q.
Proof.
  induction 1 as [|a q l ps Ha _ IH]; simpl.
  - by intros ?%elem_of_nil.
  - intros [Hx|Hx]%elem_of_app.
    + exists a, q. split; [by left|done].
    + destruct (IH Hx) as (a' & q' & ? & ? & ?). exists a', q'.
      split; [by right|done].
Qed.

(** A migration of the plan of the round is one of the plan of a
    datacenter. *)
Lemma balance_tablets_elem p m :
  balance_tablets' = Return p → m ∈ p →
  ∃ dc q, dc ∈ get_datacenters (get_topology tm)
          ∧ plan_of dc = Return q ∧ m ∈ q.
Proof.
  intros (ps & Hps & ->)%balance_tablets_Return Hm.
  by eapply elem_of_concat_Forall2.
Qed.

End rounds.

(** ** The comparisons of the heaps *)

Lemma load_lt_spec a b : load_lt a b = true ↔ (a < b)%Q.
Proof.
  split; [apply load_lt_true|].
  intros Hlt. destruct (load_lt a b) eqn:H; [done|].
  apply load_lt_false in H. by apply Qle_not_lt in H.
Qed.

Lemma load_lt_strict_weak {A : Type} (f : A → Q) :
  strict_weak_ordering (fun a b => load_lt (f a) (f b)).
Proof.
  split_and!.
  - intros a. destruct (load_lt (f a) (f a)) eqn:H; [|done].
    apply load_lt_true in H. by apply Qlt_irrefl in H.
  - intros a b c Hab%load_lt_true Hbc%load_lt_true.
    apply load_lt_spec. by eapply Qlt_trans.
  - intros a b c Hab%load_lt_false Hba%load_lt_false
                   Hbc%load_lt_false Hcb%load_lt_false.
    split.
    + destruct (load_lt (f a) (f c)) eqn:H; [|done].
      apply load_lt_true in H. exfalso. apply (Qlt_not_le _ _ H).
      by eapply Qle_trans.
    + destruct (load_lt (f c) (f a)) eqn:H; [|done].
      apply load_lt_true in H. exfalso. apply (Qlt_not_le _ _ H).
      by eapply Qle_trans.
Qed.

Lemma count_lt_strict_weak {A : Type} (f : A → Z) :
  strict_weak_ordering (fun a b => bool_decide (f a < f b)).
Proof.
  split_and!.
  - intros a. apply bool_decide_eq_false. lia.
  - intros a b c Hab%bool_decide_eq_true Hbc%bool_decide_eq_true.
    apply bool_decide_eq_true. lia.
  - intros a b c Hab%bool_decide_eq_false Hba%bool_decide_eq_false
                   Hbc%bool_decide_eq_false Hcb%bool_decide_eq_false.
    split; apply bool_decide_eq_false; lia.
Qed.

(** ** The loads of the nodes *)

Lemma get_avg_load_nonpos n c : c ≤ 0 → (node_load.get_avg_load n c <= 0)%Q.
Proof.
  intros Hc. unfold node_load.get_avg_load, Qdiv.
  rewrite <- (Qmult_0_l (/ inject_Z (Z.of_nat (node_load.shard_count n)))).
  apply Qmult_le_compat_r.
  - change 0%Q with (inject_Z 0). by rewrite <- Zle_Qle.
  - apply Qinv_le_0_compat. change 0%Q with (inject_Z 0). rewrite <- Zle_Qle. lia.
Qed.

Lemma load_up_to_date_empty : load_up_to_date node_load.empty.
Proof. done. Qed.

Lemma load_up_to_date_update n : load_up_to_date (node_load.update n).
Proof. done. Qed.

Lemma load_up_to_date_add_tablets d n : load_up_to_date (node_load.add_tablets d n).
Proof. done. Qed.

Lemma load_up_to_date_fields n n' :
  node_load.shard_count n' = node_load.shard_count n →
  node_load.tablet_count n' = node_load.tablet_count n →
  node_load.avg_load n' = node_load.avg_load n →
  load_up_to_date n → load_up_to_date n'.
Proof.
  unfold load_up_to_date, node_load.get_avg_load. by intros -> -> ->.
Qed.

Section heaps_keep.

Variable make_heap : ∀ A : Type, (A → A → bool) → list A → list A.

(** Making the heaps changes [shards_by_load] only. *)
Lemma prepare_heaps_keeps (P : node_load.t → Prop) (ns : gmap N node_load.t) :
  (∀ n, P n → P (make_shard_heap make_heap n)) →
  (∀ h, P (ns !!! h)) →
  ∀ h, P ((prepare_heaps make_heap ns).1 !!! h).
Proof.
  intros Hkeep H0. unfold prepare_heaps. cbv zeta. simpl.
  apply (foldl_prefix_invariant
           (fun (_ : list N) (acc : gmap N node_load.t * list N) =>
              ∀ h, P (acc.1 !!! h))); [done|].
  intros pre x [acc nbl] _ IH h. simpl in *.
  destruct (decide (h = x)) as [->|]; upd_simpl; [|done].
  apply Hkeep, IH.
Qed.

End heaps_keep.

Section loads.

Variables make_heap pop_heap push_heap :
  ∀ A : Type, (A → A → bool) → list A → list A.
Variable set_begin : list global_tablet_id → global_tablet_id.
Hypothesis make_heap_perm : ∀ A comp (l : list A), make_heap A comp l ≡ₚ l.
Hypothesis pop_heap_perm : ∀ A comp (l : list A), pop_heap A comp l ≡ₚ l.
Hypothesis push_heap_perm : ∀ A comp (l : list A), push_heap A comp l ≡ₚ l.
Variable tm : token_metadata.
Variable plan_dc : string.
Variable node_order : gmap N node_load.t → list N.
Hypothesis node_order_perm : ∀ ns, node_order ns ≡ₚ (map_to_list ns).*1.

(** When the loop is entered every [avg_load] is the one of the count of
    its node, and no count is negative. *)
Lemma prepare_entry_loads target target_node st0 :
  prepare make_heap tm plan_dc node_order = Next (target, target_node, st0) →
  ∀ h, load_up_to_date (nodes st0 !!! h)
       ∧ 0 ≤ node_load.tablet_count (nodes st0 !!! h).
Proof.
  intros (ns & nsD & Hns & _ & _ & _ & HD & ->)%prepare_Next.
  cbn [nodes].
  apply (prepare_heaps_keeps make_heap
           (fun n => load_up_to_date n ∧ 0 ≤ node_load.tablet_count n));
    [by intros n [? ?]|].
  intros h.
  apply collect_candidates_Next in HD as [_ HD].
  apply collect_replicas_spec in HD as [Hnone Hsome].
  destruct (compute_imbalance_spec node_order node_order_perm ns) as (Hci & _). rewrite Hci in *.
  destruct (ns !! h) as [n|] eqn:Hn.
  - destruct (Hsome h (node_load.update n)) as (n' & Hn' & Hsc & Htc & Havg & _).
    { by rewrite lookup_fmap, Hn. }
    rewrite (lookup_total_Some _ _ _ Hn'). split.
    + by apply (load_up_to_date_fields (node_load.update n)).
    + rewrite Htc. simpl.
      apply compute_node_loads_spec in Hns as (N1 & _).
      destruct (N1 _ _ Hn) as (nd & _ & _ & _ & _ & _ & -> & _).
      apply wrap64_nonneg.
  - rewrite (lookup_total_None h nsD); [done|].
    apply Hnone. by rewrite lookup_fmap, Hn.
Qed.

Variable target : N.
Variable target_node : node.

Lemma moved_away_loads s t n :
  load_up_to_date (moved_away pop_heap push_heap s t n)
  ∧ 0 ≤ node_load.tablet_count (moved_away pop_heap push_heap s t n).
Proof.
  split.
  - unfold moved_away. cbv zeta. by destruct (bool_decide _).
  - rewrite (tablet_count_moved_away pop_heap push_heap). apply wrap64_nonneg.
Qed.

(** Every pass keeps the loads up to date: [update()] follows every
    change of a [tablet_count]. *)
Lemma pass_loads st it :
  pass pop_heap push_heap set_begin tm plan_dc target target_node st it →
  (∀ h, load_up_to_date (nodes st !!! h)
        ∧ 0 ≤ node_load.tablet_count (nodes st !!! h)) →
  ∀ h, load_up_to_date (nodes (state_of it) !!! h)
       ∧ 0 ≤ node_load.tablet_count (nodes (state_of it) !!! h).
Proof.
  intros Hp HJ h.
  destruct Hp as [|src_host st' _ Hn _ _
                 |src_host src_shard info st' _ _ _ _ _ Hn _ _
                 |src_host src_shard info st' _ Hn _ _
                 |src_host src_shard info st' _ _ Hne Hn _ _];
    simpl; rewrite ?Hn; try done.
  - destruct (decide (h = src_host)) as [->|]; upd_simpl; [|done]. apply HJ.
  - destruct (decide (h = src_host)) as [->|]; upd_simpl; [|done]. apply HJ.
  - destruct (decide (h = src_host)) as [->|Hh]; upd_simpl.
    + apply moved_away_loads.
    + destruct (decide (h = target)) as [->|]; upd_simpl; [|done].
      split; [done|]. simpl. apply wrap64_nonneg.
Qed.

Lemma loop_reaches_loads st0 st :
  (∀ h, load_up_to_date (nodes st0 !!! h)
        ∧ 0 ≤ node_load.tablet_count (nodes st0 !!! h)) →
  loop_reaches pop_heap push_heap set_begin tm plan_dc target target_node st0 st →
  ∀ h, load_up_to_date (nodes st !!! h)
       ∧ 0 ≤ node_load.tablet_count (nodes st !!! h).
Proof.
  intros H0.
  apply (loop_reaches_invariant pop_heap push_heap set_begin tm plan_dc
           target target_node
           (fun st => ∀ h, load_up_to_date (nodes st !!! h)
                           ∧ 0 ≤ node_load.tablet_count (nodes st !!! h)));
    [|done].
  intros st1 it HJ _ Hb.
  apply (loop_body_pass pop_heap push_heap set_begin pop_heap_perm
           push_heap_perm) in Hb.
  by apply (pass_loads st1 it).
Qed.

(** The source of a pass that selects one has a load above the target's,
    hence a count above zero. *)
Lemma source_selected_loads st src_host src_shard info :
  (∀ h, load_up_to_date (nodes st !!! h)
        ∧ 0 ≤ node_load.tablet_count (nodes st !!! h)) →
  source_selected pop_heap target st src_host src_shard info →
  (node_load.avg_load (nodes st !!! target)
   < node_load.avg_load (nodes st !!! src_host))%Q
  ∧ 0 < node_load.tablet_count (nodes st !!! src_host).
Proof.
  intros HJ (_ & Hle & _).
  assert (node_load.avg_load (nodes st !!! target)
          < node_load.avg_load (nodes st !!! src_host))%Q as Hlt.
  { apply Qnot_le_lt. intros H. unfold load_le in Hle.
    apply Qle_bool_iff in H. congruence. }
  split; [done|].
  destruct (HJ target) as [Ht Htc]. destruct (HJ src_host) as [Hs _].
  rewrite Ht, Hs in Hlt.
  destruct (decide (0 < node_load.tablet_count (nodes st !!! src_host)))
    as [|Hn]; [done|].
  exfalso. apply (Qlt_not_le _ _ Hlt).
  eapply Qle_trans; [apply get_avg_load_nonpos; lia|].
  by apply get_avg_load_nonneg.
Qed.

End loads.

(** ** The shards after the second scan *)

Lemma elem_of_emplace_iff t g c : t ∈ emplace g c ↔ t = g ∨ t ∈ c.
Proof.
  split; [apply elem_of_emplace|].
  unfold emplace. case_decide; intros [->|?]; try done; [by left|by right].
Qed.

Lemma NoDup_emplace g c : NoDup c → NoDup (emplace g c).
Proof. unfold emplace. case_decide; [done|]. by constructor. Qed.

Lemma count_shard_snoc h s l g r :
  count_shard h s (l ++ [(g, r)])
  = count_shard h s l + (if decide (host r = h ∧ shard r = s) then 1 else 0).
Proof.
  unfold count_shard. rewrite filter_app, length_app, filter_cons, filter_nil. simpl.
  case_decide; simpl; lia.
Qed.

Lemma count_shard_bounds h s l : 0 ≤ count_shard h s l ≤ Z.of_nat (length l).
Proof.
  unfold count_shard. split; [lia|]. apply inj_le, length_filter.
Qed.

Lemma tablet_count_replicate c s :
  shard_load.tablet_count (replicate c shard_load.empty !!! s) = 0.
Proof.
  rewrite list_lookup_total_alt.
  destruct (replicate c shard_load.empty !! s) as [x|] eqn:Hx; [|done].
  by apply lookup_replicate in Hx as [-> _].
Qed.

Lemma NoDup_last_removelast {A : Type} (l : list A) x :
  NoDup l → last l = Some x → x ∉ removelast l.
Proof.
  intros Hnd [l' ->]%last_Some. rewrite removelast_last.
  apply NoDup_app in Hnd as (_ & Hnot & _). intros Hx. apply (Hnot _ Hx). by left.
Qed.

(** The candidates of a shard are, without repetition, the tablets with a
    replica on that shard among the replicas that the scan has met. *)
Lemma collect_replicas_candidates_exact L (ns ns' : gmap N node_load.t) :
  (∀ h s, candidates_at ns h s = []) →
  for_each (fun gr => collect_replica gr.1 gr.2) L ns = Next ns' →
  ∀ h, is_Some (ns' !! h) →
    ∀ s, NoDup (candidates_at ns' h s)
         ∧ ∀ t, t ∈ candidates_at ns' h s ↔ (t, {| host := h; shard := s |}) ∈ L.
Proof.
  intros Hbase.
  apply (for_each_prefix_invariant
           (fun pre acc =>
              ∀ h, is_Some (acc !! h) →
                ∀ s, NoDup (candidates_at acc h s)
                     ∧ ∀ t, t ∈ candidates_at acc h s
                            ↔ (t, {| host := h; shard := s |}) ∈ pre)).
  { intros h _ s. rewrite Hbase. split; [constructor|].
    intros t. split; by intros ?%elem_of_nil. }
  intros pre [g r] acc acc' _ IH Hstep h Hh s. simpl in Hstep.
  apply collect_replica_step in Hstep
    as [[Hnone ->]|(n & info & n' & Hn & Hinfo & -> & _ & _ & _ & _ & Hsh)].
  - destruct (IH h Hh s) as [Hnd Hiff]. split; [done|].
    intros t. rewrite Hiff, elem_of_app, list_elem_of_singleton.
    split; [by left|]. intros [?|Heq]; [done|]. exfalso.
    injection Heq as -> <-. simpl in Hnone. rewrite Hnone in Hh. by destruct Hh.
  - assert (is_Some (acc !! h)) as Hacc.
    { destruct (decide (h = host r)) as [->|Hne]; [by eexists|].
      by rewrite lookup_insert_ne in Hh. }
    destruct (IH h Hacc s) as [Hnd Hiff].
    destruct (decide (h = host r ∧ s = shard r)) as [[-> ->]|Hne].
    + unfold candidates_at in *.
      rewrite lookup_total_insert_eq, Hsh.
      rewrite list_lookup_total_insert_eq by by eapply lookup_lt_Some.
      rewrite (lookup_total_Some _ _ _ Hn) in Hnd, Hiff.
      rewrite (list_lookup_total_correct _ _ _ Hinfo) in Hnd, Hiff.
      simpl. split; [by apply NoDup_emplace|].
      intros t. rewrite elem_of_emplace_iff, Hiff, elem_of_app, list_elem_of_singleton.
      destruct r as [rh rs]. simpl. split.
      * intros [->|?]; [by right|by left].
      * intros [?|[= -> ]]; [by right|by left].
    + assert (candidates_at (<[host r := n']> acc) h s = candidates_at acc h s) as ->.
      { unfold candidates_at.
        destruct (decide (h = host r)) as [->|Hh'].
        - rewrite lookup_total_insert_eq, Hsh, (lookup_total_Some _ _ _ Hn).
          rewrite list_lookup_total_insert_ne; [done|]. intros <-. by apply Hne.
        - by rewrite lookup_total_insert_ne. }
      split; [done|].
      intros t. rewrite Hiff, elem_of_app, list_elem_of_singleton.
      split; [by left|]. intros [?|Heq]; [done|]. exfalso.
      injection Heq as -> <-. by apply Hne.
Qed.

(** With fewer than 2^64 replicas in the snapshot the count of a shard is
    the number of replicas on it, and [shards_by_load] lists, once each, the
    shards whose count is not zero. *)
Lemma collect_replicas_counts L (ns ns' : gmap N node_load.t) :
  Z.of_nat (length L) < 2 ^ 64 →
  (∀ h, node_load.shards_by_load (ns !!! h) = []
        ∧ ∀ s, shard_load.tablet_count (node_load.shards (ns !!! h) !!! s) = 0) →
  for_each (fun gr => collect_replica gr.1 gr.2) L ns = Next ns' →
  ∀ h, is_Some (ns' !! h) →
    NoDup (node_load.shards_by_load (ns' !!! h))
    ∧ (∀ s, s ∈ node_load.shards_by_load (ns' !!! h)
            ↔ 0 < shard_load.tablet_count (node_load.shards (ns' !!! h) !!! s))
    ∧ (∀ s, shard_load.tablet_count (node_load.shards (ns' !!! h) !!! s)
            = count_shard h s L).
Proof.
  intros Hbound Hbase.
  apply (for_each_split_invariant
           (fun pre acc =>
              ∀ h, is_Some (acc !! h) →
                NoDup (node_load.shards_by_load (acc !!! h))
                ∧ (∀ s, s ∈ node_load.shards_by_load (acc !!! h)
                        ↔ 0 < shard_load.tablet_count
                                (node_load.shards (acc !!! h) !!! s))
                ∧ (∀ s, shard_load.tablet_count (node_load.shards (acc !!! h) !!! s)
                        = count_shard h s pre))).
  { intros h _. destruct (Hbase h) as [-> Hz]. split_and!.
    - constructor.
    - intros s. rewrite Hz. split; [by intros ?%elem_of_nil|lia].
    - intros s. by rewrite Hz. }
  intros pre [g r] suf acc acc' HL IH Hstep h Hh. simpl in Hstep.
  assert (Z.of_nat (length pre) + 1 < 2 ^ 64) as Hpre.
  { rewrite HL, length_app in Hbound. simpl in Hbound. lia. }
  apply collect_replica_step in Hstep
    as [[Hnone ->]|(n & info & n' & Hn & Hinfo & -> & _ & _ & _ & Hsbl & Hsh)].
  - destruct (IH h Hh) as (Hnd & Hiff & Hcount). split_and!; try done.
    intros s. rewrite Hcount, count_shard_snoc, decide_False; [lia|].
    intros [<- _]. rewrite Hnone in Hh. by destruct Hh.
  - destruct (decide (h = host r)) as [->|Hne].
    2:{ rewrite lookup_insert_ne in Hh by done.
        rewrite lookup_total_insert_ne by done.
        destruct (IH h Hh) as (Hnd & Hiff & Hcount). split_and!; try done.
        intros s. rewrite Hcount, count_shard_snoc, decide_False; [lia|].
        intros [? _]. by apply Hne. }
    destruct (IH (host r)) as (Hnd & Hiff & Hcount); [by eexists|].
    rewrite (lookup_total_Some _ _ _ Hn) in Hnd, Hiff, Hcount.
    rewrite lookup_total_insert_eq, Hsbl, Hsh.
    pose proof (lookup_lt_Some _ _ _ Hinfo) as Hlt.
    pose proof (list_lookup_total_correct _ _ _ Hinfo) as Hinfo'.
    assert (shard_load.tablet_count info = count_shard (host r) (shard r) pre) as Htc.
    { by rewrite <- Hinfo', Hcount. }
    pose proof (count_shard_bounds (host r) (shard r) pre) as Hb.
    assert (∀ s, shard_load.tablet_count
                   (<[shard r := emplace_candidate g (add_shard_tablets 1 info)]>
                      (node_load.shards n) !!! s)
                 = count_shard (host r) s (pre ++ [(g, r)])) as Hnew.
    { intros s. rewrite count_shard_snoc.
      destruct (decide (s = shard r)) as [->|Hs].
      - rewrite list_lookup_total_insert_eq by done. simpl.
        rewrite decide_True by done. rewrite Htc.
        unfold wrap64. apply Z.mod_small. lia.
      - rewrite list_lookup_total_insert_ne by done.
        rewrite decide_False; [by rewrite Hcount, Z.add_0_r|].
        intros [_ ?]. by apply Hs. }
    split_and!; [| |done].
    + case_decide as Hz; [|done]. apply NoDup_app. split_and!; [done| |].
      * intros x Hx ->%list_elem_of_singleton. apply Hiff in Hx.
        rewrite Hinfo' in Hx. lia.
      * apply NoDup_singleton.
    + intros s. rewrite Hnew, count_shard_snoc.
      destruct (decide (host r = host r ∧ shard r = s)) as [[_ <-]|Hs].
      * split; [lia|]. intros _.
        destruct (decide (shard_load.tablet_count info = 0)) as [Hz|Hz].
        -- apply elem_of_app. right. by left.
        -- apply Hiff. rewrite Hinfo'. lia.
      * rewrite Z.add_0_r, <- Hcount, <- Hiff.
        destruct (decide (shard_load.tablet_count info = 0)) as [Hz|Hz]; [|done].
        rewrite elem_of_app, list_elem_of_singleton.
        split; [|by left]. intros [?|Heq]; [done|]. by destruct Hs.
Qed.

Lemma NoDup_removelast {A : Type} (l : list A) : NoDup l → NoDup (removelast l).
Proof.
  destruct l as [|x l _] using rev_ind; [done|].
  rewrite removelast_last. by intros (? & _)%NoDup_app.
Qed.

Section shards.

Variables make_heap pop_heap push_heap :
  ∀ A : Type, (A → A → bool) → list A → list A.
Variable set_begin : list global_tablet_id → global_tablet_id.
Hypothesis make_heap_perm : ∀ A comp (l : list A), make_heap A comp l ≡ₚ l.
Hypothesis pop_heap_perm : ∀ A comp (l : list A), pop_heap A comp l ≡ₚ l.
Hypothesis push_heap_perm : ∀ A comp (l : list A), push_heap A comp l ≡ₚ l.
Hypothesis set_begin_elem : ∀ c, c ≠ [] → set_begin c ∈ c.
Variable tm : token_metadata.
Variable plan_dc : string.
Variable node_order : gmap N node_load.t → list N.
Hypothesis node_order_perm : ∀ ns, node_order ns ≡ₚ (map_to_list ns).*1.

(** What the second scan and the making of the heaps leave in a node of
    the map. *)
Lemma prepare_entry_node target target_node st0 h :
  prepare make_heap tm plan_dc node_order = Next (target, target_node, st0) →
  normal_node_in tm plan_dc h →
  ∃ ns nsD nD,
    compute_node_loads tm plan_dc = Next ns
    ∧ for_each (fun gr => collect_replica gr.1 gr.2) (all_replicas tm)
        (node_load.update <$> ns) = Next nsD
    ∧ nsD !! h = Some nD
    ∧ node_load.shards (nodes st0 !!! h) = node_load.shards nD
    ∧ node_load.shards_by_load (nodes st0 !!! h) ≡ₚ node_load.shards_by_load nD.
Proof.
  intros Hprep Hh.
  apply prepare_Next in Hprep as (ns & nsD & Hns & _ & _ & _ & HD & ->).
  cbn [nodes].
  apply (compute_node_loads_nodes tm plan_dc ns h Hns) in Hh as [n Hn].
  destruct (after_collect _ _ _ node_order_perm _ _ Hns HD) as [_ Dsome].
  destruct (Dsome _ _ Hn) as (nD & HnD & _).
  destruct (prepare_heaps_spec make_heap make_heap_perm nsD) as (_ & Esome & _).
  destruct (Esome _ _ HnD) as (nE & HnE & _ & Hsh & Hsbl).
  apply collect_candidates_Next in HD as [_ HD].
  destruct (compute_imbalance_spec node_order node_order_perm ns) as (Hci & _). rewrite Hci in HD.
  exists ns, nsD, nD. rewrite (lookup_total_Some _ _ _ HnE). done.
Qed.

Lemma compute_node_loads_shards ns h :
  compute_node_loads tm plan_dc = Next ns →
  node_load.shards_by_load ((node_load.update <$> ns) !!! h) = []
  ∧ ∀ s, shard_load.tablet_count
           (node_load.shards ((node_load.update <$> ns) !!! h) !!! s) = 0
         ∧ candidates_at (node_load.update <$> ns) h s = [].
Proof.
  intros (N1 & _)%compute_node_loads_spec. unfold candidates_at.
  destruct (ns !! h) as [n|] eqn:Hn.
  - rewrite (lookup_total_Some h _ (node_load.update n))
      by by rewrite lookup_fmap, Hn.
    destruct (N1 _ _ Hn) as (nd & _ & _ & _ & _ & _ & _ & Hsbl & Hsh). simpl.
    rewrite Hsbl, Hsh. split; [done|]. intros s.
    by rewrite tablet_count_replicate, candidates_replicate.
  - rewrite (lookup_total_None h) by by rewrite lookup_fmap, Hn.
    split; [done|]. by intros s.
Qed.

(** The candidates of the shards when the loop is entered. *)
Lemma prepare_entry_candidates target target_node st0 h s :
  prepare make_heap tm plan_dc node_order = Next (target, target_node, st0) →
  normal_node_in tm plan_dc h →
  NoDup (candidates_at (nodes st0) h s)
  ∧ ∀ t, t ∈ candidates_at (nodes st0) h s
         ↔ {| host := h; shard := s |} ∈ replicas_of tm t.
Proof.
  intros Hprep Hh.
  destruct (prepare_entry_node _ _ _ _ Hprep Hh)
    as (ns & nsD & nD & Hns & HD & HnD & Hsh & _).
  destruct (collect_replicas_candidates_exact _ _ _
              (fun h s => proj2 (proj2 (compute_node_loads_shards ns h Hns) s))
              HD h (mk_is_Some _ _ HnD) s) as [Hnd Hiff].
  unfold candidates_at in *. rewrite (lookup_total_Some _ _ _ HnD) in Hnd, Hiff.
  rewrite Hsh. split; [done|].
  intros t. by rewrite Hiff, elem_of_all_replicas.
Qed.

(** The counts of the shards and the heap of shards when the loop is
    entered. *)
Lemma prepare_entry_counts target target_node st0 h :
  prepare make_heap tm plan_dc node_order = Next (target, target_node, st0) →
  Z.of_nat (length (all_replicas tm)) < 2 ^ 64 →
  normal_node_in tm plan_dc h →
  NoDup (node_load.shards_by_load (nodes st0 !!! h))
  ∧ (∀ s, s ∈ node_load.shards_by_load (nodes st0 !!! h)
          ↔ 0 < shard_load.tablet_count (node_load.shards (nodes st0 !!! h) !!! s))
  ∧ (∀ s, shard_load.tablet_count (node_load.shards (nodes st0 !!! h) !!! s)
          = count_shard h s (all_replicas tm)).
Proof.
  intros Hprep Hbound Hh.
  destruct (prepare_entry_node _ _ _ _ Hprep Hh)
    as (ns & nsD & nD & Hns & HD & HnD & Hsh & Hsbl).
  destruct (collect_replicas_counts _ _ _ Hbound
              (fun h => conj (proj1 (compute_node_loads_shards ns h Hns))
                             (fun s => proj1 (proj2 (compute_node_loads_shards
                                                       ns h Hns) s)))
              HD h (mk_is_Some _ _ HnD)) as (Hnd & Hiff & Hcount).
  rewrite (lookup_total_Some _ _ _ HnD) in Hnd, Hiff, Hcount.
  rewrite Hsh. split_and!; try done.
  - by rewrite Hsbl.
  - intros s. by rewrite Hsbl.
Qed.

(** The same for every host, in the map of nodes or not. *)
Lemma prepare_entry_positive target target_node st0 :
  prepare make_heap tm plan_dc node_order = Next (target, target_node, st0) →
  Z.of_nat (length (all_replicas tm)) < 2 ^ 64 →
  ∀ h, NoDup (node_load.shards_by_load (nodes st0 !!! h))
       ∧ ∀ s, s ∈ node_load.shards_by_load (nodes st0 !!! h) →
              0 < shard_load.tablet_count (node_load.shards (nodes st0 !!! h) !!! s).
Proof.
  intros Hprep Hbound h.
  destruct (nodes st0 !! h) as [n|] eqn:Hn.
  - assert (normal_node_in tm plan_dc h) as Hh.
    { pose proof Hprep as (ns & nsD & Hns & _ & _ & _ & HD & ->)%prepare_Next.
      cbn [nodes] in Hn.
      apply (compute_node_loads_nodes tm plan_dc ns h Hns).
      destruct (ns !! h) as [n0|] eqn:Hn0; [by eexists|].
      destruct (after_collect _ _ _ node_order_perm _ _ Hns HD) as [Dnone _].
      destruct (prepare_heaps_spec make_heap make_heap_perm nsD) as (Enone & _).
      rewrite (Enone _ (Dnone _ Hn0)) in Hn. done. }
    destruct (prepare_entry_counts _ _ _ _ Hprep Hbound Hh) as (Hnd & Hiff & _).
    split; [done|]. intros s. by rewrite Hiff.
  - rewrite (lookup_total_None _ _ Hn). split; [constructor|].
    by intros s ?%elem_of_nil.
Qed.

Variable target : N.
Variable target_node : node.

Lemma moved_away_positive s t n info :
  node_load.shards n !! s = Some info →
  last (node_load.shards_by_load (pop_shard_heap pop_heap n)) = Some s →
  NoDup (node_load.shards_by_load n) →
  (∀ s', s' ∈ node_load.shards_by_load n →
         0 < shard_load.tablet_count (node_load.shards n !!! s')) →
  NoDup (node_load.shards_by_load (moved_away pop_heap push_heap s t n))
  ∧ ∀ s', s' ∈ node_load.shards_by_load (moved_away pop_heap push_heap s t n) →
          0 < shard_load.tablet_count
                (node_load.shards (moved_away pop_heap push_heap s t n) !!! s').
Proof.
  intros Hinfo Hlast Hnd Hpos.
  pose proof (lookup_lt_Some _ _ _ Hinfo) as Hlt.
  rewrite shards_moved_away.
  assert (NoDup (pop_heap _ (node_load.shards_by_load_cmp n)
                   (node_load.shards_by_load n))) as Hnd'.
  { by rewrite pop_heap_perm. }
  unfold moved_away. cbv zeta. simpl in *.
  rewrite list_lookup_total_insert_eq by (rewrite ?length_insert; done).
  rewrite list_lookup_total_insert_eq by done. simpl.
  destruct (bool_decide _) eqn:Hc; simpl.
  - apply bool_decide_eq_true in Hc. split; [by apply NoDup_removelast|].
    intros s' Hs'.
    destruct (decide (s' = s)) as [->|Hne].
    { by apply NoDup_last_removelast in Hs'. }
    rewrite list_lookup_total_insert_ne by done. apply Hpos.
    apply elem_of_removelast in Hs'. by rewrite pop_heap_perm in Hs'.
  - apply bool_decide_eq_false in Hc. split.
    { by rewrite push_heap_perm. }
    intros s'. rewrite push_heap_perm, pop_heap_perm. intros Hs'.
    destruct (decide (s' = s)) as [->|Hne].
    + rewrite list_lookup_total_insert_eq by done. simpl.
      pose proof (wrap64_nonneg
                    (shard_load.tablet_count (node_load.shards n !!! s) + -1)).
      simpl in Hc. lia.
    + rewrite list_lookup_total_insert_ne by done. by apply Hpos.
Qed.

(** Every pass keeps in [shards_by_load], once each, shards whose count
    is not zero. *)
Lemma pass_positive st it :
  pass pop_heap push_heap set_begin tm plan_dc target target_node st it →
  (∀ h, NoDup (node_load.shards_by_load (nodes st !!! h))
        ∧ ∀ s, s ∈ node_load.shards_by_load (nodes st !!! h) →
               0 < shard_load.tablet_count (node_load.shards (nodes st !!! h) !!! s)) →
  ∀ h, NoDup (node_load.shards_by_load (nodes (state_of it) !!! h))
       ∧ ∀ s, s ∈ node_load.shards_by_load (nodes (state_of it) !!! h) →
              0 < shard_load.tablet_count
                    (node_load.shards (nodes (state_of it) !!! h) !!! s).
Proof.
  intros Hp HJ h.
  destruct Hp as [|src_host st' _ Hn _ _
                 |src_host src_shard info st' _ _ _ _ _ Hn _ _
                 |src_host src_shard info st' _ Hn _ _
                 |src_host src_shard info st' Hsel _ Hne Hn _ _];
    simpl; rewrite ?Hn; try done.
  - destruct (decide (h = src_host)) as [->|]; upd_simpl; [|done].
    destruct (HJ src_host) as [Hnd Hpos]. simpl. split.
    + apply NoDup_removelast. by rewrite pop_heap_perm.
    + intros s Hs%elem_of_removelast. rewrite pop_heap_perm in Hs. by apply Hpos.
  - destruct (decide (h = src_host)) as [->|]; upd_simpl; [|done].
    destruct (HJ src_host) as [Hnd Hpos]. simpl. split.
    + by rewrite push_heap_perm, pop_heap_perm.
    + intros s. rewrite push_heap_perm, pop_heap_perm. intros Hs.
      rewrite list_lookup_total_insert.
      case_decide as Hd; [|by apply Hpos]. destruct Hd as [-> _]. simpl.
      by apply Hpos.
  - destruct Hsel as (_ & _ & _ & Hlast & Hinfo & _).
    destruct (decide (h = src_host)) as [->|Hh]; upd_simpl.
    + destruct (HJ src_host) as [Hnd Hpos]. by eapply moved_away_positive.
    + destruct (decide (h = target)) as [->|]; upd_simpl; [|done].
      apply (HJ target).
Qed.

Lemma loop_reaches_positive st0 st :
  (∀ h, NoDup (node_load.shards_by_load (nodes st0 !!! h))
        ∧ ∀ s, s ∈ node_load.shards_by_load (nodes st0 !!! h) →
               0 < shard_load.tablet_count (node_load.shards (nodes st0 !!! h) !!! s)) →
  loop_reaches pop_heap push_heap set_begin tm plan_dc target target_node st0 st →
  ∀ h, NoDup (node_load.shards_by_load (nodes st !!! h))
       ∧ ∀ s, s ∈ node_load.shards_by_load (nodes st !!! h) →
              0 < shard_load.tablet_count (node_load.shards (nodes st !!! h) !!! s).
Proof.
  intros H0.
  apply (loop_reaches_invariant pop_heap push_heap set_begin tm plan_dc
           target target_node
           (fun st =>
              ∀ h, NoDup (node_load.shards_by_load (nodes st !!! h))
                   ∧ ∀ s, s ∈ node_load.shards_by_load (nodes st !!! h) →
                          0 < shard_load.tablet_count
                                (node_load.shards (nodes st !!! h) !!! s)));
    [|done].
  intros st1 it HJ _ Hb.
  apply (loop_body_pass pop_heap push_heap set_begin pop_heap_perm
           push_heap_perm) in Hb.
  by apply (pass_positive st1 it).
Qed.

End shards.

(** ** The exceptions of the planner *)

Section exceptions.

Variables make_heap pop_heap push_heap :
  ∀ A : Type, (A → A → bool) → list A → list A.
Variable set_begin : list global_tablet_id → global_tablet_id.
Hypothesis make_heap_perm : ∀ A comp (l : list A), make_heap A comp l ≡ₚ l.
Hypothesis pop_heap_perm : ∀ A comp (l : list A), pop_heap A comp l ≡ₚ l.
Hypothesis push_heap_perm : ∀ A comp (l : list A), push_heap A comp l ≡ₚ l.
Hypothesis set_begin_elem : ∀ c, c ≠ [] → set_begin c ∈ c.
Variable tm : token_metadata.
Variable plan_dc : string.
Variable node_order : gmap N node_load.t → list N.
Hypothesis node_order_perm : ∀ ns, node_order ns ≡ₚ (map_to_list ns).*1.

(** The first scan throws for a node without shards only. *)
Lemma select_nodes_Throw e :
  for_each (select_node plan_dc) (map_to_list (get_topology tm)) ∅ = Throw e →
  reports_invalid_topology tm plan_dc e.
Proof.
  intros (pre & [h nd] & suf & s1 & Hl & _ & Hb)%for_each_Throw.
  assert (get_topology tm !! h = Some nd) as Hnd.
  { apply elem_of_map_to_list. rewrite Hl. apply elem_of_app. right. by left. }
  unfold select_node in Hb. simpl in Hb.
  destruct (decide (get_state nd = normal ∧ dc (dc_rack nd) = plan_dc))
    as [[? ?]|]; [|done].
  destruct (decide (get_shard_count nd = 0%nat)); [|done].
  injection Hb as <-. simpl. by exists nd.
Qed.

(** The scan that counts the tablets of the nodes throws for a replica
    on a shard that its node does not have only. *)
Lemma count_replicas_Throw nsA e :
  for_each (select_node plan_dc) (map_to_list (get_topology tm)) ∅ = Next nsA →
  for_each (fun gr => count_replica gr.1 gr.2) (all_replicas tm) nsA = Throw e →
  reports_invalid_topology tm plan_dc e.
Proof.
  intros [A1 _]%select_nodes_spec
         (pre & [g r] & suf & s1 & Hl & Hpre & Hb)%for_each_Throw.
  assert (r ∈ replicas_of tm g) as Hr.
  { apply elem_of_all_replicas. rewrite Hl. apply elem_of_app. right. by left. }
  apply count_replicas_spec in Hpre as [Hs1 _].
  2:{ intros h n Hn. by destruct (A1 _ _ Hn) as (nd & _ & _ & _ & _ & _ & ? & _). }
  unfold count_replica in Hb. simpl in Hb.
  destruct (decide (is_Some (s1 !! host r))) as [[n1 Hn1]|]; [|done].
  destruct (decide (_ ≤ _)%nat) as [Hle|]; [|done].
  injection Hb as <-. simpl.
  rewrite upd_node_total_eq in Hle. simpl in Hle.
  rewrite (lookup_total_Some _ _ _ Hn1) in Hle.
  rewrite Hs1 in Hn1.
  destruct (nsA !! host r) as [n|] eqn:Hn; [|done]. simpl in Hn1.
  injection Hn1 as <-. simpl in Hle.
  destruct (A1 _ _ Hn) as (nd & ? & ? & ? & _ & Hsc & _).
  exists nd. rewrite <- Hsc. done.
Qed.

Lemma compute_node_loads_reports e :
  compute_node_loads tm plan_dc = Throw e →
  reports_invalid_topology tm plan_dc e.
Proof.
  unfold compute_node_loads. intros H.
  destruct (for_each (select_node plan_dc) _ ∅) as [nsA| | |] eqn:HA;
    cbn in H; try done.
  - rewrite count_tables_flat in H. by eapply count_replicas_Throw.
  - simplify_eq. by apply select_nodes_Throw.
Qed.

(** Between the first scans and the selection loop nothing throws. *)
Lemma prepare_Throw e :
  prepare make_heap tm plan_dc node_order = Throw e →
  compute_node_loads tm plan_dc = Throw e.
Proof.
  unfold prepare. intros H.
  destruct (compute_node_loads tm plan_dc) as [ns| | |] eqn:Hns; cbn in H;
    try done; [|by simplify_eq].
  exfalso.
  destruct (load_eq _ _) eqn:Heq; [done|].
  destruct (compute_imbalance_spec node_order node_order_perm ns) as (Hci & _ & _ & _ & Ht).
  pose proof (compute_node_loads_spec _ _ _ Hns) as (N1 & _ & N3).
  destruct (min_load_node _) as [target|].
  2:{ destruct Ht as (_ & Hmin & Hmax). rewrite Hmin, Hmax in Heq. done. }
  destruct Ht as (nt & Hnt & _).
  destruct (N1 _ _ Hnt) as (nd & Hnd & _). rewrite Hnd in H.
  destruct (collect_candidates_safe tm (compute_imbalance node_order ns).1) as [[nsD HD]|HD];
    [|rewrite HD in H; done|rewrite HD in H; done].
  intros g r n Hr. rewrite Hci, lookup_fmap.
  destruct (ns !! host r) as [n0|] eqn:Hn0; simpl; [|done]. intros [= <-]. simpl.
  destruct (N1 _ _ Hn0) as (nd' & _ & _ & _ & _ & Hsc & _ & _ & ->).
  rewrite length_replicate, <- Hsc. by eapply N3.
Qed.

Variable target : N.
Variable target_node : node.

(** The scan of a replica list throws for a host that the topology does
    not hold only. *)
Lemma scan_replicas_outcome same_rack rs rl :
  (∃ res, scan_replicas tm plan_dc target same_rack rs rl = Next res)
  ∨ ∃ r, r ∈ rs ∧ get_topology tm !! host r = None
         ∧ scan_replicas tm plan_dc target same_rack rs rl
           = Throw (node_not_found (host r)).
Proof.
  revert rl; induction rs as [|r rs IH]; intros rl; simpl; [by eauto|].
  destruct (decide (host r = target)); [by eauto|].
  destruct same_rack.
  - destruct (IH rl) as [?|(r' & ? & ? & ?)]; [by left|].
    right. exists r'. split; [by right|done].
  - unfold get_node. destruct (get_topology tm !! host r) as [nd|] eqn:Hnd; cbn.
    + destruct (IH (if decide (dc (dc_rack nd) = plan_dc)
                    then <[rack (dc_rack nd) :=
                             default 0 (rl !! rack (dc_rack nd)) + 1]> rl
                    else rl)) as [?|(r' & ? & ? & ?)]; [by left|].
      right. exists r'. split; [by right|done].
    + right. exists r. split; [by left|done].
Qed.

(** In a well-formed state a pass through the body ends, or it throws
    for a replica on a host that the topology does not hold. *)
Lemma loop_body_outcome st :
  (∀ h, h ∈ nodes_by_load st →
     ∃ nd, get_topology tm !! h = Some nd ∧ dc (dc_rack nd) = plan_dc) →
  (∀ h s, s ∈ node_load.shards_by_load (nodes st !!! h) →
     (s < length (node_load.shards (nodes st !!! h)))%nat) →
  (∀ h s t, t ∈ candidates_at (nodes st) h s →
     ∃ r, r ∈ replicas_of tm t ∧ host r = h) →
  nodes_by_load st ≠ [] →
  (∃ it, loop_body pop_heap push_heap set_begin tm plan_dc target target_node st
         = Next it)
  ∨ ∃ t r, r ∈ replicas_of tm t ∧ get_topology tm !! host r = None
           ∧ loop_body pop_heap push_heap set_begin tm plan_dc target target_node st
             = Throw (node_not_found (host r)).
Proof.
  intros W1 W3 W4 Hne. unfold loop_body.
  destruct (last_elem (pop_heap _ (nodes_cmp (nodes st)) (nodes_by_load st)))
    as (src_host & -> & Hsrc).
  { intros Hnil. apply Hne. apply Permutation_nil_r. rewrite <- Hnil.
    by rewrite pop_heap_perm. }
  rewrite pop_heap_perm in Hsrc.
  repeat (match goal with
          | |- context [if ?c then _ else _] => destruct c; [by eauto|]
          end).
  unfold pick_candidate. upd_simpl. unfold pop_shard_heap at 1 2. simpl.
  destruct (last_elem (pop_heap _ (node_load.shards_by_load_cmp (nodes st !!! src_host))
                         (node_load.shards_by_load (nodes st !!! src_host))))
    as (src_shard & -> & Hshard).
  { intros Hnil. apply n. apply Permutation_nil_r. rewrite <- Hnil.
    by rewrite pop_heap_perm. }
  rewrite pop_heap_perm in Hshard. apply W3 in Hshard.
  destruct (lookup_lt_is_Some_2 _ _ Hshard) as [info Hinfo]. rewrite Hinfo.
  destruct (decide (shard_load.candidates info = [])) as [|Hc]; [by eauto|].
  pose proof (set_begin_elem _ Hc) as Hin.
  destruct (W4 src_host src_shard (set_begin (shard_load.candidates info)))
    as (r0 & Hr0 & Hhost).
  { unfold candidates_at. by rewrite (list_lookup_total_correct _ _ _ Hinfo). }
  destruct (W1 _ Hsrc) as (src_node & Hsn & Hdc).
  pose proof Hr0 as Hr0'.
  apply replicas_of_lookup in Hr0 as (tmap & ti & Htm & Hti & Hr0).
  unfold check_and_migrate, get_node, get_tablet_map, get_tablet_info.
  rewrite Hsn, Htm. cbn. rewrite Hti. cbn.
  destruct (scan_replicas_outcome
              (bool_decide (rack (dc_rack target_node) = rack (dc_rack src_node)))
              (replicas ti) ∅) as [[[has rl] Hscan]|(r & Hr & Hnone & Hscan)].
  2:{ right. exists (set_begin (shard_load.candidates info)), r.
      split_and!; [|done|by rewrite Hscan].
      unfold replicas_of. by rewrite Htm, Hti. }
  left. rewrite Hscan. cbn. destruct has; [by eauto|].
  case_bool_decide as Hrack; cbn; [by eauto|].
  unfold rack_load_exceeded.
  destruct (max_element _ (map_to_list rl)) as [m|] eqn:Hmax; cbn.
  { destruct (bool_decide _); by eauto. }
  exfalso. unfold max_element in Hmax.
  destruct (map_to_list rl) as [|x l] eqn:Hl; [|done].
  apply map_to_list_empty_iff in Hl. subst rl.
  pose proof (scan_replicas_rack_load tm plan_dc target _ _ _
                (rack (dc_rack src_node)) Hscan) as Hcount.
  rewrite !lookup_empty in Hcount. simpl in Hcount.
  unfold rack_count_of in Hcount.
  assert (r0 ∈ filter (fun r => Is_true (in_rack tm plan_dc (rack (dc_rack src_node)) r))
                      (replicas ti)) as Hf.
  { apply list_elem_of_filter. split; [|done].
    unfold in_rack. rewrite Hhost, Hsn.
    by rewrite !bool_decide_eq_true_2. }
  destruct (filter _ (replicas ti)); [by apply elem_of_nil in Hf|].
  simpl in Hcount. lia.
Qed.

Lemma selection_loop_Throw fuel st e :
  (∀ h, h ∈ nodes_by_load st →
     ∃ nd, get_topology tm !! h = Some nd ∧ dc (dc_rack nd) = plan_dc)
  ∧ (∀ h s, s ∈ node_load.shards_by_load (nodes st !!! h) →
       (s < length (node_load.shards (nodes st !!! h)))%nat)
  ∧ (∀ h s t, t ∈ candidates_at (nodes st) h s →
       ∃ r, r ∈ replicas_of tm t ∧ host r = h) →
  selection_loop pop_heap push_heap set_begin tm plan_dc target target_node fuel st
  = Throw e →
  reports_invalid_topology tm plan_dc e.
Proof.
  revert st; induction fuel as [|fuel IH]; intros st HW; simpl.
  { by destruct (decide _). }
  destruct (decide _) as [[_ Hne]|]; [|done].
  destruct HW as (W1 & W3 & W4).
  destruct (loop_body_outcome st W1 W3 W4 Hne) as [[it Hb]|(t & r & Hr & Hnone & Hb)];
    rewrite Hb; cbn.
  - apply (loop_body_pass pop_heap push_heap set_begin pop_heap_perm push_heap_perm)
      in Hb.
    destruct it as [st'|st']; [done|].
    apply IH.
    by apply (pass_well_formed pop_heap push_heap set_begin pop_heap_perm
                push_heap_perm tm plan_dc target target_node st (Continue st')).
  - intros [= <-]. simpl. split; [done|]. by exists t, r.
Qed.

End exceptions.

Section exceptions_of_a_plan.

Variables make_heap pop_heap push_heap :
  ∀ A : Type, (A → A → bool) → list A → list A.
Variable set_begin : list global_tablet_id → global_tablet_id.
Hypothesis make_heap_perm : ∀ A comp (l : list A), make_heap A comp l ≡ₚ l.
Hypothesis pop_heap_perm : ∀ A comp (l : list A), pop_heap A comp l ≡ₚ l.
Hypothesis push_heap_perm : ∀ A comp (l : list A), push_heap A comp l ≡ₚ l.
Hypothesis set_begin_elem : ∀ c, c ≠ [] → set_begin c ∈ c.
Variable tm : token_metadata.
Variable plan_dc : string.
Variable node_order : gmap N node_load.t → list N.
Hypothesis node_order_perm : ∀ ns, node_order ns ≡ₚ (map_to_list ns).*1.

Lemma make_plan_Throw e :
  make_plan make_heap pop_heap push_heap set_begin tm plan_dc node_order = Throw e →
  reports_invalid_topology tm plan_dc e.
Proof.
  unfold make_plan. intros H.
  destruct (prepare make_heap tm plan_dc node_order) as [[[target target_node] st0]| | |] eqn:Hp;
    cbn -[selection_loop] in H; try done.
  - destruct (prepare_entry make_heap make_heap_perm tm plan_dc node_order node_order_perm _ _ _ Hp)
      as (_ & _ & W1 & W3 & W4).
    destruct (selection_loop _ _ _ _ _ _ _ _ _) as [st| | |] eqn:Hs;
      cbn in H; try done.
    injection H as ->.
    by apply (selection_loop_Throw pop_heap push_heap set_begin pop_heap_perm
                push_heap_perm set_begin_elem tm plan_dc target target_node
                (S (loop_bound st0)) st0).
  - injection H as ->. by apply prepare_Throw, compute_node_loads_reports in Hp.
Qed.

End exceptions_of_a_plan.

Lemma normal_node_in_unique tm d d' h :
  normal_node_in tm d h → normal_node_in tm d' h → d = d'.
Proof. intros (nd & ? & _ & <-) (nd' & ? & _ & <-). by simplify_eq. Qed.

Lemma moves_app p q : moves (p ++ q) = moves p ++ moves q.
Proof. unfold moves. by rewrite fmap_app. Qed.

Section round_properties.

Variables make_heap pop_heap push_heap :
  ∀ A : Type, (A → A → bool) → list A → list A.
Variable set_begin : list global_tablet_id → global_tablet_id.
Hypothesis make_heap_perm : ∀ A comp (l : list A), make_heap A comp l ≡ₚ l.
Hypothesis pop_heap_perm : ∀ A comp (l : list A), pop_heap A comp l ≡ₚ l.
Hypothesis push_heap_perm : ∀ A comp (l : list A), push_heap A comp l ≡ₚ l.
Hypothesis set_begin_elem : ∀ c, c ≠ [] → set_begin c ∈ c.
Variable tm : token_metadata.
Variable node_order : gmap N node_load.t → list N.
Hypothesis node_order_perm : ∀ ns, node_order ns ≡ₚ (map_to_list ns).*1.

Abbreviation plan_of' dc :=
  (make_plan make_heap pop_heap push_heap set_begin tm dc node_order).

Lemma make_plan_elem plan_dc p m :
  plan_of' plan_dc = Return p → m ∈ p →
  normal_node_in tm plan_dc (host (dst m))
  ∧ normal_node_in tm plan_dc (host (src m))
  ∧ host (src m) ≠ host (dst m)
  ∧ src m ∈ replicas_of tm (mig_tablet m).
Proof.
  intros Hp Hm.
  apply (make_plan_migrations make_heap pop_heap push_heap set_begin make_heap_perm
           pop_heap_perm push_heap_perm set_begin_elem
           tm plan_dc node_order node_order_perm) in Hp
    as [->|(target & Ht & Hall)]; [by apply elem_of_nil in Hm|].
  rewrite Forall_forall in Hall. destruct (Hall m Hm) as (-> & ? & ? & ?). done.
Qed.

Lemma plans_moves_NoDup dcs ps :
  NoDup dcs →
  Forall2 (fun dc q => plan_of' dc = Return q) dcs ps →
  NoDup (moves (concat ps)).
Proof.
  intros Hnd Hps. induction Hps as [|dc q dcs ps Hq Hps IH]; simpl; [constructor|].
  apply NoDup_cons in Hnd as [Hdc Hnd].
  rewrite moves_app. apply NoDup_app. split_and!.
  - by apply (make_plan_moves_NoDup make_heap pop_heap push_heap set_begin
                pop_heap_perm push_heap_perm set_begin_elem tm dc node_order).
  - intros x (m & -> & Hm)%list_elem_of_fmap (m' & Heq & Hm')%list_elem_of_fmap.
    destruct (elem_of_concat_Forall2 _ _ _ _ Hps Hm') as (dc' & q' & Hdc' & Hq' & Hin').
    destruct (make_plan_elem _ _ _ Hq Hm) as (_ & Hs & _).
    destruct (make_plan_elem _ _ _ Hq' Hin') as (_ & Hs' & _).
    injection Heq as _ Hsrc. rewrite Hsrc in Hs.
    apply Hdc. by rewrite (normal_node_in_unique _ _ _ _ Hs Hs').
  - by apply IH.
Qed.

End round_properties.

(** ** The size of a plan and the racks of its migrations *)

Section plan_bounds.

Variables make_heap pop_heap push_heap :
  ∀ A : Type, (A → A → bool) → list A → list A.
Variable set_begin : list global_tablet_id → global_tablet_id.
Hypothesis make_heap_perm : ∀ A comp (l : list A), make_heap A comp l ≡ₚ l.
Hypothesis pop_heap_perm : ∀ A comp (l : list A), pop_heap A comp l ≡ₚ l.
Hypothesis push_heap_perm : ∀ A comp (l : list A), push_heap A comp l ≡ₚ l.
Hypothesis set_begin_elem : ∀ c, c ≠ [] → set_begin c ∈ c.
Variable tm : token_metadata.
Variable node_order : gmap N node_load.t → list N.
Hypothesis node_order_perm : ∀ ns, node_order ns ≡ₚ (map_to_list ns).*1.

Abbreviation plan_in dc :=
  (make_plan make_heap pop_heap push_heap set_begin tm dc node_order).

(** A returned plan that is not empty goes to one node, has at most as
    many migrations as that node has shards, and keeps the rack check of
    every migration. *)
Lemma make_plan_target plan_dc p :
  plan_in plan_dc = Return p →
  p = []
  ∨ ∃ target target_node,
      get_topology tm !! target = Some target_node
      ∧ (length p ≤ get_shard_count target_node)%nat
      ∧ Forall (fun m =>
                  host (dst m) = target
                  ∧ ∀ src_node,
                      get_topology tm !! host (src m) = Some src_node →
                      rack (dc_rack target_node) ≠ rack (dc_rack src_node) →
                      ∃ rk, rack_count tm plan_dc (mig_tablet m)
                              (rack (dc_rack target_node)) + 1
                            ≤ rack_count tm plan_dc (mig_tablet m) rk) p.
Proof.
  intros Hp.
  apply make_plan_Return in Hp
    as [->|(target & target_node & st0 & st & Hprep & Hloop & ->)]; [by left|].
  right. exists target, target_node.
  apply prepare_Next in Hprep as (ns & ns' & _ & _ & _ & Htn & _ & ->).
  split; [done|].
  apply (selection_loop_invariant _ _ _ _ _ _ _
           (fun st =>
              (length (plan st) ≤ get_shard_count target_node)%nat
              ∧ Forall (fun m =>
                  host (dst m) = target
                  ∧ ∀ src_node,
                      get_topology tm !! host (src m) = Some src_node →
                      rack (dc_rack target_node) ≠ rack (dc_rack src_node) →
                      ∃ rk, rack_count tm plan_dc (mig_tablet m)
                              (rack (dc_rack target_node)) + 1
                            ≤ rack_count tm plan_dc (mig_tablet m) rk) (plan st)))
    in Hloop; [done| |].
  - intros st1 it [Hlen Hall] [Hlt _] Hb. split.
    { apply loop_body_plan_length in Hb. unfold batch_size in Hlt. lia. }
    apply loop_body_plan in Hb
      as [->|(src_host & src_shard & info & _ & Hpass & ->)]; [done|].
    cbn [state_of]. rewrite plan_emit_migration. apply Forall_app. split; [done|].
    constructor; [|constructor]. simpl. split; [done|].
    intros src_node Hsn Hne. by eapply constraints_pass_rack.
  - simpl. split; [lia|constructor].
Qed.

(** In the plans of datacenters that are listed once each, the
    migrations to one node are at most as many as the node has shards. *)
Lemma plans_batch_bounded dcs ps h nd :
  NoDup dcs →
  Forall2 (fun dc q => plan_in dc = Return q) dcs ps →
  get_topology tm !! h = Some nd →
  (length (filter (fun m => host (dst m) = h) (concat ps)) ≤ get_shard_count nd)%nat.
Proof.
  intros Hnd Hps Hh.
  assert (∀ dcs ps, Forall2 (fun dc q => plan_in dc = Return q) dcs ps →
            (∀ d, d ∈ dcs → ¬ normal_node_in tm d h) →
            filter (fun m => host (dst m) = h) (concat ps) = []) as Hnone.
  { clear dcs ps Hnd Hps. intros dcs ps Hps.
    induction Hps as [|d0 q dcs ps Hq _ IH]; intros Hno; simpl; [done|].
    rewrite filter_app, IH by (intros d Hd; apply Hno; by right).
    rewrite app_nil_r.
    destruct (filter _ q) as [|m l] eqn:Hf; [done|]. exfalso.
    assert (m ∈ filter (fun m => host (dst m) = h) q) as Hm.
    { rewrite Hf. by left. }
    apply list_elem_of_filter in Hm as [Hdst Hm].
    destruct (make_plan_elem make_heap pop_heap push_heap set_begin make_heap_perm
                pop_heap_perm push_heap_perm set_begin_elem tm node_order node_order_perm _ _ _ Hq Hm)
      as (Hn & _).
    apply (Hno d0); [by left|]. by rewrite <- Hdst. }
  induction Hps as [|d0 q dcs ps Hq Hps IH]; simpl; [lia|].
  apply NoDup_cons in Hnd as [Hdc Hnd].
  rewrite filter_app, length_app.
  destruct (filter (fun m => host (dst m) = h) q) as [|m l] eqn:Hf.
  { simpl. by apply IH. }
  rewrite <- Hf.
  assert (m ∈ filter (fun m => host (dst m) = h) q) as Hm.
  { rewrite Hf. by left. }
  apply list_elem_of_filter in Hm as [Hdst Hm].
  destruct (make_plan_elem make_heap pop_heap push_heap set_begin make_heap_perm
              pop_heap_perm push_heap_perm set_begin_elem tm node_order node_order_perm _ _ _ Hq Hm)
    as (Hin & _).
  rewrite Hdst in Hin.
  rewrite (Hnone dcs ps Hps).
  2:{ intros d Hd Hd'. apply Hdc.
      by rewrite (normal_node_in_unique _ _ _ _ Hin Hd'). }
  simpl. rewrite Nat.add_0_r.
  apply make_plan_target in Hq as [->|(t & tn & Htn & Hlen & Hall)];
    [by apply elem_of_nil in Hm|].
  rewrite Forall_forall in Hall. destruct (Hall _ Hm) as [Ht _].
  rewrite Hdst in Ht. subst t. simplify_eq.
  etrans; [apply length_filter|done].
Qed.

End plan_bounds.

(** * Further properties of the planner and of the plan of a round *)

Section further_properties.

Variables make_heap pop_heap push_heap :
  ∀ A : Type, (A → A → bool) → list A → list A.
Variable set_begin : list global_tablet_id → global_tablet_id.

(** The heap primitives permute the vector they are given. *)
Hypothesis make_heap_perm : ∀ A comp (l : list A), make_heap A comp l ≡ₚ l.
Hypothesis pop_heap_perm : ∀ A comp (l : list A), pop_heap A comp l ≡ₚ l.
Hypothesis push_heap_perm : ∀ A comp (l : list A), push_heap A comp l ≡ₚ l.

(** [begin()] of a non-empty set designates one of its elements. *)
Hypothesis set_begin_elem : ∀ c, c ≠ [] → set_begin c ∈ c.

Variable get_datacenters : gmap N node → list string.
Variable tm : token_metadata.
Variable plan_dc : string.
Variable node_order : gmap N node_load.t → list N.
Hypothesis node_order_perm : ∀ ns, node_order ns ≡ₚ (map_to_list ns).*1.

(** X1. The two scans that collect the nodes: the map of nodes holds the
    normal nodes of the datacenter and no other; each has the shard count
    of its node, as many shards, and for its count the number of replicas
    that the tablet maps place on the node, counted in [uint64_t]. *)
Theorem node_loads_exact ns h :
  compute_node_loads tm plan_dc = Next ns →
  (is_Some (ns !! h) ↔ normal_node_in tm plan_dc h)
  ∧ ∀ n nd, ns !! h = Some n → get_topology tm !! h = Some nd →
      node_load.shard_count n = get_shard_count nd
      ∧ length (node_load.shards n) = get_shard_count nd
      ∧ node_load.tablet_count n = wrap64 (count_host h (all_replicas tm)).
Proof.
  intros Hns. split; [by apply compute_node_loads_nodes|].
  intros n nd Hn Hnd.
  apply compute_node_loads_spec in Hns as (N1 & _).
  destruct (N1 _ _ Hn) as (nd' & ? & _ & _ & _ & Hsc & Htc & _ & Hsh). simplify_eq.
  by rewrite Hsh, length_replicate.
Qed.

(** X2. When the selection loop is entered, the candidates of a shard of
    a normal node of the datacenter are, each once, the tablets that have
    a replica on that shard. *)
Theorem loop_entry_candidates_exact target target_node st0 h s :
  prepare make_heap tm plan_dc node_order = Next (target, target_node, st0) →
  normal_node_in tm plan_dc h →
  NoDup (candidates_at (nodes st0) h s)
  ∧ ∀ t, t ∈ candidates_at (nodes st0) h s
         ↔ {| host := h; shard := s |} ∈ replicas_of tm t.
Proof. by apply prepare_entry_candidates. Qed.

(** X3. When the selection loop is entered and the snapshot holds fewer
    than 2^64 replicas, the count of a shard of a normal node of the
    datacenter is the number of replicas on that shard, and
    [shards_by_load] lists, each once, the shards whose count is not
    zero. *)
Theorem loop_entry_shard_heaps target target_node st0 h :
  prepare make_heap tm plan_dc node_order = Next (target, target_node, st0) →
  Z.of_nat (length (all_replicas tm)) < 2 ^ 64 →
  normal_node_in tm plan_dc h →
  NoDup (node_load.shards_by_load (nodes st0 !!! h))
  ∧ (∀ s, s ∈ node_load.shards_by_load (nodes st0 !!! h)
          ↔ 0 < shard_load.tablet_count (node_load.shards (nodes st0 !!! h) !!! s))
  ∧ (∀ s, shard_load.tablet_count (node_load.shards (nodes st0 !!! h) !!! s)
          = count_shard h s (all_replicas tm)).
Proof. by apply prepare_entry_counts. Qed.

(** X4. In every state of a run of the selection loop the [avg_load] of
    every node is the load of its [tablet_count]: [update()] follows
    every change of a count. *)
Theorem loads_stay_up_to_date target target_node st0 st h :
  prepare make_heap tm plan_dc node_order = Next (target, target_node, st0) →
  loop_reaches pop_heap push_heap set_begin tm plan_dc target target_node st0 st →
  load_up_to_date (nodes st !!! h).
Proof.
  intros Hprep Hreach.
  by apply (loop_reaches_loads pop_heap push_heap set_begin pop_heap_perm
              push_heap_perm tm plan_dc target target_node st0 st
              (prepare_entry_loads make_heap tm plan_dc node_order node_order_perm _ _ _ Hprep) Hreach h).
Qed.

(** X5. The source of a migration of a returned plan is a replica that
    the tablet has in the snapshot. *)
Theorem migration_source_is_replica p m :
  make_plan make_heap pop_heap push_heap set_begin tm plan_dc node_order = Return p →
  m ∈ p →
  src m ∈ replicas_of tm (mig_tablet m).
Proof.
  intros Hp Hm.
  by destruct (make_plan_elem make_heap pop_heap push_heap set_begin make_heap_perm
                 pop_heap_perm push_heap_perm set_begin_elem tm node_order node_order_perm _ _ _ Hp Hm)
    as (_ & _ & _ & ?).
Qed.

(** X6. A migration of the plan of a datacenter stays in the datacenter:
    its source and its destination are on normal nodes of it. *)
Theorem migration_within_datacenter p m :
  make_plan make_heap pop_heap push_heap set_begin tm plan_dc node_order = Return p →
  m ∈ p →
  normal_node_in tm plan_dc (host (src m))
  ∧ normal_node_in tm plan_dc (host (dst m)).
Proof.
  intros Hp Hm.
  by destruct (make_plan_elem make_heap pop_heap push_heap set_begin make_heap_perm
                 pop_heap_perm push_heap_perm set_begin_elem tm node_order node_order_perm _ _ _ Hp Hm)
    as (? & ? & _).
Qed.

(** X7. All migrations of a returned plan have the same destination
    node, and none of them takes a tablet from that node. *)
Theorem plan_single_target p m1 m2 :
  make_plan make_heap pop_heap push_heap set_begin tm plan_dc node_order = Return p →
  m1 ∈ p → m2 ∈ p →
  host (dst m1) = host (dst m2) ∧ host (src m1) ≠ host (dst m2).
Proof.
  intros Hp H1 H2.
  apply (make_plan_migrations make_heap pop_heap push_heap set_begin make_heap_perm
           pop_heap_perm push_heap_perm set_begin_elem
           tm plan_dc node_order node_order_perm) in Hp
    as [->|(target & _ & Hall)]; [by apply elem_of_nil in H1|].
  rewrite Forall_forall in Hall.
  destruct (Hall _ H1) as (-> & ? & _). by destruct (Hall _ H2) as (-> & _).
Qed.

(** X8. A pass of the selection loop emits a migration only from a node
    whose average load is above the target's. *)
Theorem source_more_loaded target target_node st m :
  emits pop_heap push_heap set_begin tm plan_dc target target_node st m →
  (node_load.avg_load (nodes st !!! host (dst m))
   < node_load.avg_load (nodes st !!! host (src m)))%Q.
Proof.
  intros (src_host & src_shard & info & (_ & Hle & _) & _ & ->)%emits_inv. simpl.
  apply Qnot_le_lt. intros H. unfold load_le in Hle.
  apply Qle_bool_iff in H. congruence.
Qed.

(** X9. With fewer than 2^64 replicas in the snapshot, the counts that
    an emitted migration decrements, the one of the source node and the
    one of the source shard, are above zero: no decrement wraps. *)
Theorem decrements_do_not_wrap target target_node st0 st m :
  prepare make_heap tm plan_dc node_order = Next (target, target_node, st0) →
  Z.of_nat (length (all_replicas tm)) < 2 ^ 64 →
  loop_reaches pop_heap push_heap set_begin tm plan_dc target target_node st0 st →
  emits pop_heap push_heap set_begin tm plan_dc target target_node st m →
  0 < node_load.tablet_count (nodes st !!! host (src m))
  ∧ 0 < shard_load.tablet_count
          (node_load.shards (nodes st !!! host (src m)) !!! shard (src m)).
Proof.
  intros Hprep Hbound Hreach (src_host & src_shard & info & Hsel & _ & ->)%emits_inv.
  simpl. split.
  - eapply (source_selected_loads pop_heap); [|done].
    by apply (loop_reaches_loads pop_heap push_heap set_begin pop_heap_perm
                push_heap_perm tm plan_dc target target_node st0 st
                (prepare_entry_loads make_heap tm plan_dc node_order node_order_perm _ _ _ Hprep) Hreach).
  - destruct (loop_reaches_positive pop_heap push_heap set_begin pop_heap_perm
                push_heap_perm tm plan_dc target target_node st0 st
                (prepare_entry_positive make_heap make_heap_perm tm plan_dc node_order node_order_perm
                   _ _ _ Hprep Hbound) Hreach src_host) as [_ Hpos].
    apply Hpos. destruct Hsel as (_ & _ & _ & Hlast & _).
    apply last_Some_elem in Hlast. simpl in Hlast.
    by rewrite pop_heap_perm in Hlast.
Qed.

(** X10. An exception of the planner reports what it found: a normal
    node of the datacenter without shards, a replica on a normal node of
    the datacenter on a shard that the node does not have, or a replica on
    a host that the topology does not hold.  The planner reads no vector
    out of its range and takes no element from an empty one. *)
Theorem exceptions_report_invalid_topology e :
  make_plan make_heap pop_heap push_heap set_begin tm plan_dc node_order = Throw e →
  reports_invalid_topology tm plan_dc e.
Proof.
  by apply (make_plan_Throw make_heap pop_heap push_heap set_begin make_heap_perm
              pop_heap_perm push_heap_perm set_begin_elem).
Qed.

(** X11. [balance_tablets] returns a plan when the planner of every
    datacenter returns one, and then its plan is the plans of the
    datacenters one after the other, in the order of the datacenters. *)
Theorem balance_tablets_concatenates p :
  balance_tablets make_heap pop_heap push_heap set_begin get_datacenters tm node_order = Return p
  ↔ ∃ ps, Forall2 (fun dc q =>
                     make_plan make_heap pop_heap push_heap set_begin tm dc node_order
                     = Return q)
                  (get_datacenters (get_topology tm)) ps
          ∧ p = concat ps.
Proof. apply balance_tablets_Return. Qed.

(** X12. No migration of the plan of a round crosses datacenters: its
    source and its destination are on normal nodes of one datacenter of
    the list. *)
Theorem no_cross_datacenter_migration p m :
  balance_tablets make_heap pop_heap push_heap set_begin get_datacenters tm node_order = Return p →
  m ∈ p →
  ∃ d, d ∈ get_datacenters (get_topology tm)
       ∧ normal_node_in tm d (host (src m))
       ∧ normal_node_in tm d (host (dst m)).
Proof.
  intros Hp Hm.
  destruct (balance_tablets_elem _ _ _ _ _ _ _ _ _ Hp Hm) as (d & q & Hd & Hq & Hin).
  exists d. split; [done|].
  by destruct (make_plan_elem make_heap pop_heap push_heap set_begin make_heap_perm
                 pop_heap_perm push_heap_perm set_begin_elem tm node_order node_order_perm _ _ _ Hq Hin)
    as (? & ? & _).
Qed.

(** X13. Every migration of the plan of a round takes a replica that the
    tablet has in the snapshot to a node that has no replica of the
    tablet. *)
Theorem balance_tablets_collision_free p m :
  balance_tablets make_heap pop_heap push_heap set_begin get_datacenters tm node_order = Return p →
  m ∈ p →
  src m ∈ replicas_of tm (mig_tablet m)
  ∧ ∀ r, r ∈ replicas_of tm (mig_tablet m) → host r ≠ host (dst m).
Proof.
  intros Hp Hm.
  destruct (balance_tablets_elem _ _ _ _ _ _ _ _ _ Hp Hm) as (d & q & Hd & Hq & Hin).
  split.
  - by destruct (make_plan_elem make_heap pop_heap push_heap set_begin make_heap_perm
                   pop_heap_perm push_heap_perm set_begin_elem tm node_order node_order_perm _ _ _ Hq Hin)
      as (_ & _ & _ & ?).
  - intros r Hr.
    by apply (make_plan_collision_free make_heap pop_heap push_heap set_begin
                tm d node_order q m r).
Qed.

(** X14. When the list of the datacenters names none twice, the
    [(tablet, src)] pairs of the plan of a round are pairwise distinct. *)
Theorem balance_tablets_moves_distinct p :
  NoDup (get_datacenters (get_topology tm)) →
  balance_tablets make_heap pop_heap push_heap set_begin get_datacenters tm node_order = Return p →
  NoDup (moves p).
Proof.
  intros Hnd (ps & Hps & ->)%balance_tablets_Return.
  by apply (plans_moves_NoDup make_heap pop_heap push_heap set_begin make_heap_perm
              pop_heap_perm push_heap_perm set_begin_elem tm node_order node_order_perm
              (get_datacenters (get_topology tm))).
Qed.

(** X15. An invalid topology in one datacenter of the list is fatal to
    the round: [balance_tablets] throws, whatever the planners of the
    other datacenters find. *)
Theorem balance_tablets_invalid_topology d :
  d ∈ get_datacenters (get_topology tm) →
  zero_shard_node tm d ∨ nonexistent_shard_replica tm d →
  ∃ e, balance_tablets make_heap pop_heap push_heap set_begin get_datacenters tm node_order = Throw e.
Proof.
  intros Hd Hinv.
  assert (∀ dcs acc, d ∈ dcs →
            ∃ e, for_each (plan_datacenter make_heap pop_heap push_heap set_begin tm node_order)
                   dcs acc = Throw e) as Hloop.
  { induction dcs as [|d' dcs IH]; intros acc Hin; [by apply elem_of_nil in Hin|].
    cbn.
    destruct (make_plan_ends make_heap pop_heap push_heap set_begin pop_heap_perm
                push_heap_perm set_begin_elem tm d' node_order) as [[q Hq]|[e He]].
    - rewrite (plan_datacenter_Return _ _ _ _ _ _ _ _ _ Hq). cbn.
      apply elem_of_cons in Hin as [->|Hin]; [|by apply IH].
      apply (make_plan_invalid make_heap pop_heap push_heap set_begin _ _ node_order) in Hinv
        as [e He]. congruence.
    - rewrite (plan_datacenter_Throw _ _ _ _ _ _ _ _ _ He). by eexists. }
  destruct (Hloop _ [] Hd) as [e He]. exists e.
  unfold balance_tablets, make_plan_all. by rewrite He.
Qed.

(** X16. Pending transitions in one tablet map block the round: a plan
    that [balance_tablets] returns is empty. *)
Theorem balance_tablets_pending_transitions p :
  pending_transitions tm →
  balance_tablets make_heap pop_heap push_heap set_begin get_datacenters tm node_order = Return p →
  p = [].
Proof.
  intros Hpend (ps & Hps & ->)%balance_tablets_Return.
  induction Hps as [|d q dcs ps Hq _ IH]; simpl; [done|].
  apply (make_plan_pending_empty make_heap pop_heap push_heap set_begin) in Hq
    as ->; done.
Qed.

(** X17. When every replica is on a host that the topology holds and the
    topology is valid in every datacenter of the list, [balance_tablets]
    returns a plan. *)
Theorem balance_tablets_returns :
  replica_hosts_known tm →
  (∀ d, d ∈ get_datacenters (get_topology tm) →
        ¬ zero_shard_node tm d ∧ ¬ nonexistent_shard_replica tm d) →
  ∃ p, balance_tablets make_heap pop_heap push_heap set_begin get_datacenters tm node_order = Return p.
Proof.
  intros Hknown Hvalid.
  assert (∀ dcs, (∀ d, d ∈ dcs → d ∈ get_datacenters (get_topology tm)) →
            ∃ ps, Forall2 (fun dc q =>
                             make_plan make_heap pop_heap push_heap set_begin tm dc node_order
                             = Return q) dcs ps) as Hall.
  { induction dcs as [|d dcs IH]; intros Hsub; [by exists []|].
    destruct IH as [ps Hps]; [intros d' Hd'; apply Hsub; by right|].
    destruct (Hvalid d) as [Hz Hs]; [apply Hsub; by left|].
    destruct (make_plan_valid make_heap pop_heap push_heap set_begin make_heap_perm
                pop_heap_perm push_heap_perm set_begin_elem tm d node_order node_order_perm
                Hknown Hz Hs)
      as [q Hq].
    exists (q :: ps). by constructor. }
  destruct (Hall (get_datacenters (get_topology tm))) as [ps Hps]; [done|].
  exists (concat ps). apply balance_tablets_Return. by exists ps.
Qed.

(** X18. An exception of [balance_tablets] is the exception of the
    planner of one datacenter of the list, and reports what that planner
    found. *)
Theorem balance_tablets_exceptions e :
  balance_tablets make_heap pop_heap push_heap set_begin get_datacenters tm node_order = Throw e →
  ∃ d, d ∈ get_datacenters (get_topology tm)
       ∧ make_plan make_heap pop_heap push_heap set_begin tm d node_order = Throw e
       ∧ reports_invalid_topology tm d e.
Proof.
  intros (pre & d & suf & ps & Hl & _ & He)%balance_tablets_Throw.
  exists d. split_and!; [|done|].
  - rewrite Hl. apply elem_of_app. right. by left.
  - by apply (make_plan_Throw make_heap pop_heap push_heap set_begin make_heap_perm
                pop_heap_perm push_heap_perm set_begin_elem tm d node_order node_order_perm).
Qed.

End further_properties.

(** X19. The comparisons that the planner gives to the heap algorithms are
    strict weak orderings, as the algorithms require: the one of the nodes,
    by [avg_load], and the one of the shards of a node, by [tablet_count]. *)
Theorem heap_comparisons_strict_weak :
  (∀ ns : gmap N node_load.t, strict_weak_ordering (nodes_cmp ns))
  ∧ (∀ n : node_load.t, strict_weak_ordering (node_load.shards_by_load_cmp n)).
Proof.
  split.
  - intros ns.
    apply (load_lt_strict_weak (fun a => node_load.avg_load (ns !!! a))).
  - intros n.
    apply (count_lt_strict_weak
             (fun a => shard_load.tablet_count (node_load.shards n !!! a))).
Qed.

Section imbalance_scan.

Variable node_order : gmap N node_load.t → list N.
Hypothesis node_order_perm : ∀ ns, node_order ns ≡ₚ (map_to_list ns).*1.

(** X20. In whatever order it meets the nodes, the scan that computes the
    imbalance refreshes the [avg_load] of every node and picks as target a node of the map whose load no node is
    below, with [min_load] its load; it picks none only when the map is
    empty; [max_load] is a load that no node is above, the load of a node
    or, when no node has a load above zero, zero. *)
Theorem imbalance_exact (ns : gmap N node_load.t) :
  (compute_imbalance node_order ns).1 = node_load.update <$> ns
  ∧ (∀ h n, ns !! h = Some n →
       (min_load (compute_imbalance node_order ns).2 <= node_load.avg_load (node_load.update n))%Q
       ∧ (node_load.avg_load (node_load.update n)
          <= max_load (compute_imbalance node_order ns).2)%Q)
  ∧ (max_load (compute_imbalance node_order ns).2 = 0%Q
     ∨ ∃ h n, ns !! h = Some n
              ∧ max_load (compute_imbalance node_order ns).2
                = node_load.avg_load (node_load.update n))
  ∧ match min_load_node (compute_imbalance node_order ns).2 with
    | Some t => ∃ n, ns !! t = Some n
                     ∧ min_load (compute_imbalance node_order ns).2
                       = node_load.avg_load (node_load.update n)
    | None => ns = ∅
    end.
Proof.
  destruct (compute_imbalance_spec node_order node_order_perm ns) as (H1 & H2 & _ & H4 & H5).
  split_and!; try done.
  destruct (min_load_node _); [done|]. by destruct H5.
Qed.

End imbalance_scan.

Section further_properties_of_plans.

Variables make_heap pop_heap push_heap :
  ∀ A : Type, (A → A → bool) → list A → list A.
Variable set_begin : list global_tablet_id → global_tablet_id.
Hypothesis make_heap_perm : ∀ A comp (l : list A), make_heap A comp l ≡ₚ l.
Hypothesis pop_heap_perm : ∀ A comp (l : list A), pop_heap A comp l ≡ₚ l.
Hypothesis push_heap_perm : ∀ A comp (l : list A), push_heap A comp l ≡ₚ l.
Hypothesis set_begin_elem : ∀ c, c ≠ [] → set_begin c ∈ c.
Variable get_datacenters : gmap N node → list string.
Variable tm : token_metadata.
Variable plan_dc : string.
Variable node_order : gmap N node_load.t → list N.
Hypothesis node_order_perm : ∀ ns, node_order ns ≡ₚ (map_to_list ns).*1.

(** X21. Every migration of a returned plan between nodes of different
    racks keeps the rack check against the snapshot: some rack of the
    datacenter has at least as many replicas of the tablet as the rack of
    the destination gets. *)
Theorem plan_keeps_rack_diversity p m src_node dst_node :
  make_plan make_heap pop_heap push_heap set_begin tm plan_dc node_order = Return p →
  m ∈ p →
  get_topology tm !! host (src m) = Some src_node →
  get_topology tm !! host (dst m) = Some dst_node →
  rack (dc_rack dst_node) ≠ rack (dc_rack src_node) →
  ∃ rk, rack_count tm plan_dc (mig_tablet m) (rack (dc_rack dst_node)) + 1
        ≤ rack_count tm plan_dc (mig_tablet m) rk.
Proof.
  intros Hp Hm Hs Hd Hne.
  apply make_plan_target in Hp as [->|(t & tn & Htn & _ & Hall)];
    [by apply elem_of_nil in Hm|].
  rewrite Forall_forall in Hall. destruct (Hall _ Hm) as [Ht Hrack].
  rewrite Ht in Hd. simplify_eq. by apply (Hrack src_node).
Qed.

(** X22. When the list of the datacenters names none twice, the
    migrations of the plan of a round that go to one node are at most as
    many as that node has shards. *)
Theorem balance_tablets_batch_bounded p h nd :
  NoDup (get_datacenters (get_topology tm)) →
  balance_tablets make_heap pop_heap push_heap set_begin get_datacenters tm node_order
  = Return p →
  get_topology tm !! h = Some nd →
  (length (filter (fun m => host (dst m) = h) p) ≤ get_shard_count nd)%nat.
Proof.
  intros Hnd (ps & Hps & ->)%balance_tablets_Return Hh.
  by apply (plans_batch_bounded make_heap pop_heap push_heap set_begin make_heap_perm
              pop_heap_perm push_heap_perm set_begin_elem tm node_order node_order_perm
              (get_datacenters (get_topology tm))).
Qed.

End further_properties_of_plans.

(** * Examples of the further properties *)

Module further_examples.

Import scenarios rounds reference_facts.

Abbreviation ref_emits :=
  (emits reference.pop_heap reference.push_heap reference.set_begin).
Abbreviation ref_reaches :=
  (loop_reaches reference.pop_heap reference.push_heap reference.set_begin).

Lemma two_datacenters_valid :
  replica_hosts_known two_datacenters
  ∧ ∀ d, d ∈ get_datacenters (get_topology two_datacenters) →
         ¬ zero_shard_node two_datacenters d
         ∧ ¬ nonexistent_shard_replica two_datacenters d.
Proof.
  split.
  - intros t r Hr%elem_of_all_replicas.
    vm_compute in Hr.
    repeat (apply elem_of_cons in Hr as [Hr|Hr]);
      [..|by apply elem_of_nil in Hr]; simplify_eq; vm_compute; by eexists.
  - intros d _. split.
    + intros (h & nd & Hnd%elem_of_map_to_list & _ & _ & Hz).
      vm_compute in Hnd.
      repeat (apply elem_of_cons in Hnd as [Hnd|Hnd]);
        [..|by apply elem_of_nil in Hnd]; by simplify_eq.
    + intros (t & r & nd & Hr%elem_of_all_replicas & Hnd & _ & _ & Hsh).
      vm_compute in Hr.
      repeat (apply elem_of_cons in Hr as [Hr|Hr]);
        [..|by apply elem_of_nil in Hr]; simplify_eq; vm_compute in Hnd;
        simplify_eq; simpl in Hsh; lia.
Qed.

(** X1. *)
Lemma node_loads_exact_witness :
  (is_Some (loads simple_move "dc1" !! 1%N) ↔ normal_node_in simple_move "dc1" 1%N)
  ∧ ∀ n nd, loads simple_move "dc1" !! 1%N = Some n →
      get_topology simple_move !! 1%N = Some nd →
      node_load.shard_count n = get_shard_count nd
      ∧ length (node_load.shards n) = get_shard_count nd
      ∧ node_load.tablet_count n = wrap64 (count_host 1%N (all_replicas simple_move)).
Proof.
  apply (node_loads_exact simple_move "dc1" (loads simple_move "dc1") 1%N).
  vm_compute. reflexivity.
Defined.

(** X2. *)
Lemma loop_entry_candidates_exact_witness :
  NoDup (candidates_at (nodes (entry simple_move "dc1")) 1%N 0%nat)
  ∧ ∀ t, t ∈ candidates_at (nodes (entry simple_move "dc1")) 1%N 0%nat
         ↔ {| host := 1%N; shard := 0%nat |} ∈ replicas_of simple_move t.
Proof.
  apply (loop_entry_candidates_exact reference.make_heap make_heap_perm
           simple_move "dc1" reference.node_order node_order_perm 2%N node2).
  - vm_compute. reflexivity.
  - eexists; split_and!; vm_compute; reflexivity.
Defined.

(** X3. *)
Lemma loop_entry_shard_heaps_witness :
  NoDup (node_load.shards_by_load (nodes (entry simple_move "dc1") !!! 1%N))
  ∧ (∀ s, s ∈ node_load.shards_by_load (nodes (entry simple_move "dc1") !!! 1%N)
          ↔ 0 < shard_load.tablet_count
                  (node_load.shards (nodes (entry simple_move "dc1") !!! 1%N) !!! s))
  ∧ (∀ s, shard_load.tablet_count
            (node_load.shards (nodes (entry simple_move "dc1") !!! 1%N) !!! s)
          = count_shard 1%N s (all_replicas simple_move)).
Proof.
  apply (loop_entry_shard_heaps reference.make_heap make_heap_perm
           simple_move "dc1" reference.node_order node_order_perm 2%N node2).
  - vm_compute. reflexivity.
  - vm_compute. reflexivity.
  - eexists; split_and!; vm_compute; reflexivity.
Defined.

(** X4. *)
Lemma loads_stay_up_to_date_witness :
  load_up_to_date
    (nodes (pass_from simple_move "dc1" 2%N node2 (entry simple_move "dc1")) !!! 2%N).
Proof.
  apply (loads_stay_up_to_date reference.make_heap reference.pop_heap
           reference.push_heap reference.set_begin pop_heap_perm push_heap_perm
           simple_move "dc1" reference.node_order node_order_perm 2%N node2 (entry simple_move "dc1")).
  - vm_compute. reflexivity.
  - apply (reaches_pass _ _ _ _ _ _ _ _ (entry simple_move "dc1")
             (Continue (pass_from simple_move "dc1" 2%N node2
                          (entry simple_move "dc1")))).
    + apply reaches_entry.
    + split; [vm_compute; lia|vm_compute; discriminate].
    + vm_compute. reflexivity.
Defined.

(** X5. *)
Lemma migration_source_is_replica_witness :
  rep 1 0 ∈ replicas_of simple_move (tid 7 1).
Proof.
  apply (migration_source_is_replica reference.make_heap reference.pop_heap
           reference.push_heap reference.set_begin
           make_heap_perm pop_heap_perm push_heap_perm set_begin_elem
           simple_move "dc1" reference.node_order node_order_perm
           [move (tid 7 1) (rep 1 0) (rep 2 0); move (tid 7 3) (rep 1 1) (rep 2 1)]
           (move (tid 7 1) (rep 1 0) (rep 2 0))).
  - vm_compute. reflexivity.
  - left.
Defined.

(** X6. *)
Lemma migration_within_datacenter_witness :
  normal_node_in simple_move "dc1" 1%N ∧ normal_node_in simple_move "dc1" 2%N.
Proof.
  apply (migration_within_datacenter reference.make_heap reference.pop_heap
           reference.push_heap reference.set_begin
           make_heap_perm pop_heap_perm push_heap_perm set_begin_elem
           simple_move "dc1" reference.node_order node_order_perm
           [move (tid 7 1) (rep 1 0) (rep 2 0); move (tid 7 3) (rep 1 1) (rep 2 1)]
           (move (tid 7 1) (rep 1 0) (rep 2 0))).
  - vm_compute. reflexivity.
  - left.
Defined.

(** X7. *)
Lemma plan_single_target_witness :
  host (rep 2 0) = host (rep 2 1) ∧ host (rep 1 0) ≠ host (rep 2 1).
Proof.
  apply (plan_single_target reference.make_heap reference.pop_heap
           reference.push_heap reference.set_begin
           make_heap_perm pop_heap_perm push_heap_perm set_begin_elem
           simple_move "dc1" reference.node_order node_order_perm
           [move (tid 7 1) (rep 1 0) (rep 2 0); move (tid 7 3) (rep 1 1) (rep 2 1)]
           (move (tid 7 1) (rep 1 0) (rep 2 0))
           (move (tid 7 3) (rep 1 1) (rep 2 1))).
  - vm_compute. reflexivity.
  - left.
  - right. left.
Defined.

(** X8. *)
Lemma source_more_loaded_witness :
  (node_load.avg_load (nodes (entry simple_move "dc1") !!! 2%N)
   < node_load.avg_load (nodes (entry simple_move "dc1") !!! 1%N))%Q.
Proof.
  apply (source_more_loaded reference.pop_heap reference.push_heap
           reference.set_begin simple_move "dc1" 2%N node2
           (entry simple_move "dc1") (move (tid 7 1) (rep 1 0) (rep 2 0))).
  exists (pass_from simple_move "dc1" 2%N node2 (entry simple_move "dc1")).
  split; vm_compute; reflexivity.
Defined.

(** X9. *)
Lemma decrements_do_not_wrap_witness :
  0 < node_load.tablet_count (nodes (entry simple_move "dc1") !!! 1%N)
  ∧ 0 < shard_load.tablet_count
          (node_load.shards (nodes (entry simple_move "dc1") !!! 1%N) !!! 0%nat).
Proof.
  apply (decrements_do_not_wrap reference.make_heap reference.pop_heap
           reference.push_heap reference.set_begin
           make_heap_perm pop_heap_perm push_heap_perm
           simple_move "dc1" reference.node_order node_order_perm 2%N node2 (entry simple_move "dc1")
           (entry simple_move "dc1") (move (tid 7 1) (rep 1 0) (rep 2 0))).
  - vm_compute. reflexivity.
  - vm_compute. reflexivity.
  - apply reaches_entry.
  - exists (pass_from simple_move "dc1" 2%N node2 (entry simple_move "dc1")).
    split; vm_compute; reflexivity.
Defined.

(** X10. *)
Lemma exceptions_report_invalid_topology_witness :
  reports_invalid_topology zero_shards_pending "dc1" (shard_count_not_found 2).
Proof.
  apply (exceptions_report_invalid_topology reference.make_heap reference.pop_heap
           reference.push_heap reference.set_begin
           make_heap_perm pop_heap_perm push_heap_perm set_begin_elem
           zero_shards_pending "dc1" reference.node_order node_order_perm).
  vm_compute. reflexivity.
Defined.

(** X12. *)
Lemma no_cross_datacenter_migration_witness :
  ∃ d, d ∈ get_datacenters (get_topology two_datacenters)
       ∧ normal_node_in two_datacenters d 3%N
       ∧ normal_node_in two_datacenters d 4%N.
Proof.
  apply (no_cross_datacenter_migration reference.make_heap reference.pop_heap
           reference.push_heap reference.set_begin
           make_heap_perm pop_heap_perm push_heap_perm set_begin_elem
           get_datacenters two_datacenters reference.node_order node_order_perm
           [move (tid 8 1) (rep 3 0) (rep 4 0);
            move (tid 7 1) (rep 1 0) (rep 2 0);
            move (tid 7 3) (rep 1 1) (rep 2 1)]
           (move (tid 8 1) (rep 3 0) (rep 4 0))).
  - vm_compute. reflexivity.
  - left.
Defined.

(** X13. *)
Lemma balance_tablets_collision_free_witness :
  rep 3 0 ∈ replicas_of two_datacenters (tid 8 1)
  ∧ ∀ r, r ∈ replicas_of two_datacenters (tid 8 1) → host r ≠ host (rep 4 0).
Proof.
  apply (balance_tablets_collision_free reference.make_heap reference.pop_heap
           reference.push_heap reference.set_begin
           make_heap_perm pop_heap_perm push_heap_perm set_begin_elem
           get_datacenters two_datacenters reference.node_order node_order_perm
           [move (tid 8 1) (rep 3 0) (rep 4 0);
            move (tid 7 1) (rep 1 0) (rep 2 0);
            move (tid 7 3) (rep 1 1) (rep 2 1)]
           (move (tid 8 1) (rep 3 0) (rep 4 0))).
  - vm_compute. reflexivity.
  - left.
Defined.

(** X14. *)
Lemma balance_tablets_moves_distinct_witness :
  NoDup (moves [move (tid 8 1) (rep 3 0) (rep 4 0);
                move (tid 7 1) (rep 1 0) (rep 2 0);
                move (tid 7 3) (rep 1 1) (rep 2 1)]).
Proof.
  apply (balance_tablets_moves_distinct reference.make_heap reference.pop_heap
           reference.push_heap reference.set_begin
           make_heap_perm pop_heap_perm push_heap_perm set_begin_elem
           get_datacenters two_datacenters reference.node_order node_order_perm).
  - apply (bool_decide_unpack _). vm_compute. exact I.
  - vm_compute. reflexivity.
Defined.

(** X15. *)
Lemma balance_tablets_invalid_topology_witness :
  ∃ e, balance_tablets no_shards_in_dc2 = Throw e.
Proof.
  apply (balance_tablets_invalid_topology reference.make_heap reference.pop_heap
           reference.push_heap reference.set_begin
           pop_heap_perm push_heap_perm set_begin_elem
           get_datacenters no_shards_in_dc2 reference.node_order "dc2").
  - vm_compute. left.
  - left. exists 4%N, (mk_node "dc2" "r1" 0). split_and!; try done.
Defined.

(** X16. *)
Lemma balance_tablets_pending_transitions_witness :
  @nil tablet_migration_info = [].
Proof.
  apply (balance_tablets_pending_transitions reference.make_heap reference.pop_heap
           reference.push_heap reference.set_begin get_datacenters pending reference.node_order []).
  - exists 7%N, {| tablets := [tab [rep 1 0]; tab [rep 1 0];
                               tab [rep 1 1]; tab [rep 1 1]];
                   transitions := [0%nat] |}.
    split; [vm_compute; reflexivity|discriminate].
  - vm_compute. reflexivity.
Defined.

(** X17. *)
Lemma balance_tablets_returns_witness :
  ∃ p, balance_tablets two_datacenters = Return p.
Proof.
  apply (balance_tablets_returns reference.make_heap reference.pop_heap
           reference.push_heap reference.set_begin
           make_heap_perm pop_heap_perm push_heap_perm set_begin_elem
           get_datacenters two_datacenters reference.node_order node_order_perm); apply two_datacenters_valid.
Defined.

(** X18. *)
Lemma balance_tablets_exceptions_witness :
  ∃ d, d ∈ get_datacenters (get_topology no_shards_in_dc2)
       ∧ reference.make_plan no_shards_in_dc2 d = Throw (shard_count_not_found 4)
       ∧ reports_invalid_topology no_shards_in_dc2 d (shard_count_not_found 4).
Proof.
  apply (balance_tablets_exceptions reference.make_heap reference.pop_heap
           reference.push_heap reference.set_begin
           make_heap_perm pop_heap_perm push_heap_perm set_begin_elem
           get_datacenters no_shards_in_dc2 reference.node_order node_order_perm).
  vm_compute. reflexivity.
Defined.

(** X20. *)
Lemma imbalance_exact_witness :
  (compute_imbalance reference.reverse_node_order (loads tied_targets "dc1")).1
  = node_load.update <$> loads tied_targets "dc1"
  ∧ (∀ h n, loads tied_targets "dc1" !! h = Some n →
       (min_load (compute_imbalance reference.reverse_node_order
                    (loads tied_targets "dc1")).2
        <= node_load.avg_load (node_load.update n))%Q
       ∧ (node_load.avg_load (node_load.update n)
          <= max_load (compute_imbalance reference.reverse_node_order
                         (loads tied_targets "dc1")).2)%Q)
  ∧ (max_load (compute_imbalance reference.reverse_node_order
                 (loads tied_targets "dc1")).2 = 0%Q
     ∨ ∃ h n, loads tied_targets "dc1" !! h = Some n
              ∧ max_load (compute_imbalance reference.reverse_node_order
                            (loads tied_targets "dc1")).2
                = node_load.avg_load (node_load.update n))
  ∧ match min_load_node (compute_imbalance reference.reverse_node_order
                           (loads tied_targets "dc1")).2 with
    | Some t => ∃ n, loads tied_targets "dc1" !! t = Some n
                     ∧ min_load (compute_imbalance reference.reverse_node_order
                                   (loads tied_targets "dc1")).2
                       = node_load.avg_load (node_load.update n)
    | None => loads tied_targets "dc1" = ∅
    end.
Proof.
  apply (imbalance_exact reference.reverse_node_order reverse_node_order_perm
           (loads tied_targets "dc1")).
Defined.

(** X21. *)
Lemma plan_keeps_rack_diversity_witness :
  ∃ rk, rack_count rack_block "dc1" (tid 7 0) "r3" + 1
        ≤ rack_count rack_block "dc1" (tid 7 0) rk.
Proof.
  apply (plan_keeps_rack_diversity reference.make_heap reference.pop_heap
           reference.push_heap reference.set_begin rack_block "dc1" reference.node_order
           [move (tid 7 0) (rep 2 0) (rep 4 0); move (tid 7 0) (rep 1 0) (rep 4 1)]
           (move (tid 7 0) (rep 2 0) (rep 4 0))
           (mk_node "dc1" "r2" 1) node4).
  - vm_compute. reflexivity.
  - left.
  - vm_compute. reflexivity.
  - vm_compute. reflexivity.
  - simpl. discriminate.
Defined.

(** X22. *)
Lemma balance_tablets_batch_bounded_witness :
  (length (filter (fun m => host (dst m) = 2%N)
             [move (tid 8 1) (rep 3 0) (rep 4 0);
              move (tid 7 1) (rep 1 0) (rep 2 0);
              move (tid 7 3) (rep 1 1) (rep 2 1)])
   ≤ get_shard_count node2)%nat.
Proof.
  apply (balance_tablets_batch_bounded reference.make_heap reference.pop_heap
           reference.push_heap reference.set_begin
           make_heap_perm pop_heap_perm push_heap_perm set_begin_elem
           get_datacenters two_datacenters reference.node_order node_order_perm).
  - apply (bool_decide_unpack _). vm_compute. exact I.
  - vm_compute. reflexivity.
  - vm_compute. reflexivity.
Defined.

End further_examples.
